(** * Operon: non-dominated sorting, reverse-mode derivatives, tree creation
      and the evolutionary loop

    A shallow embedding of the parts of the Operon sources that the
    specification speaks about, one module per source file:

    - [Sorter]   : source/operators/non_dominated_sorter/dominance_degree_sort.cpp
    - [Autodiff] : include/operon/autodiff/reverse/derivatives.hpp
    - [Creator]  : src/operators/initialization.hpp
    - [GP]       : include/operon/algorithms/gp.hpp

    and, for the code around them,

    - [Core]        : the row range of include/operon/core
    - [Likelihood]  : include/operon/optimizer/likelihood/poisson_likelihood.hpp
    - [Data]        : include/operon/core/dataset.hpp
    - [Interpreter] : source/interpreter/interpreter.cpp
    - [Cli]         : cli/source/gp.cpp *)

From Stdlib Require Import ZArith QArith Qround List Lia Lqa Bool Permutation Sorted String.
From stdpp Require Import base list.

Local Open Scope Z_scope.

(** * Dominance-degree non-dominated sorting *)

Module Sorter.

(** An individual as the sorter sees it: [pop[a][k]] is the [k]-th entry of
    the individual's fitness vector.  The sorter only ever compares
    objective values with [<] and [==]; they are modelled by integers
    (a total order, no NaN). *)
Record Individual := { Fitness : list Z }.

(** [Eigen::Matrix<int64_t, -1, -1>]: a list of rows.  The counters stored
    here never exceed the number of objectives, so no wrap-around occurs. *)
Abbreviation Mat := (list (list Z)).

(** [pop[a][k]] *)
Definition at_ (pop : list Individual) (a k : nat) : Z :=
  default 0 (pop !! a ≫= λ p, Fitness p !! k).

(** [b(i)]: entry of an index column. *)
Definition ix (b : list nat) (i : nat) : nat := default 0%nat (b !! i).

Definition mrow (c : Mat) (i : nat) : list Z := default [] (c !! i).

(** [c(i, j)] read *)
Definition mget (c : Mat) (i j : nat) : Z := default 0 (mrow c i !! j).

(** [c(i, j) = v] *)
Definition mset (c : Mat) (i j : nat) (v : Z) : Mat :=
  <[i := <[j := v]> (mrow c i)]> c.

(** [Mat::Zero(n, k)] *)
Definition Zero (n k : nat) : Mat := replicate n (replicate k 0).

(** [c.row(i).fill(v)] *)
Definition row_fill (c : Mat) (i : nat) (v : Z) : Mat :=
  <[i := (λ _, v) <$> mrow c i]> c.

(** [c.row(i) = c.row(i')] *)
Definition row_assign (c : Mat) (i i' : nat) : Mat :=
  <[i := mrow c i']> c.

(** [d += c] *)
Definition madd (d c : Mat) : Mat := zip_with (zip_with Z.add) d c.

(** The inner loop of [ComputeComparisonMatrix]:
    [for (j = i; j < n; ++j) c(b(i), b(j)) = 1]. *)
Definition mark_from (b : list nat) (n i : nat) (c : Mat) : Mat :=
  fold_left (λ c j, mset c (ix b i) (ix b j) 1) (seq i (n - i)) c.

(** One iteration of the outer loop of [ComputeComparisonMatrix]. *)
Definition comparison_step (pop : list Individual) (b : list nat)
    (colIdx n : nat) (c : Mat) (i : nat) : Mat :=
  if at_ pop (ix b i) colIdx =? at_ pop (ix b (i - 1)) colIdx
  then row_assign c (ix b i) (ix b (i - 1))
  else mark_from b n i c.

(** [ComputeComparisonMatrix(pop, idx, colIdx)], with [b = idx.col(colIdx)]. *)
Definition ComputeComparisonMatrix (pop : list Individual)
    (idx : list (list nat)) (colIdx : nat) : Mat :=
  let n := length pop in
  let c := Zero n n in
  let b := default [] (idx !! colIdx) in
  let c := row_fill c (ix b 0) 1 in
  fold_left (comparison_step pop b colIdx n) (seq 1 (n - 1)) c.

(** [ComparisonMatrixSum(pop, idx)]; [idx.cols()] is the number of columns. *)
Definition ComparisonMatrixSum (pop : list Individual)
    (idx : list (list nat)) : Mat :=
  let d := ComputeComparisonMatrix pop idx 0 in
  fold_left (λ d i, madd d (ComputeComparisonMatrix pop idx i))
            (seq 1 (length idx - 1)) d.

(** Number of objectives, [pop.front().Fitness.size()]; reading the front of
    an empty span has no defined result. *)
Definition front_size (pop : list Individual) : option nat :=
  (λ p, length (Fitness p)) <$> head pop.

(** The body of the double loop of [ComputeDegreeMatrix]. *)
Definition zero_pair (m : Z) (d : Mat) (i j : nat) : Mat :=
  if (mget d i j =? m) && (mget d j i =? m)
  then mset (mset d j i 0) i j 0
  else d.

Definition zero_row (m : Z) (n : nat) (d : Mat) (i : nat) : Mat :=
  fold_left (λ d j, zero_pair m d i j) (seq i (n - i)) d.

(** [ComputeDegreeMatrix(pop, idx)]; [m] is [pop.front().Fitness.size()]. *)
Definition ComputeDegreeMatrix (pop : list Individual)
    (idx : list (list nat)) (m : nat) : Mat :=
  let n := length pop in
  let d := ComparisonMatrixSum pop idx in
  fold_left (zero_row (Z.of_nat m) n) (seq 0 n) d.

(** ** [std::sort] of an index column

    [std::sort(data, data + n, [&](a, b) { return pop[a][i] < pop[b][i]; })].
    The standard fixes the result only up to the order of equivalent
    elements; [col_sort] is one admissible result (insertion sort), and
    [sorted_column] below describes every admissible result. *)
Fixpoint sort_insert (pop : list Individual) (k : nat) (a : nat)
    (l : list nat) : list nat :=
  match l with
  | [] => [a]
  | b :: l' => if at_ pop a k <? at_ pop b k then a :: l
               else b :: sort_insert pop k a l'
  end.

Definition col_sort (pop : list Individual) (k : nat) (l : list nat) : list nat :=
  fold_right (sort_insert pop k) [] l.

(** [Vec::LinSpaced(n, 0, n-1).replicate(1, m)] followed by the sort of each
    column. *)
Definition sorted_indices (pop : list Individual) (m : nat) : list (list nat) :=
  (λ k, col_sort pop k (seq 0 (length pop))) <$> seq 0 m.

(** ** The front-peeling loop of [Sort] *)

Inductive outcome :=
| Fronts (fronts : list (list nat))   (* [return fronts] *)
| Undefined                           (* [pop.front()] on an empty span *)
| OutOfFuel.                          (* the [while] loop is still running *)

(** [std::all_of(tmp.begin(), tmp.end(), [&](auto j) { return d(j, i) < m; })] *)
Definition undominated (d : Mat) (m : Z) (tmp : list nat) (i : nat) : bool :=
  forallb (λ j, mget d j i <? m) tmp.

(** The [for (auto i : tmp)] loop: [front.push_back(i)] or
    [remaining.push_back(i)]. *)
Definition split_front (d : Mat) (m : Z) (tmp : list nat)
    : list nat * list nat :=
  fold_left (λ '(front, remaining) i,
               if undominated d m tmp i then (front ++ [i], remaining)
               else (front, remaining ++ [i]))
            tmp ([], []).

(** [while (count < n) { ... }] *)
Fixpoint peel (fuel : nat) (d : Mat) (m n : Z) (tmp : list nat) (count : Z)
    (fronts : list (list nat)) : outcome :=
  if count <? n then
    match fuel with
    | O => OutOfFuel
    | S fuel' =>
        let '(front, remaining) := split_front d m tmp in
        peel fuel' d m n remaining (count + Z.of_nat (length front))
             (fronts ++ [front])
    end
  else Fronts fronts.

(** [Sort] after the index columns have been sorted; [idx] is the matrix of
    sorted index columns. *)
Definition SortFrom (fuel : nat) (pop : list Individual)
    (idx : list (list nat)) : outcome :=
  match front_size pop with
  | None => Undefined
  | Some m =>
      let n := length pop in
      let d := ComputeDegreeMatrix pop idx m in
      peel fuel d (Z.of_nat m) (Z.of_nat n) (seq 0 n) 0 []
  end.

(** [DominanceDegreeSorter::Sort(pop)] *)
Definition Sort (fuel : nat) (pop : list Individual) : outcome :=
  match front_size pop with
  | None => Undefined
  | Some m => SortFrom fuel pop (sorted_indices pop m)
  end.

Definition ind (f : list Z) : Individual := {| Fitness := f |}.

(** The two populations the specification uses as examples, and a
    two-individual, one-objective population. *)
Definition population_cross : list Individual :=
  [ind [1; 4]; ind [2; 3]; ind [3; 2]; ind [4; 1]].

Definition population_chain : list Individual :=
  [ind [1; 1]; ind [2; 2]; ind [3; 3]].

Definition population_pair : list Individual := [ind [1]; ind [2]].

(** ** Specification-level notions for the sorter *)

(** [a] is no worse than [b] on every one of the [m] objectives. *)
Definition le_all (pop : list Individual) (m a b : nat) : bool :=
  forallb (λ k, at_ pop a k <=? at_ pop b k) (seq 0 m).

(** [a] is strictly better than [b] on some objective. *)
Definition lt_some (pop : list Individual) (m a b : nat) : bool :=
  existsb (λ k, at_ pop a k <? at_ pop b k) (seq 0 m).

(** Pareto dominance under minimisation: no worse on every objective and
    strictly better on at least one. *)
Definition dominates (pop : list Individual) (m a b : nat) : bool :=
  le_all pop m a b && lt_some pop m a b.

(** Number of objectives on which [b] is not better than [a]
    (that is, [pop[a][k] <= pop[b][k]]). *)
Definition count_le (pop : list Individual) (m a b : nat) : Z :=
  Z.of_nat (length (List.filter (λ k, at_ pop a k <=? at_ pop b k) (seq 0 m))).

(** Number of objectives on which [a] is not better than [b]
    (that is, not [pop[a][k] < pop[b][k]]). *)
Definition count_not_better (pop : list Individual) (m a b : nat) : Z :=
  Z.of_nat (length (List.filter (λ k, negb (at_ pop a k <? at_ pop b k)) (seq 0 m))).

(** What [std::sort] guarantees for column [k]: a permutation of [0..n-1]
    in which no later element compares less than an earlier one. *)
Definition sorted_column (pop : list Individual) (k : nat) (b : list nat) : Prop :=
  Permutation b (seq 0 (length pop)) ∧
  ∀ p q, (p < q < length pop)%nat → at_ pop (ix b p) k <= at_ pop (ix b q) k.

Definition sorted_idx (pop : list Individual) (m : nat)
    (idx : list (list nat)) : Prop :=
  length idx = m ∧
  ∀ k, (k < m)%nat → sorted_column pop k (default [] (idx !! k)).

(** Every individual carries exactly [m] objectives. *)
Definition uniform (pop : list Individual) (m : nat) : Prop :=
  Forall (λ p, length (Fitness p) = m) pop.

(** Sum of the [m] objective values of individual [a]; dominance strictly
    decreases it, which makes dominance well founded. *)
Definition total (pop : list Individual) (m a : nat) : Z :=
  fold_right Z.add 0 (List.map (at_ pop a) (seq 0 m)).

(** Loop invariant of [ComputeDegreeMatrix]: the pairs [{x, y}] that the
    double loop has visited before reaching [(i0, j0)] are zeroed when both
    cells of the sum [s] equal [m]; every other cell still holds the sum. *)
Definition zeroed_upto (s : Mat) (m : Z) (n i0 j0 : nat) (d : Mat) : Prop :=
  ∀ x y, (x < n)%nat → (y < n)%nat →
    mget d x y =
      if decide (((x `min` y < i0)%nat ∨ (x `min` y = i0 ∧ x `max` y < j0)%nat)
                 ∧ mget s x y = m ∧ mget s y x = m)
      then 0 else mget s x y.

Definition square (n : nat) (c : Mat) : Prop :=
  length c = n ∧ Forall (λ r, length r = n) c.

(** Two individuals with the same value on every one of the [m]
    objectives. *)
Definition same_fitness (pop : list Individual) (m a b : nat) : Prop :=
  ∀ k, (k < m)%nat → at_ pop a k = at_ pop b k.

(** The members of [tmp] that no member of [tmp] dominates. *)
Definition pareto_front (pop : list Individual) (m : nat) (tmp : list nat)
    : list nat :=
  List.filter (λ x, forallb (λ y, negb (dominates pop m y x)) tmp) tmp.

(** A population with a duplicated individual. *)
Definition population_ties : list Individual :=
  [ind [1; 2]; ind [2; 3]; ind [1; 2]; ind [3; 1]].

End Sorter.

(** * Reverse-mode derivative rules *)

Module Autodiff.

(** The outcome of a derivative rule: it returns, it throws
    [std::runtime_error], or it indexes a container outside its bounds
    (no defined behaviour in the source). *)
Inductive result (A : Type) :=
| Ok (a : A)
| Throw (msg : string)
| OutOfRange.
Arguments Ok {A} a.
Arguments Throw {A} msg.
Arguments OutOfRange {A}.

#[export] Instance result_bind : MBind result := λ A B f r,
  match r with
  | Ok a => f a
  | Throw msg => Throw msg
  | OutOfRange => OutOfRange
  end.

(** [values.col(k)] and [rnodes[j].P] are arrays over the rows of the data
    batch; the element-wise floating-point operations of the array library
    are an interface. *)
Class ArrayOps (Arr : Type) := {
  amul : Arr → Arr → Arr;      (* [a * b] *)
  adiv : Arr → Arr → Arr;      (* [a / b] *)
  aneg : Arr → Arr;            (* [-a] *)
  asquare : Arr → Arr          (* [a.square()] *)
}.

(** The fields of [Operon::Node] the rules read: the number of children and
    the number of nodes below the node (the node itself not counted, as
    [k = j - (nodes[j].Length + 1)] shows). *)
Record Node := { Arity : nat; Length : nat }.

(** [Subtree<Node const>{nodes, i}.EnumerateIndices()] and [.Indices()]
    (operon/core/subtree.hpp): the pairs (child position, child index), and
    the indices the n-ary rule multiplies over. *)
Class SubtreeNav := {
  Enumerate : list Node → Z → list (nat * Z);
  Indices : list Node → Z → list Z
}.

Section Rules.
Context {Arr : Type} {ops : ArrayOps Arr} {nav : SubtreeNav}.

(** A node of the reverse trace: the adjoint [P] and the local derivatives
    [D[k]], one per child. *)
Record RNode := { P : Arr; D : list Arr }.

(** [c[i]] for a signed index: defined inside the bounds only. *)
Definition lookupZ {A} (l : list A) (i : Z) : option A :=
  if i <? 0 then None else l !! Z.to_nat i.

(** [c[i]] read *)
Definition getZ {A} (l : list A) (i : Z) : result A :=
  match lookupZ l i with
  | Some a => Ok a
  | None => OutOfRange
  end.

(** [rnodes[i].D[x] = v] *)
Definition setD (rnodes : list RNode) (i : Z) (x : nat) (v : Arr)
    : result (list RNode) :=
  r ← getZ rnodes i;
  if (x <? length (D r))%nat
  then Ok (<[Z.to_nat i := {| P := P r; D := <[x := v]> (D r) |}]> rnodes)
  else OutOfRange.

(** [rnodes[j].P] *)
Definition getP (rnodes : list RNode) (j : Z) : result Arr :=
  r ← getZ rnodes j; Ok (P r).

Definition div_unsupported : string :=
  "derivative of division with more than 2 children is not supported".

(** [Derivative<NodeType::Div>::operator()(nodes, values, rnodes, i)] *)
Definition Derivative_Div (nodes : list Node) (values : list Arr)
    (rnodes : list RNode) (i : Z) : result (list RNode) :=
  n ← getZ nodes i;
  if (2 <? Arity n)%nat then Throw div_unsupported
  else
    _ ← getZ rnodes i;
    if (Arity n =? 1)%nat then
      let j := i - 1 in
      pj ← getP rnodes j;
      vj ← getZ values j;
      setD rnodes i 0 (adiv (aneg pj) (asquare vj))
    else if (Arity n =? 2)%nat then
      let j := i - 1 in
      nj ← getZ nodes j;
      let k := j - (Z.of_nat (Length nj) + 1) in
      pj ← getP rnodes j;
      vk ← getZ values k;
      rnodes ← setD rnodes i 0 (adiv pj vk);
      pk ← getP rnodes k;
      vj ← getZ values j;
      vk ← getZ values k;
      setD rnodes i 1 (adiv (amul (aneg pk) vj) (asquare vk))
    else Ok rnodes.

(** The inner loop of the n-ary product rule:
    [for (auto k : Indices(nodes, i)) { if (j == k) continue; d *= values.col(k); }] *)
Fixpoint mul_others (values : list Arr) (j : Z) (ks : list Z) (d : Arr)
    : result Arr :=
  match ks with
  | [] => Ok d
  | k :: ks' =>
      if j =? k then mul_others values j ks' d
      else vk ← getZ values k; mul_others values j ks' (amul d vk)
  end.

(** The outer loop of the n-ary product rule, over [Enumerate(nodes, i)]. *)
Fixpoint mul_each (nodes : list Node) (values : list Arr) (i : Z)
    (ch : list (nat * Z)) (rnodes : list RNode) : result (list RNode) :=
  match ch with
  | [] => Ok rnodes
  | (x, j) :: ch' =>
      pj ← getP rnodes j;
      d ← mul_others values j (Indices nodes i) pj;
      rnodes ← setD rnodes i x d;
      mul_each nodes values i ch' rnodes
  end.

(** [Derivative<NodeType::Mul>::operator()(nodes, values, rnodes, i)] *)
Definition Derivative_Mul (nodes : list Node) (values : list Arr)
    (rnodes : list RNode) (i : Z) : result (list RNode) :=
  n ← getZ nodes i;
  if (Arity n =? 2)%nat then
    let j := i - 1 in
    nj ← getZ nodes j;
    let k := j - (Z.of_nat (Length nj) + 1) in
    pj ← getP rnodes j;
    vk ← getZ values k;
    rnodes ← setD rnodes i 0 (amul pj vk);
    pk ← getP rnodes k;
    vj ← getZ values j;
    setD rnodes i 1 (amul pk vj)
  else mul_each nodes values i (Enumerate nodes i) rnodes.

(** [rnodes[i].D[x]] read, for stating results. *)
Definition getD (rnodes : list RNode) (i : Z) (x : nat) : option Arr :=
  match getZ rnodes i with
  | Ok r => D r !! x
  | _ => None
  end.

(** The product the n-ary rule is meant to form for the child at index [j]:
    [p] times the forward values of the other children, left to right. *)
Definition product_of_others (values : list Arr) (children : list Z) (j : Z)
    (p : Arr) : option Arr :=
  foldl (λ acc k, d ← acc; v ← lookupZ values k; Some (amul d v))
        (Some p) (List.filter (λ k, negb (j =? k)) children).

End Rules.

(** Direct children of node [i] in a postfix node array, located with the
    [Length] field only, as the binary rules do in place
    ([j = i - 1; k = j - (nodes[j].Length + 1)]).

    Modelled from the spec: [Subtree] (operon/core/subtree.hpp) is not among
    the sources; the specification describes its enumeration as "pairs
    (child-position, child-root-index) for direct children", found "by
    subtracting the previous sibling's length". *)
Fixpoint children_from (nodes : list Node) (j : Z) (arity : nat) : list Z :=
  match arity with
  | O => []
  | S a =>
      j :: match getZ nodes j with
           | Ok nj => children_from nodes (j - (Z.of_nat (Length nj) + 1)) a
           | _ => []
           end
  end.

Definition children (nodes : list Node) (i : Z) : list Z :=
  match getZ nodes i with
  | Ok n => children_from nodes (i - 1) (Arity n)
  | _ => []
  end.

Definition child_nav : SubtreeNav := {|
  Enumerate nodes i := imap (λ x j, (x, j)) (children nodes i);
  Indices nodes i := children nodes i
|}.

(** ** The remaining rules

    The further element-wise operations they apply.  A scalar operand
    ([+ 1], [2 *], [.pow(3)], [* s]) acts on every entry; [aconst c] is the
    array whose entries all equal [c]. *)
Class ArrayFuns (Arr : Type) := {
  aadd : Arr → Arr → Arr;      (* [a + b] *)
  asub : Arr → Arr → Arr;      (* [a - b] *)
  apow : Arr → Arr → Arr;      (* [a.pow(b)] *)
  alog : Arr → Arr;            (* [a.log()] *)
  asin : Arr → Arr;            (* [a.sin()] *)
  acos : Arr → Arr;            (* [a.cos()] *)
  asign : Arr → Arr;           (* [a.sign()] *)
  aabs : Arr → Arr;            (* [a.abs()] *)
  asqrt : Arr → Arr;           (* [a.sqrt()] *)
  aconst : Z → Arr
}.

(** The unary symbols with a rule of their own. *)
Inductive Unary :=
| Exp | Log | Logabs | Log1p | Sin | Cos | Tan | Tanh
| Asin | Acos | Atan | Sqrt | Sqrtabs | Cbrt.

(** The specialisations of [Derivative<N>]; [Default] is the primary
    template, used for [Add] and every symbol without a specialisation. *)
Inductive Rule :=
| Default | Sub | Mul | Div | Aq | Pow | Un (u : Unary).

Section MoreRules.
Context {Arr : Type} {ops : ArrayOps Arr} {funs : ArrayFuns Arr}
        {nav : SubtreeNav}.

(** [for (auto [k, j] : Enumerate(nodes, i)) { rnodes[i].D[k] = f(k, rnodes[j].P); }] *)
Fixpoint each_child (f : nat → Arr → Arr) (i : Z) (ch : list (nat * Z))
    (rnodes : list (@RNode Arr)) : result (list (@RNode Arr)) :=
  match ch with
  | [] => Ok rnodes
  | (k, j) :: ch' =>
      pj ← getP rnodes j;
      rnodes ← setD rnodes i k (f k pj);
      each_child f i ch' rnodes
  end.

(** [Derivative<NodeType::Add>::operator()(nodes, values, rnodes, i)],
    the primary template. *)
Definition Derivative_Default (nodes : list Node) (rnodes : list (@RNode Arr))
    (i : Z) : result (list (@RNode Arr)) :=
  each_child (λ _ pj, pj) i (Enumerate nodes i) rnodes.

(** [auto s = k == 0 ? +1 : -1] *)
Definition sign_of (k : nat) : Z := if (k =? 0)%nat then 1 else -1.

(** [Derivative<NodeType::Sub>::operator()(nodes, values, rnodes, i)] *)
Definition Derivative_Sub (nodes : list Node) (rnodes : list (@RNode Arr))
    (i : Z) : result (list (@RNode Arr)) :=
  each_child (λ k pj, amul pj (aconst (sign_of k))) i (Enumerate nodes i) rnodes.

(** [Derivative<NodeType::Aq>::operator()(nodes, values, rnodes, i)] *)
Definition Derivative_Aq (nodes : list Node) (values : list Arr)
    (rnodes : list (@RNode Arr)) (i : Z) : result (list (@RNode Arr)) :=
  let j := i - 1 in
  nj ← getZ nodes j;
  let k := j - (Z.of_nat (Length nj) + 1) in
  pj ← getP rnodes j;
  vi ← getZ values i;
  vj ← getZ values j;
  rnodes ← setD rnodes i 0 (adiv (amul pj vi) vj);
  pk ← getP rnodes k;
  vk ← getZ values k;
  setD rnodes i 1
    (adiv (amul (amul (aneg pk) vk) (apow vi (aconst 3))) (asquare vj)).

(** [Derivative<NodeType::Pow>::operator()(nodes, values, rnodes, i)] *)
Definition Derivative_Pow (nodes : list Node) (values : list Arr)
    (rnodes : list (@RNode Arr)) (i : Z) : result (list (@RNode Arr)) :=
  let j := i - 1 in
  nj ← getZ nodes j;
  let k := j - (Z.of_nat (Length nj) + 1) in
  pj ← getP rnodes j;
  vj ← getZ values j;
  vk ← getZ values k;
  rnodes ← setD rnodes i 0
             (amul (amul pj (apow vj (asub vk (aconst 1)))) vk);
  pk ← getP rnodes k;
  vi ← getZ values i;
  setD rnodes i 1 (amul (amul pk vi) (alog vj)).

(** The rules of the unary symbols: each assigns [rnodes[i].D[0]] from
    [rnodes[i - 1].P] and the forward value of the node ([values.col(i)])
    or of its child ([values.col(i - 1)]). *)
Definition Derivative_Unary (u : Unary) (values : list Arr)
    (rnodes : list (@RNode Arr)) (i : Z) : result (list (@RNode Arr)) :=
  p ← getP rnodes (i - 1);
  match u with
  | Exp =>
      vi ← getZ values i; setD rnodes i 0 (amul p vi)
  | Log =>
      vc ← getZ values (i - 1); setD rnodes i 0 (adiv p vc)
  | Logabs =>
      vc ← getZ values (i - 1);
      setD rnodes i 0 (adiv (amul p (asign vc)) (aabs vc))
  | Log1p =>
      vc ← getZ values (i - 1);
      setD rnodes i 0 (adiv p (aadd vc (aconst 1)))
  | Sin =>
      vc ← getZ values (i - 1); setD rnodes i 0 (amul p (acos vc))
  | Cos =>
      vc ← getZ values (i - 1); setD rnodes i 0 (amul (aneg p) (asin vc))
  | Tan =>
      vi ← getZ values i;
      setD rnodes i 0 (amul p (aadd (asquare vi) (aconst 1)))
  | Tanh =>
      vi ← getZ values i;
      setD rnodes i 0 (amul p (asub (aconst 1) (asquare vi)))
  | Asin =>
      vc ← getZ values (i - 1);
      setD rnodes i 0 (adiv p (asqrt (asub (aconst 1) (asquare vc))))
  | Acos =>
      vc ← getZ values (i - 1);
      setD rnodes i 0 (adiv (aneg p) (asqrt (asub (aconst 1) (asquare vc))))
  | Atan =>
      vc ← getZ values (i - 1);
      setD rnodes i 0 (adiv p (aadd (aconst 1) (asquare vc)))
  | Sqrt =>
      vi ← getZ values i; setD rnodes i 0 (adiv p (amul (aconst 2) vi))
  | Sqrtabs =>
      vc ← getZ values (i - 1);
      vi ← getZ values i;
      setD rnodes i 0 (adiv (amul p (asign vc)) (amul (aconst 2) vi))
  | Cbrt =>
      vi ← getZ values i;
      setD rnodes i 0 (adiv p (amul (aconst 3) (asquare vi)))
  end.

(** [Derivative<N>{}(nodes, values, rnodes, i)] *)
Definition Derivative (r : Rule) (nodes : list Node) (values : list Arr)
    (rnodes : list (@RNode Arr)) (i : Z) : result (list (@RNode Arr)) :=
  match r with
  | Default => Derivative_Default nodes rnodes i
  | Sub => Derivative_Sub nodes rnodes i
  | Mul => Derivative_Mul nodes values rnodes i
  | Div => Derivative_Div nodes values rnodes i
  | Aq => Derivative_Aq nodes values rnodes i
  | Pow => Derivative_Pow nodes values rnodes i
  | Un u => Derivative_Unary u values rnodes i
  end.

(** What a rule may change: it writes into [rnodes[i].D] only.  The trace
    keeps its length, every adjoint [P] and every derivative slot of
    another node keep their value, and [rnodes[i].D] keeps its size. *)
Definition writes_only (i : Z) (rnodes rnodes' : list (@RNode Arr)) : Prop :=
  length rnodes' = length rnodes
  ∧ (∀ j, getP rnodes' j = getP rnodes j)
  ∧ (∀ j x, j ≠ i → getD rnodes' j x = getD rnodes j x)
  ∧ ∀ r, getZ rnodes i = Ok r →
      ∃ r', getZ rnodes' i = Ok r' ∧ length (D r') = length (D r).

End MoreRules.

(** Integer stand-ins for the further operations (the transcendental ones
    are the identity), for running the rules on concrete inputs. *)
Definition Z_funs : ArrayFuns Z := {|
  aadd := Z.add; asub := Z.sub; apow := Z.pow;
  alog := λ a, a; asin := λ a, a; acos := λ a, a;
  asign := Z.sgn; aabs := Z.abs; asqrt := Z.sqrt;
  aconst := λ c, c
|}.

(** Integer arrays of one row, for running the rules on concrete inputs. *)
Definition Z_ops : ArrayOps Z := {|
  amul := Z.mul; adiv := Z.div; aneg := Z.opp; asquare := λ a, a * a
|}.

Definition leaf : Node := {| Arity := 0; Length := 0 |}.

(** Postfix node arrays of an operation applied to two and to three leaves. *)
Definition nodes_binary : list Node := [leaf; leaf; {| Arity := 2; Length := 2 |}].
Definition nodes_ternary : list Node :=
  [leaf; leaf; leaf; {| Arity := 3; Length := 3 |}].

(** A trace entry with adjoint [p] and [slots] derivative slots. *)
Definition trace (p : Z) (slots : nat) : @RNode Z :=
  {| P := p; D := replicate slots 0 |}.

Definition trace_binary : list (@RNode Z) := [trace 7 0; trace 8 0; trace 1 2].
Definition trace_ternary : list (@RNode Z) :=
  [trace 1 0; trace 1 0; trace 1 0; trace 1 3].

End Autodiff.

(** * Random tree creation *)

Module Creator.

Inductive NodeType :=
| Add | Mul | Sub | Div | Log | Exp | Sin | Cos | Tan | Sqrt | Cbrt
| Constant | NodeVariable.   (* [NodeType::Variable] *)

#[export] Instance NodeType_eq_dec : EqDecision NodeType.
Proof. solve_decision. Defined.

(** Modelled from the spec: the constructor [Node(NodeType)] (the node
    header is not among the sources).  Every kind has a fixed arity 0, 1 or
    2: the arithmetic kinds take two children, the functions one, constants
    and variables none. *)
Definition arity_of (t : NodeType) : nat :=
  match t with
  | Add | Mul | Sub | Div => 2
  | Log | Exp | Sin | Cos | Tan | Sqrt | Cbrt => 1
  | Constant | NodeVariable => 0
  end.

Record Node := {
  Type_ : NodeType;
  Arity : nat;
  HashValue : N;
  CalculatedHashValue : N
}.

Definition mkNode (t : NodeType) : Node :=
  {| Type_ := t; Arity := arity_of t; HashValue := 0; CalculatedHashValue := 0 |}.

Definition IsVariable (n : Node) : bool := bool_decide (Type_ n = NodeVariable).

Record Variable_ := { Hash : N }.

(** The two queries of [Grammar] that the creator uses. *)
Record Grammar := {
  AllowedSymbols : list (NodeType * Q);
  GetFrequency : NodeType → Q
}.

(** [RandomDevice]: an endless stream of draws from [0, 1) and the number
    of draws consumed so far.  Doubles are modelled by rationals. *)
Record RandomDevice := { draws : nat → Q; position : nat }.

Definition next_unit (random : RandomDevice) : Q * RandomDevice :=
  (draws random (position random),
   {| draws := draws random; position := S (position random) |}).

(** [std::uniform_real_distribution<double>(a, b)(random)] *)
Definition uniform_real (a b : Q) (random : RandomDevice) : Q * RandomDevice :=
  let '(u, random) := next_unit random in ((a + u * (b - a))%Q, random).

(** [std::uniform_int_distribution<size_t>(0, hi)(random)].  The standard
    fixes neither the algorithm nor the number of values of the generator
    that one call consumes (libstdc++ redraws until a value is accepted),
    so the distribution is an interface: the number it returns and the
    generator it leaves, or [None] when the call does not return. *)
Class UniformInt := {
  uniform_int : N → RandomDevice → option (N * RandomDevice)
}.

(** [std::numeric_limits<double>::epsilon()] *)
Definition epsilon : Q := 1 # 4503599627370496.

(** [SampleProportional(random, partials)]; [None] when [partials] is empty
    or [find_if] reaches the end (the source dereferences the iterator
    without a check). *)
Definition SampleProportional (random : RandomDevice)
    (partials : list (NodeType * Q)) : option (Node * RandomDevice) :=
  back ← last partials;
  let '(r, random) := uniform_real 0 (back.2 - epsilon)%Q random in
  it ← List.find (λ p : NodeType * Q, negb (Qle_bool p.2 r)) partials;
  Some (mkNode it.1, random).

(** [for (i = 0; i < arity; ++i) body] on the state (random, nodes). *)
Definition repeat_grow (arity : nat)
    (body : RandomDevice * list Node → option (RandomDevice * list Node))
    (st : RandomDevice * list Node) : option (RandomDevice * list Node) :=
  Nat.iter arity (λ r, r ≫= body) (Some st).

(** [Grow(random, grammar, variables, nodes, partials, maxLength, maxDepth)]:
    the state is the pair of [random] and [nodes]; [maxLength] is passed
    along and never read.  The recursion is given the stack and the memory
    it asks for: a result [Some] describes a call that returned, and
    nothing here says that a call with a large depth limit does. *)
Fixpoint Grow (grammar : Grammar) (partials : list (NodeType * Q))
    (maxLength : N) (maxDepth : nat) (st : RandomDevice * list Node)
    : option (RandomDevice * list Node) :=
  let '(random, nodes) := st in
  match maxDepth with
  | O =>
      let pc := GetFrequency grammar Constant in
      let pv := GetFrequency grammar NodeVariable in
      let '(r, random) := uniform_real 0 (pc + pv)%Q random in
      let node := if negb (Qle_bool pc r) then mkNode Constant
                  else mkNode NodeVariable in
      Some (random, nodes ++ [node])
  | S maxDepth' =>
      '(node, random) ← SampleProportional random partials;
      repeat_grow (Arity node) (Grow grammar partials maxLength maxDepth')
                  (random, nodes ++ [node])
  end.

(** [std::inclusive_scan] with the operation
    [(lhs, rhs) -> (rhs.first, lhs.second + rhs.second)]. *)
Fixpoint scan_from (acc : Q) (allowed : list (NodeType * Q))
    : list (NodeType * Q) :=
  match allowed with
  | [] => []
  | (t, w) :: rest => (t, (acc + w)%Q) :: scan_from (acc + w)%Q rest
  end.

Definition inclusive_scan (allowed : list (NodeType * Q)) : list (NodeType * Q) :=
  match allowed with
  | [] => []
  | (t, w) :: rest => (t, w) :: scan_from w rest
  end.

(** [size_t] subtraction. *)
Definition size_sub (a b : N) : N := ((a + 2 ^ 64 - b) mod 2 ^ 64)%N.

Section Distribution.
Context {dist : UniformInt}.

(** The upper bound given to the distribution, [variables.size() - 1]. *)
Definition last_index (variables : list Variable_) : N :=
  size_sub (N.of_nat (length variables)) 1.

(** The loop that gives every variable node the hash of a random variable;
    [variables[...]] outside the vector has no defined result. *)
Fixpoint assign_variables (variables : list Variable_) (nodes : list Node)
    (random : RandomDevice) : option (list Node * RandomDevice) :=
  match nodes with
  | [] => Some ([], random)
  | node :: rest =>
      if IsVariable node then
        '(v, random) ← uniform_int (last_index variables) random;
        var ← variables !! N.to_nat v;
        '(rest, random) ← assign_variables variables rest random;
        Some ({| Type_ := Type_ node; Arity := Arity node;
                 HashValue := Hash var; CalculatedHashValue := Hash var |} :: rest,
              random)
      else
        '(rest, random) ← assign_variables variables rest random;
        Some (node :: rest, random)
  end.

(** [GrowTreeCreator(depth, length)(random, grammar, variables)]; the tree
    is the reversed node vector ([Tree(nodes).UpdateNodes()] fills in
    bookkeeping fields and keeps the nodes). *)
Definition GrowTreeCreator (maxDepth maxLength : N) (random : RandomDevice)
    (grammar : Grammar) (variables : list Variable_)
    : option (list Node * RandomDevice) :=
  let partials := inclusive_scan (AllowedSymbols grammar) in
  '(root, random) ← SampleProportional random partials;
  '(random, nodes) ←
      repeat_grow (Arity root)
        (Grow grammar partials maxLength (N.to_nat (size_sub maxDepth 1)))
        (random, [root]);
  '(nodes, random) ← assign_variables variables nodes random;
  Some (reverse nodes, random).

(** [k] calls of the distribution of the hash loop, one after the other:
    the generator they leave. *)
Fixpoint hash_draws (variables : list Variable_) (k : nat)
    (random : RandomDevice) : option RandomDevice :=
  match k with
  | O => Some random
  | S k' =>
      '(_, random) ← uniform_int (last_index variables) random;
      hash_draws variables k' random
  end.

End Distribution.

(** A distribution that makes its number from a single draw [u] of the
    generator, as [floor(u * (hi + 1))]. *)
Definition floor_int : UniformInt := {|
  uniform_int hi random :=
    let '(u, random) := next_unit random in
    Some (Z.to_N (Qfloor (u * inject_Z (Z.of_N (hi + 1)))%Q), random)
|}.

(** A grammar with addition and constants only, a generator whose draws
    from [0, 1) are all 1/4, and one input variable. *)
Definition grammar_add_const : Grammar := {|
  AllowedSymbols := [(Add, 1%Q); (Constant, 1%Q)];
  GetFrequency t := match t with Add | Constant => 1%Q | _ => 0%Q end
|}.

Definition random_quarter : RandomDevice :=
  {| draws := λ _, (1 # 4)%Q; position := 0 |}.

Definition one_variable : list Variable_ := [{| Hash := 1 |}].

(** ** Specification-level notions for the creator *)

(** An expression tree over node kinds. *)
Unset Elimination Schemes.
Inductive tree := T (t : NodeType) (children : list tree).
Set Elimination Schemes.

(** The nodes of a tree as [Grow] pushes them: a node, then its subtrees
    from the first to the last. *)
Fixpoint prefix_nodes (tr : tree) : list Node :=
  match tr with
  | T t cs => mkNode t :: concat (List.map prefix_nodes cs)
  end.

(** Number of edges on the longest path from the root to a leaf. *)
Fixpoint height (tr : tree) : nat :=
  match tr with
  | T _ cs => fold_right (λ c h, Nat.max (S (height c)) h) 0%nat cs
  end.

(** Every node has as many subtrees as its kind has arguments. *)
Fixpoint well_formed (tr : tree) : Prop :=
  match tr with
  | T t cs => arity_of t = length cs
              ∧ fold_right (λ c P, well_formed c ∧ P) True cs
  end.

Definition root_type (tr : tree) : NodeType :=
  match tr with T t _ => t end.

(** What a call of [Grow] with depth limit [d] appends: a well-formed
    tree of height at most [d], which bounds its size. *)
Definition grown (d : nat) (t : tree) : Prop :=
  well_formed t ∧ (height t <= d)%nat
  ∧ (length (prefix_nodes t) <= 2 ^ S d - 1)%nat.

(** The generator after [k] more draws. *)
Definition advance (k : nat) (random : RandomDevice) : RandomDevice :=
  {| draws := draws random; position := (position random + k)%nat |}.

(** Every draw of the generator lies in [0, 1). *)
Definition unit_draws (random : RandomDevice) : Prop :=
  ∀ k, (0 <= draws random k)%Q ∧ (draws random k < 1)%Q.

(** A grammar whose frequencies are not negative and add up to at least
    the machine epsilon, so that the upper bound handed to the uniform
    distribution in [SampleProportional] is not below its lower bound. *)
Definition samplable (allowed : list (NodeType * Q)) : Prop :=
  Forall (λ p : NodeType * Q, (0 <= p.2)%Q) allowed
  ∧ ∃ back, last (inclusive_scan allowed) = Some back
            ∧ (epsilon <= back.2)%Q.

(** A grammar with a unary function, constants and variables, a generator
    that alternates between two draws, and two input variables. *)
Definition grammar_mixed : Grammar := {|
  AllowedSymbols := [(Mul, 1%Q); (Tan, 0%Q); (Exp, 1%Q); (Constant, 1%Q);
                     (NodeVariable, 2%Q)];
  GetFrequency t :=
    match t with
    | Mul | Exp | Constant => 1%Q
    | NodeVariable => 2%Q
    | _ => 0%Q
    end
|}.

Definition random_alternating : RandomDevice :=
  {| draws := λ k, if Nat.even k then (1 # 10)%Q else (9 # 10)%Q;
     position := 0 |}.

Definition two_variables : list Variable_ := [{| Hash := 11 |}; {| Hash := 22 |}].

(** What the creator makes of them with depth limit 2, the distribution
    being [floor_int]. *)
Definition created_mixed : list Node * RandomDevice :=
  default ([], random_alternating)
    (GrowTreeCreator (dist := floor_int) 2 5 random_alternating grammar_mixed
       two_variables).

End Creator.

(** * The evolutionary loop *)

Module GP.

Local Open Scope nat_scope.

(** [operon::scalar] and the floating-point operations the loop applies to
    fitness values. *)
Class ScalarOps (scalar : Type) := {
  lt : scalar → scalar → bool;       (* [a < b] *)
  isfinite : scalar → bool;          (* [std::isfinite(a)] *)
  sub : scalar → scalar → scalar;    (* [a - b] *)
  abs : scalar → scalar;             (* [std::abs(a)] *)
  zero : scalar;
  one : scalar;
  threshold : scalar;                (* [1e-6] *)
  scalar_min : scalar;               (* [operon::scalar::min()] *)
  scalar_max : scalar                (* [operon::scalar::max()] *)
}.

(** [operon::rand_t]: [random()] yields a value and advances the generator,
    [rand_t{seed}] builds a generator, and a thread-local generator is
    default-constructed when its thread first comes to use it. *)
Class RandOps (rand_t seed : Type) := {
  next : rand_t → seed * rand_t;
  seeded : seed → rand_t;
  unseeded : rand_t
}.

Section Algorithm.
Context {scalar rand_t seed Node cstate : Type}.
Context {sops : ScalarOps scalar} {rops : RandOps rand_t seed}.

(** [T]: a genotype and a fixed-size fitness array, indexed by the
    compile-time constant [Idx]. *)
Record Individual := { Genotype : list Node; Fitness : nat → scalar }.

(** The collaborators of the loop.  [cstate] is whatever state they share
    between calls (evaluation counters, the prepared selector, ...). *)
Record Collaborators := {
  (* [creator(rndlocal, grammar, inputs)] *)
  creator : rand_t → list Node * rand_t;
  (* [evaluator(rndlocal, ind)], [ind] passed by mutable reference *)
  evaluator : cstate → rand_t → Individual → scalar * Individual * cstate * rand_t;
  (* [recombinator.Terminate()] *)
  Terminate : cstate → bool;
  (* [recombinator.Prepare(parents)] *)
  Prepare : cstate → list Individual → cstate;
  (* [recombinator(rndlocal, CrossoverProbability, MutationProbability)] *)
  recombine : cstate → rand_t → option Individual * cstate * rand_t
}.

Record Config := { PopulationSize : nat; Generations : nat }.

(** Template constants [Idx] and [Max], the configuration, the
    collaborators, whether a [report] callback was supplied, and the
    scheduler of the execution policy: its [k]-th decision names which of
    the pending work items runs next (modulo their number) and on which
    thread. *)
Context (Idx : nat) (Max : bool) (config : Config) (collab : Collaborators)
        (report : bool) (sched : nat → nat * nat).

Record State := mkState {
  parents : list Individual;
  offspring : list Individual;
  seeds : list seed;
  terminate : bool;                    (* [std::atomic_bool terminate] *)
  generation : nat;
  random : rand_t;                     (* the generator passed to [Run] *)
  rndlocal : nat → rand_t;             (* [thread_local rndlocal], per thread *)
  shared : cstate;
  clock : nat;                         (* scheduler decisions taken so far *)
  reports : list (nat * list Individual)
    (* what each call of [report] could observe: [Generation()], [Parents()] *)
}.

Definition set_parents v st :=
  mkState v (offspring st) (seeds st) (terminate st) (generation st) (random st)
          (rndlocal st) (shared st) (clock st) (reports st).
Definition set_offspring v st :=
  mkState (parents st) v (seeds st) (terminate st) (generation st) (random st)
          (rndlocal st) (shared st) (clock st) (reports st).
Definition set_seeds v st :=
  mkState (parents st) (offspring st) v (terminate st) (generation st) (random st)
          (rndlocal st) (shared st) (clock st) (reports st).
Definition set_terminate v st :=
  mkState (parents st) (offspring st) (seeds st) v (generation st) (random st)
          (rndlocal st) (shared st) (clock st) (reports st).
Definition set_generation v st :=
  mkState (parents st) (offspring st) (seeds st) (terminate st) v (random st)
          (rndlocal st) (shared st) (clock st) (reports st).
Definition set_random v st :=
  mkState (parents st) (offspring st) (seeds st) (terminate st) (generation st) v
          (rndlocal st) (shared st) (clock st) (reports st).
Definition set_rndlocal v st :=
  mkState (parents st) (offspring st) (seeds st) (terminate st) (generation st)
          (random st) v (shared st) (clock st) (reports st).
Definition set_shared v st :=
  mkState (parents st) (offspring st) (seeds st) (terminate st) (generation st)
          (random st) (rndlocal st) v (clock st) (reports st).
Definition set_clock v st :=
  mkState (parents st) (offspring st) (seeds st) (terminate st) (generation st)
          (random st) (rndlocal st) (shared st) v (reports st).
Definition set_reports v st :=
  mkState (parents st) (offspring st) (seeds st) (terminate st) (generation st)
          (random st) (rndlocal st) (shared st) (clock st) v.

(** [rndlocal = r] executed by thread [t]. *)
Definition on_thread (t : nat) (r : rand_t) (f : nat → rand_t) : nat → rand_t :=
  λ t', if decide (t' = t) then r else f t'.

(** [ind.Fitness[Idx] = v] *)
Definition set_fitness (ind : Individual) (v : scalar) : Individual :=
  {| Genotype := Genotype ind;
     Fitness := λ k, if decide (k = Idx) then v else Fitness ind k |}.

(** A value-initialised individual, as in [std::vector<T>(PopulationSize)]. *)
Definition blank : Individual := {| Genotype := []; Fitness := λ _, zero |}.

(** The data members that [Run] works on.  The two buffers have
    [PopulationSize] slots since the constructor, and nothing resizes
    them; [parents_ i] and [offspring_ i] are the contents of slot [i]. *)
Record Members := {
  parents_ : nat → Individual;
  offspring_ : nat → Individual;
  generation_ : nat
}.

(** The constructor: [parents(config.PopulationSize)],
    [offspring(config.PopulationSize)], [generation(0UL)]. *)
Definition constructed : Members :=
  {| parents_ := λ _, blank; offspring_ := λ _, blank; generation_ := 0 |}.

(** [Reset()] *)
Definition Reset (this : Members) : Members :=
  {| parents_ := parents_ this; offspring_ := offspring_ this;
     generation_ := 0 |}.

(** [const auto worst = Max ? operon::scalar::min() : operon::scalar::max()] *)
Definition worst : scalar := if Max then scalar_min else scalar_max.

(** [std::generate(seeds.begin(), seeds.end(), [&]() { return random(); })] *)
Fixpoint generate (n : nat) (r : rand_t) : list seed * rand_t :=
  match n with
  | O => ([], r)
  | S n' =>
      let '(s, r) := next r in
      let '(l, r) := generate n' r in
      (s :: l, r)
  end.

(** [std::for_each(executionPolicy, first, last, body)]: the work items run
    in the order and on the threads the scheduler decides, each exactly
    once, one after the other.  [None] propagates an item that has no
    defined result or did not return. *)
Fixpoint run_pending (body : nat → nat → State → option State)
    (n : nat) (pending : list nat) (st : State) : option State :=
  match n, pending with
  | S n', _ :: _ =>
      let '(c, t) := sched (clock st) in
      let p := c `mod` length pending in
      i ← pending !! p;
      st ← body t i (set_clock (S (clock st)) st);
      run_pending body n' (delete p pending) st
  | _, _ => Some st
  end.

Definition for_each (body : nat → nat → State → option State)
    (items : list nat) (st : State) : option State :=
  run_pending body (length items) items st.

(** The lambda [create], run by thread [t] for index [i]. *)
Definition create (t i : nat) (st : State) : option State :=
  s ← seeds st !! i;
  ind ← parents st !! i;
  let '(g, r) := creator collab (seeded s) in
  let ind := set_fitness {| Genotype := g; Fitness := Fitness ind |} worst in
  Some (set_parents (<[i := ind]> (parents st))
          (set_rndlocal (on_thread t r (rndlocal st)) st)).

(** The lambda [evaluate], run by thread [t] for the [i]-th parent; it uses
    the thread's generator as it finds it. *)
Definition evaluate (t i : nat) (st : State) : option State :=
  ind ← parents st !! i;
  let '(fitness, ind, cs, r) :=
    evaluator collab (shared st) (rndlocal st t) ind in
  let ind := set_fitness ind (if isfinite fitness then fitness else worst) in
  Some (set_parents (<[i := ind]> (parents st))
          (set_shared cs (set_rndlocal (on_thread t r (rndlocal st)) st))).

(** The retry loop of [iterate],
    [while (!(terminate = recombinator.Terminate())) { ... }]:
    the candidate if one was produced, the last value written to
    [terminate], and the collaborator state and generator it left.
    [None] when [fuel] attempts were not enough. *)
Fixpoint retry (fuel : nat) (cs : cstate) (r : rand_t)
    : option (option Individual * bool * cstate * rand_t) :=
  match fuel with
  | O => None
  | S fuel' =>
      if Terminate collab cs then Some (None, true, cs, r)
      else
        let '(recombinant, cs, r) := recombine collab cs r in
        match recombinant with
        | Some ind => Some (Some ind, false, cs, r)
        | None => retry fuel' cs r
        end
  end.

(** The lambda [iterate], run by thread [t] for index [i]. *)
Definition iterate (fuel : nat) (t i : nat) (st : State) : option State :=
  s ← seeds st !! i;
  '(recombinant, flag, cs, r) ← retry fuel (shared st) (seeded s);
  let st := set_terminate flag
              (set_shared cs (set_rndlocal (on_thread t r (rndlocal st)) st)) in
  match recombinant with
  | Some ind =>
      _ ← offspring st !! i;
      Some (set_offspring (<[i := ind]> (offspring st)) st)
  | None => Some st
  end.

(** The comparator given to [std::minmax_element]. *)
Definition comp (lhs rhs : Individual) : bool :=
  lt (Fitness lhs Idx) (Fitness rhs Idx).

(** [std::minmax_element]: the first smallest and the last largest element
    (for a comparator that is a strict weak ordering); nothing to
    dereference on an empty range. *)
Fixpoint min_from (smallest : Individual) (l : list Individual) : Individual :=
  match l with
  | [] => smallest
  | x :: l' => min_from (if comp x smallest then x else smallest) l'
  end.

Fixpoint max_from (largest : Individual) (l : list Individual) : Individual :=
  match l with
  | [] => largest
  | x :: l' => max_from (if comp x largest then largest else x) l'
  end.

Definition minmax_element (l : list Individual) : option (Individual * Individual) :=
  match l with
  | [] => None
  | x :: l' => Some (min_from x l', max_from x l')
  end.

(** [auto best = Max ? maxElem : minElem] *)
Definition best_of (l : list Individual) : option Individual :=
  '(minElem, maxElem) ← minmax_element l;
  Some (if Max then maxElem else minElem).

(** [(Max && std::abs(1 - f) < 1e-6) || (!Max && std::abs(f) < 1e-6)] *)
Definition converged (f : scalar) : bool :=
  (Max && lt (abs (sub one f)) threshold)
  || (negb Max && lt (abs f) threshold).

(** One step of the backfill loop over [indices]. *)
Definition backfill_at (st : State) (i : nat) : option State :=
  o ← offspring st !! i;
  p ← parents st !! i;
  Some (match Genotype o with
        | [] => set_offspring (<[i := p]> (offspring st)) st
        | _ :: _ => st
        end).

Definition backfill (st : State) : option State :=
  foldl (λ acc i, st ← acc; backfill_at st i) (Some st)
        (seq 0 (PopulationSize config)).

(** [parents.swap(offspring)] *)
Definition swap (st : State) : State :=
  set_offspring (parents st) (set_parents (offspring st) st).

(** The body of the generation loop: [inl] when it returns from [Run],
    [inr] when it reaches the end of the body. *)
Definition gen_body (fuel : nat) (st : State) : option (State + State) :=
  let '(sd, r) := generate (PopulationSize config) (random st) in
  let st := set_random r (set_seeds sd st) in
  best ← best_of (parents st);
  let st := if converged (Fitness best Idx) then set_terminate true st else st in
  let st := if report
            then set_reports (reports st ++ [(generation st, parents st)]) st
            else st in
  if terminate st then Some (inl st)
  else
    _ ← offspring st !! 0%nat;
    let st := set_offspring (<[0%nat := best]> (offspring st)) st in
    let st := set_shared (Prepare collab (shared st) (parents st)) st in
    st ← for_each (iterate fuel) (seq 1 (PopulationSize config - 1)) st;
    st ← backfill st;
    Some (inr (swap st)).

(** [for (generation = 0; generation < config.Generations; ++generation)],
    with [k] iterations left. *)
Fixpoint gen_loop (fuel : nat) (k : nat) (st : State) : option State :=
  match k with
  | O => Some st
  | S k' =>
      r ← gen_body fuel st;
      match r with
      | inl st => Some st
      | inr st => gen_loop fuel k' (set_generation (S (generation st)) st)
      end
  end.

(** The start of [Run]: the seed table is drawn from [random], then the
    parents are created.  [this] holds the members as the call finds them
    (the constructor's values at the first call, what the last call left
    afterwards), [tls] the thread-local generators, which keep their
    state from one call to the next. *)
Definition created (random0 : rand_t) (cs0 : cstate) (tls : nat → rand_t)
    (this : Members) : option State :=
  let n := PopulationSize config in
  let '(sd, r) := generate n random0 in
  let st := {| parents := parents_ this <$> seq 0 n;
               offspring := offspring_ this <$> seq 0 n;
               seeds := sd; terminate := false;
               generation := generation_ this;
               random := r; rndlocal := tls; shared := cs0;
               clock := 0; reports := [] |} in
  for_each create (seq 0 n) st.

(** [Run] up to the generation loop: creation, then evaluation. *)
Definition initialize (random0 : rand_t) (cs0 : cstate) (tls : nat → rand_t)
    (this : Members) : option State :=
  st ← created random0 cs0 tls this;
  for_each evaluate (seq 0 (PopulationSize config)) st.

(** [GeneticProgrammingAlgorithm::Run(random, report)].  [fuel] bounds the
    attempts of every retry loop. *)
Definition Run (fuel : nat) (random0 : rand_t) (cs0 : cstate)
    (tls : nat → rand_t) (this : Members) : option State :=
  st ← initialize random0 cs0 tls this;
  gen_loop fuel (Generations config) (set_generation 0 st).

(** The members as a call of [Run] that ended in [st] leaves them. *)
Definition members (st : State) : Members :=
  {| parents_ := λ i, default blank (parents st !! i);
     offspring_ := λ i, default blank (offspring st !! i);
     generation_ := generation st |}.

(** An individual as [create] leaves it, and as [evaluate] leaves such an
    individual. *)
Definition fresh (ind : Individual) : Prop :=
  ∃ s fit0, ind = set_fitness {| Genotype := (creator collab (seeded s)).1;
                                 Fitness := fit0 |} worst.

Definition evaluated (ind : Individual) : Prop :=
  ∃ ind0 cs r,
    fresh ind0 ∧
    ind = set_fitness (evaluator collab cs r ind0).1.1.2
            (if isfinite (evaluator collab cs r ind0).1.1.1
             then (evaluator collab cs r ind0).1.1.1 else worst).

(** The state in which a loop body ended, by [return] or at its end. *)
Definition after (r : State + State) : State :=
  match r with inl st | inr st => st end.

(** What [std::minmax_element] requires of the comparison, on the values
    [ok] that occur as fitness (floating-point [<] is a strict weak
    ordering once NaN is excluded). *)
Definition strict_weak_order (ok : scalar → Prop) : Prop :=
  (∀ a, ok a → lt a a = false)
  ∧ (∀ a b c, ok a → ok b → ok c →
       lt a b = true → lt b c = true → lt a c = true)
  ∧ (∀ a b c, ok a → ok b → ok c →
       lt a b = false → lt b c = false → lt a c = false).

(** The invariant of the generation loop that elitism rests on: both
    buffers have [PopulationSize] slots, every parent has a non-empty
    genotype and a primary fitness among the values [ok], and so has every
    offspring slot that would survive the backfill. *)
Definition admissible (ok : scalar → Prop) (p : Individual) : Prop :=
  ok (Fitness p Idx).

Definition elite_invariant (ok : scalar → Prop) (st : State) : Prop :=
  length (parents st) = PopulationSize config
  ∧ length (offspring st) = PopulationSize config
  ∧ Forall (λ p, Genotype p ≠ [] ∧ admissible ok p) (parents st)
  ∧ Forall (λ o, Genotype o = [] ∨ admissible ok o) (offspring st).

(** Every retry loop returns within [fuel] attempts: the recombinator
    yields a candidate or reports termination. *)
Definition retries_within (fuel : nat) : Prop :=
  ∀ cs r, is_Some (retry fuel cs r).

(** [a] is not worse than [b] in the direction being optimised. *)
Definition not_worse (a b : scalar) : Prop :=
  if Max then lt a b = false else lt b a = false.

(** [b] is a best individual of the population [l] by the primary
    objective: it is a member, and no member is better. *)
Definition is_best (l : list Individual) (b : Individual) : Prop :=
  b ∈ l ∧ ∀ x, x ∈ l → not_worse (Fitness b Idx) (Fitness x Idx).

(** Along a sequence of parent populations, a best individual of each is
    not worse than a best individual of the one before. *)
Fixpoint elitist (l : list (list Individual)) : Prop :=
  match l with
  | p :: (p' :: _) as rest =>
      (∀ b b', is_best p b → is_best p' b' →
               not_worse (Fitness b' Idx) (Fitness b Idx))
      ∧ elitist rest
  | _ => True
  end.

(** The primary fitness of the individual is a finite number. *)
Definition finite (ind : Individual) : Prop :=
  isfinite (Fitness ind Idx) = true.

(** The state of the loop body after the new seeds were drawn and [report]
    was called, its termination flag apart. *)
Definition reported (st : State) : State :=
  let n := PopulationSize config in
  set_reports (reports st ++ if report then [(generation st, parents st)] else [])
    (set_random (generate n (random st)).2
       (set_seeds (generate n (random st)).1 st)).

(** The state in which the offspring phase starts: the elite sits in slot
    0 and the recombinator has been prepared. *)
Definition prepared (best : Individual) (st : State) : State :=
  set_shared (Prepare collab (shared st) (parents st))
    (set_offspring (<[0%nat := best]> (offspring st)) (reported st)).

(** What the backfill leaves in a slot that held [o], the parent of the
    same index being [p]: [offspring[i] = parents[i]] is executed where
    the genotype of [offspring[i]] is empty. *)
Definition kept (o p : Individual) : Individual :=
  match Genotype o with [] => p | _ :: _ => o end.

End Algorithm.

(** ** A concrete instance, for running the loop

    Scalars are integers in units of [1e-6] together with the non-finite
    values; the generator is a counter. *)
Inductive fscalar := Finite (z : Z) | PosInf | NegInf | NaN.

Definition fscalar_lt (a b : fscalar) : bool :=
  match a, b with
  | NaN, _ | _, NaN => false
  | Finite x, Finite y => (x <? y)%Z
  | NegInf, NegInf | PosInf, _ => false
  | NegInf, _ | _, PosInf => true
  | Finite _, NegInf => false
  end.

Definition fscalar_sub (a b : fscalar) : fscalar :=
  match a, b with
  | Finite x, Finite y => Finite (x - y)
  | NaN, _ | _, NaN | PosInf, PosInf | NegInf, NegInf => NaN
  | PosInf, _ | _, NegInf => PosInf
  | NegInf, _ | _, PosInf => NegInf
  end.

Definition fscalar_abs (a : fscalar) : fscalar :=
  match a with
  | Finite x => Finite (Z.abs x)
  | PosInf | NegInf => PosInf
  | NaN => NaN
  end.

Definition fscalar_ops : ScalarOps fscalar := {|
  lt := fscalar_lt;
  isfinite a := match a with Finite _ => true | _ => false end;
  sub := fscalar_sub;
  abs := fscalar_abs;
  zero := Finite 0;
  one := Finite 1000000;
  threshold := Finite 1;
  scalar_min := Finite (- 2 ^ 100);
  scalar_max := Finite (2 ^ 100)
|}.

Definition counter_rand : RandOps nat nat := {|
  next r := (r, S r);
  seeded s := 10 * S s;
  unseeded := 0
|}.

(** Collaborators whose results show the random numbers they draw: the
    creator makes a one-node tree labelled with its draw, the evaluator
    returns its draw (times 100, so that fitness is away from 0) and the
    recombinator builds an individual from its draw; the shared state
    counts the evaluations. *)
Definition draw_fitness (r : nat) : fscalar := Finite (100 * Z.of_nat (S r)).

Definition showing : @Collaborators fscalar nat nat nat := {|
  creator r := ([r], S r);
  evaluator cs r ind := (draw_fitness r, ind, S cs, S r);
  Terminate cs := false;
  Prepare cs _ := cs;
  recombine cs r :=
    (Some {| Genotype := [r]; Fitness := λ _, draw_fitness r |}, S cs, S r)
|}.

(** Collaborators whose evaluator always fails to produce a number. *)
Definition diverging : @Collaborators fscalar nat nat nat := {|
  creator r := ([r], S r);
  evaluator cs r ind := (NaN, ind, S cs, S r);
  Terminate cs := false;
  Prepare cs _ := cs;
  recombine cs r :=
    (Some {| Genotype := [r]; Fitness := λ _, draw_fitness r |}, S cs, S r)
|}.

(** Collaborators that use no random number after creation but stop at a
    budget of 4 evaluations: the evaluator derives the fitness from the
    genotype, the recombinator reports termination once the shared counter
    has reached the budget. *)
Definition label_fitness (g : list nat) : fscalar :=
  Finite (100 * Z.of_nat (S (List.hd 0 g))).

Definition budgeted : @Collaborators fscalar nat nat nat := {|
  creator r := ([r], S r);
  evaluator cs r ind := (label_fitness (Genotype ind), ind, S cs, r);
  Terminate cs := 4 <=? cs;
  Prepare cs _ := cs;
  recombine cs r :=
    (Some {| Genotype := [r]; Fitness := λ _, label_fitness [r] |}, S cs, S r)
|}.

(** Collaborators whose recombinator hands out candidates without a
    usable fitness. *)
Definition careless : @Collaborators fscalar nat nat nat := {|
  creator r := ([r], S r);
  evaluator cs r ind := (draw_fitness r, ind, S cs, S r);
  Terminate cs := false;
  Prepare cs _ := cs;
  recombine cs r := (Some {| Genotype := [r]; Fitness := λ _, NaN |}, S cs, S r)
|}.

(** Two schedules of one worker thread: one always runs the first pending
    item, the other starts the creation phase with the second item. *)
Definition in_order : nat → nat * nat := λ _, (0, 0).
Definition second_first : nat → nat * nat :=
  λ k, match k with O => (1, 0) | _ => (0, 0) end.

(** A schedule that runs the second pending item first at its seventh
    decision, which for three slots is the start of the first offspring
    phase (after three creations and three evaluations). *)
Definition offspring_swapped : nat → nat * nat :=
  λ k, if k =? 6 then (1, 0) else (0, 0).

Definition two_slots (generations : nat) : Config :=
  {| PopulationSize := 2; Generations := generations |}.

Definition three_slots (generations : nat) : Config :=
  {| PopulationSize := 3; Generations := generations |}.

(** An individual that some call of the recombinator returned. *)
Definition recombinant {scalar rand_t Node cstate : Type}
    (collab : @Collaborators scalar rand_t Node cstate)
    (x : @Individual scalar Node) : Prop :=
  ∃ cs r cs' r', recombine collab cs r = (Some x, cs', r').

(** Collaborators whose evaluator always returns the optimum 0, and
    collaborators whose recombinator has spent its budget before the first
    offspring is asked for. *)
Definition converging : @Collaborators fscalar nat nat nat := {|
  creator r := ([r], S r);
  evaluator cs r ind := (Finite 0, ind, S cs, S r);
  Terminate cs := false;
  Prepare cs _ := cs;
  recombine cs r :=
    (Some {| Genotype := [r]; Fitness := λ _, draw_fitness r |}, S cs, S r)
|}.

Definition exhausted : @Collaborators fscalar nat nat nat := {|
  creator r := ([r], S r);
  evaluator cs r ind := (draw_fitness r, ind, S cs, S r);
  Terminate cs := true;
  Prepare cs _ := cs;
  recombine cs r :=
    (Some {| Genotype := [r]; Fitness := λ _, draw_fitness r |}, S cs, S r)
|}.

Definition one_slot (generations : nat) : Config :=
  {| PopulationSize := 1; Generations := generations |}.

Definition no_slots (generations : nat) : Config :=
  {| PopulationSize := 0; Generations := generations |}.

(** The members of a freshly constructed object of the concrete
    instance. *)
Definition new_object : @Members fscalar nat :=
  constructed (sops := fscalar_ops).

(** The state in which the generation loop of the first run on a fresh
    object of the concrete instance starts (minimisation, objective 0, one
    worker thread taking the items in order, generators and shared counter
    starting at 0), and the best of its parents. *)
Definition empty_state : @State fscalar nat nat nat nat :=
  mkState [] [] [] false 0 0 (λ _, 0) 0 0 [].

Definition initial (collab : @Collaborators fscalar nat nat nat)
    (config : Config) : @State fscalar nat nat nat nat :=
  default empty_state
    (initialize (sops := fscalar_ops) (rops := counter_rand) 0 false config
       collab in_order 0 0 (λ _, 0) new_object).

Definition initial_best (collab : @Collaborators fscalar nat nat nat)
    (config : Config) : @Individual fscalar nat :=
  default (blank (sops := fscalar_ops))
    (best_of (sops := fscalar_ops) 0 false (parents (initial collab config))).

(** An object that has been used: the members and the thread-local
    generators as a first run of three generations leaves them.  Its
    offspring buffer holds the parents of the last generation, and a
    second run on it starts from the state [resumed]. *)
Definition first_run : @State fscalar nat nat nat nat :=
  default empty_state
    (Run (sops := fscalar_ops) (rops := counter_rand) 0 false (two_slots 3)
       showing true in_order 1 0 0 (λ _, 0) new_object).

Definition used_object : @Members fscalar nat :=
  members (sops := fscalar_ops) first_run.

Definition used_tls : nat → nat := rndlocal first_run.

Definition resumed (collab : @Collaborators fscalar nat nat nat)
    (config : Config) : @State fscalar nat nat nat nat :=
  default empty_state
    (initialize (sops := fscalar_ops) (rops := counter_rand) 0 false config
       collab in_order 0 0 used_tls used_object).

Definition resumed_best (collab : @Collaborators fscalar nat nat nat)
    (config : Config) : @Individual fscalar nat :=
  default (blank (sops := fscalar_ops))
    (best_of (sops := fscalar_ops) 0 false (parents (resumed collab config))).

(** The primary fitness of the parents a run ends with. *)
Definition final_fitness (st : option (@State fscalar nat nat nat nat))
    : option (list fscalar) :=
  (λ st, (λ ind, Fitness ind 0) <$> parents st) <$> st.

Definition final_genotypes (st : option (@State fscalar nat nat nat nat))
    : option (list (list nat)) :=
  (λ st, Genotype <$> parents st) <$> st.

(** The generations reported in a run, each with the primary fitness of
    the parents that were ranked in it. *)
Definition ranked_fitness (st : option (@State fscalar nat nat nat nat))
    : option (list (nat * list fscalar)) :=
  (λ st, (λ r : nat * list Individual, (r.1, (λ ind, Fitness ind 0) <$> r.2))
           <$> reports st) <$> st.

End GP.

(** * Row ranges *)

Module Core.

Local Open Scope N_scope.

(** [Operon::Range]: a pair of row indices, [Size() = End() - Start()] in
    [size_t].

    Modelled from the spec: the class (operon/core/range.hpp) is not among
    the sources; the specification speaks of "a contiguous row range", and
    the code at hand uses it through [Start()], [End()] and [Size()] only. *)
Record Range := { Start : N; End : N }.

Definition Size (r : Range) : N := (End r + 2 ^ 64 - Start r) mod 2 ^ 64.

(** Row [i] lies in the range. *)
Definition covers (r : Range) (i : N) : Prop := Start r <= i < End r.

End Core.

(** * The mini-batch of the Poisson likelihood *)

Module Likelihood.
Import Core.

Local Open Scope N_scope.

(** The random-number generator, as far as [SelectRandomRange] uses it:
    [std::uniform_int_distribution<std::size_t>{0, hi}(rng)]. *)
Class UniformInt (rng : Type) := {
  uniform_int : N → rng → N * rng
}.

Section Batch.
Context {rng : Type} {dist : UniformInt rng}.

(** The members of [PoissonLikelihood] that the batch selection reads. *)
Record PoissonLikelihood := {
  range_ : Range;
  bs_ : N;           (* batch size *)
  nr_ : N            (* number of data points *)
}.

(** The constructor: [bs_(batchSize == 0 ? range.Size() : batchSize)],
    [nr_{range_.Size()}]. *)
Definition make (range : Range) (batchSize : N) : PoissonLikelihood :=
  {| range_ := range;
     bs_ := if batchSize =? 0 then Size range else batchSize;
     nr_ := Size range |}.

(** [PoissonLikelihood::SelectRandomRange()] *)
Definition SelectRandomRange (l : PoissonLikelihood) (r : rng) : Range * rng :=
  if Size (range_ l) <=? bs_ l then (range_ l, r)
  else
    let '(s, r) := uniform_int ((Size (range_ l) + 2 ^ 64 - bs_ l) mod 2 ^ 64) r in
    ({| Start := (Start (range_ l) + s) mod 2 ^ 64;
        End := (Start (range_ l) + s + bs_ l) mod 2 ^ 64 |}, r).

(** The distribution keeps within its bounds. *)
Definition bounded : Prop := ∀ hi r, (uniform_int hi r).1 <= hi.

End Batch.

(** A generator that returns its state reduced into the bounds and then
    steps by 7. *)
Definition stepping : UniformInt N := {|
  uniform_int hi r := (r mod (hi + 1), r + 7)
|}.

End Likelihood.

(** * The data set built from columns *)

Module Data.

Local Open Scope nat_scope.

Section Columns.
Context {Scalar : Type}.

(** [Eigen::Array<Scalar, Dynamic, Dynamic, ColMajor>]: the entry
    [(j, i)] (row [j], column [i]) is stored at [i * rows + j]; an entry
    that was never assigned holds no defined value. *)
Record MatrixType := {
  rows : nat;
  cols : nat;
  cells : list (option Scalar)
}.

(** [MatrixType(r, c)]: storage for [r * c] entries, none assigned. *)
Definition allocate (r c : nat) : MatrixType :=
  {| rows := r; cols := c; cells := replicate (r * c) None |}.

(** [values(j, i) = v]; the indices must lie inside the matrix. *)
Definition assign (m : MatrixType) (j i : nat) (v : Scalar)
    : option MatrixType :=
  if decide (j < rows m ∧ i < cols m)
  then Some {| rows := rows m; cols := cols m;
               cells := <[i * rows m + j := Some v]> (cells m) |}
  else None.

(** [values(j, i)] read: the value if one was assigned. *)
Definition at_ (m : MatrixType) (j i : nat) : option Scalar :=
  if decide (j < rows m ∧ i < cols m)
  then mjoin (cells m !! (i * rows m + j))
  else None.

(** [for (j = j0; j < vals[i].size(); ++j) values(j, i) = vals[i][j]],
    with [col] the entries of [vals[i]] from [j0] on. *)
Fixpoint fill_column (i j : nat) (col : list Scalar) (m : MatrixType)
    : option MatrixType :=
  match col with
  | [] => Some m
  | v :: col' => m ← assign m j i v; fill_column i (S j) col' m
  end.

(** The outer loop, from column [i] on. *)
Fixpoint fill_columns (i : nat) (vals : list (list Scalar)) (m : MatrixType)
    : option MatrixType :=
  match vals with
  | [] => Some m
  | col :: vals' => m ← fill_column i 0 col m; fill_columns (S i) vals' m
  end.

(** [Dataset(vars, vals)], the matrix it builds; reading the front of an
    empty [vals] has no defined result. *)
Definition Dataset (vals : list (list Scalar)) : option MatrixType :=
  front ← head vals;
  fill_columns 0 vals (allocate (length front) (length vals)).

Definition Rows (m : MatrixType) : nat := rows m.
Definition Cols (m : MatrixType) : nat := cols m.

(** The matrix has its storage, and the entry [(j, i)] holds [w i j]. *)
Definition holds (m : MatrixType) (w : nat → nat → option Scalar) : Prop :=
  length (cells m) = rows m * cols m
  ∧ ∀ i j, i < cols m → j < rows m →
      cells m !! (i * rows m + j) = Some (w i j).

End Columns.

End Data.

(** * Evaluation of many trees *)

Module Interpreter.

Local Open Scope nat_scope.

Section Evaluate.
Context {Scalar Tree : Type}.

(** [interpreter.Evaluate<Scalar>(tree, dataset, range, span)] for a fixed
    data set and range: what it leaves in the span it was given, as a
    function of the tree and of what the span held. *)
Context (evaluate : Tree → list Scalar → list Scalar).

(** The call [f(result.subspan(off, s))]: the span must lie inside
    [result]. *)
Definition on_subspan (result : list Scalar) (off s : nat)
    (f : list Scalar → list Scalar) : option (list Scalar) :=
  if decide (off + s ≤ length result)
  then Some (take off result ++ f (take s (drop off result))
             ++ drop (off + s) result)
  else None.

(** The task of index [i]:
    [interpreter.Evaluate(trees[i], dataset, range, result.subspan(i * s, s))]. *)
Definition task (trees : list Tree) (s : nat) (i : nat)
    (result : list Scalar) : option (list Scalar) :=
  tree ← trees !! i;
  on_subspan result (i * s) s (evaluate tree).

(** [Evaluate(interpreter, trees, dataset, range, result, nthreads)], with
    [s = range.Size()]: the tasks of [for_each_index(0, n, 1, ...)] run one
    after the other in the order the executor picks. *)
Definition Evaluate (order : list nat) (trees : list Tree) (s : nat)
    (result : list Scalar) : option (list Scalar) :=
  foldl (λ acc i, r ← acc; task trees s i r) (Some result) order.

(** The first [n] consecutive pieces of [s] entries of a buffer. *)
Fixpoint chunks (s n : nat) (l : list Scalar) : list (list Scalar) :=
  match n with
  | O => []
  | S n' => take s l :: chunks s n' (drop s l)
  end.

(** The evaluation keeps the size of the span it writes to. *)
Definition keeps_span : Prop := ∀ t l, length (evaluate t l) = length l.

End Evaluate.

End Interpreter.

(** * The command-line driver: row ranges *)

Module Cli.
Import Core.

Local Open Scope N_scope.

(** How the part of [main] that settles the ranges ends: it goes on with a
    training and a test range, or it throws one of its two errors. *)
Inductive ranges :=
| Accepted (trainingRange testRange : Range)
| Exceeds       (* "The training range ... exceeds the available data range" *)
| Invalid.      (* "Invalid training range ..." *)

(** The default training range, two thirds of the rows, in [size_t]. *)
Definition default_training (rows : N) : Range :=
  {| Start := 0; End := (2 * rows) mod 2 ^ 64 / 3 |}.

(** The test range inferred from the training range. *)
Definition infer_test (rows : N) (trainingRange : Range) : Range :=
  if 0 <? Start trainingRange then {| Start := 0; End := Start trainingRange |}
  else if End trainingRange <? rows
       then {| Start := End trainingRange; End := rows |}
       else {| Start := 0; End := 1 |}.

(** The range handling of [main], from the defaults to the validation of
    the training range; [train] and [test] are the values of the options
    [--train] and [--test] when given, [rows] is [dataset->Rows()]. *)
Definition resolve (rows : N) (train test : option Range) : ranges :=
  let trainingRange :=
    match train with Some r => r | None => default_training rows end in
  let testRange :=
    match test with Some r => r | None => infer_test rows trainingRange end in
  if (rows <=? Start trainingRange) || (rows <? End trainingRange) then Exceeds
  else if End trainingRange <? Start trainingRange then Invalid
  else Accepted trainingRange testRange.

End Cli.

Close Scope Z_scope.

(** * Proofs: dominance-degree sorting *)

(** Resolve the [decide]s of the goal that linear arithmetic settles. *)
Ltac decide_lia :=
  repeat match goal with
  | |- context [decide ?P] =>
      first [ rewrite (decide_True (P := P)) by lia
            | rewrite (decide_False (P := P)) by lia ]
  end.

Section SorterProofs.
Import Sorter.

Lemma mrow_length n c i : square n c → i < n → length (mrow c i) = n.
Proof.
  intros [Hl Hf] Hi. unfold mrow.
  destruct (c !! i) as [r|] eqn:E.
  - simpl. eapply Forall_lookup_1 in Hf; eauto.
  - apply lookup_ge_None in E. lia.
Qed.

Lemma mget_Zero n k i j : mget (Zero n k) i j = 0%Z.
Proof.
  unfold mget, mrow, Zero.
  destruct (replicate n (replicate k 0%Z) !! i) as [r|] eqn:E; simpl.
  - apply lookup_replicate in E as [-> _].
    destruct (replicate k 0%Z !! j) as [z|] eqn:E2; simpl; [|reflexivity].
    by apply lookup_replicate in E2 as [-> _].
  - by destruct j.
Qed.

Lemma square_Zero n : square n (Zero n n).
Proof.
  split; [apply length_replicate|].
  apply Forall_replicate, length_replicate.
Qed.

Lemma square_insert n c i r : square n c → length r = n → square n (<[i:=r]> c).
Proof.
  intros [Hl Hf] Hr. split; [by rewrite length_insert|].
  destruct (decide (i < length c)).
  - apply Forall_insert; auto.
  - rewrite list_insert_ge by lia. done.
Qed.

Lemma mget_insert n c i r i' j' :
  square n c → i < n →
  mget (<[i:=r]> c) i' j' = if decide (i = i') then default 0%Z (r !! j') else mget c i' j'.
Proof.
  intros [Hl _] Hi. unfold mget, mrow.
  rewrite list_lookup_insert. subst n.
  destruct (decide (i = i')) as [->|Hne].
  - rewrite decide_True by done. done.
  - rewrite decide_False by tauto. done.
Qed.

Lemma square_mset n c i j v : square n c → i < n → square n (mset c i j v).
Proof.
  intros Hc Hi. apply square_insert; [done|].
  rewrite length_insert. by apply mrow_length.
Qed.

Lemma mget_mset n c i j v i' j' :
  square n c → i < n → j < n →
  mget (mset c i j v) i' j' = if decide (i = i' ∧ j = j') then v else mget c i' j'.
Proof.
  intros Hc Hi Hj. unfold mset. rewrite (mget_insert n) by done.
  destruct (decide (i = i')) as [->|Hne].
  - rewrite list_lookup_insert, (mrow_length n) by done.
    destruct (decide (j = j')) as [->|Hne].
    + rewrite !decide_True by done. done.
    + rewrite !decide_False by tauto. done.
  - rewrite decide_False by tauto. done.
Qed.

Lemma square_row_fill n c i v : square n c → i < n → square n (row_fill c i v).
Proof.
  intros Hc Hi. apply square_insert; [done|].
  rewrite length_fmap. by apply mrow_length.
Qed.

Lemma mget_row_fill n c i v i' j' :
  square n c → i < n → j' < n →
  mget (row_fill c i v) i' j' = if decide (i = i') then v else mget c i' j'.
Proof.
  intros Hc Hi Hj. unfold row_fill. rewrite (mget_insert n) by done.
  case_decide; [|done].
  rewrite list_lookup_fmap.
  destruct (mrow c i !! j') eqn:E; [done|].
  apply lookup_ge_None in E. rewrite (mrow_length n) in E by done. lia.
Qed.

Lemma square_row_assign n c i i0 :
  square n c → i0 < n → square n (row_assign c i i0).
Proof. intros Hc Hi. apply square_insert; [done|]. by apply mrow_length. Qed.

Lemma mget_row_assign n c i i0 i' j' :
  square n c → i < n →
  mget (row_assign c i i0) i' j' = if decide (i = i') then mget c i0 j' else mget c i' j'.
Proof. intros Hc Hi. unfold row_assign. by rewrite (mget_insert n). Qed.

Lemma square_madd n a b : square n a → square n b → square n (madd a b).
Proof.
  intros [Ha Hfa] [Hb Hfb]. split.
  - unfold madd. rewrite length_zip_with. lia.
  - apply Forall_lookup. intros i r Hr. unfold madd in Hr.
    apply lookup_zip_with_Some in Hr as (x & y & -> & Hx & Hy).
    rewrite length_zip_with.
    eapply Forall_lookup_1 in Hfa; eauto. eapply Forall_lookup_1 in Hfb; eauto.
    simpl in *. lia.
Qed.

Lemma mget_madd n a b i j :
  square n a → square n b → i < n → j < n →
  mget (madd a b) i j = (mget a i j + mget b i j)%Z.
Proof.
  intros [Ha Hfa] [Hb Hfb] Hi Hj. unfold mget, mrow, madd.
  destruct (lookup_lt_is_Some_2 a i) as [ra Hra]; [lia|].
  destruct (lookup_lt_is_Some_2 b i) as [rb Hrb]; [lia|].
  rewrite lookup_zip_with, Hra, Hrb. simpl.
  eapply Forall_lookup_1 in Hfa; eauto. eapply Forall_lookup_1 in Hfb; eauto.
  simpl in *.
  destruct (lookup_lt_is_Some_2 ra j) as [x Hx]; [lia|].
  destruct (lookup_lt_is_Some_2 rb j) as [y Hy]; [lia|].
  rewrite lookup_zip_with, Hx, Hy. done.
Qed.

(** Facts about an index column that is a permutation of [0..n-1]. *)

Lemma ix_lt n b p : Permutation b (seq 0 n) → p < n → ix b p < n.
Proof.
  intros Hp Hlt. unfold ix.
  destruct (b !! p) as [x|] eqn:E.
  - simpl. apply list_elem_of_lookup_2 in E. rewrite Hp in E.
    apply elem_of_seq in E. lia.
  - apply lookup_ge_None in E. apply Permutation_length in Hp.
    rewrite length_seq in Hp. lia.
Qed.

Lemma ix_inj n b p q :
  Permutation b (seq 0 n) → p < n → q < n → ix b p = ix b q → p = q.
Proof.
  intros Hp Hlp Hlq Heq.
  assert (Hlen : length b = n).
  { apply Permutation_length in Hp. by rewrite length_seq in Hp. }
  assert (Hnd : NoDup b) by (rewrite Hp; apply NoDup_seq).
  unfold ix in Heq.
  destruct (lookup_lt_is_Some_2 b p) as [x Hx]; [lia|].
  destruct (lookup_lt_is_Some_2 b q) as [y Hy]; [lia|].
  rewrite Hx, Hy in Heq. simpl in Heq. subst y.
  eapply NoDup_lookup; eauto.
Qed.

Lemma ix_surj n b y :
  Permutation b (seq 0 n) → y < n → ∃ q, q < n ∧ ix b q = y.
Proof.
  intros Hp Hy.
  assert (Hlen : length b = n).
  { apply Permutation_length in Hp. by rewrite length_seq in Hp. }
  assert (Hin : y ∈ b) by (rewrite Hp; apply elem_of_seq; lia).
  apply list_elem_of_lookup_1 in Hin as [q Hq].
  exists q. split.
  - apply lookup_lt_Some in Hq. lia.
  - unfold ix. by rewrite Hq.
Qed.

(** The inner marking loop sets exactly the cells [(b(i), b(q))], [q >= i]. *)
Lemma mark_range_spec n b i len : ∀ lo c,
  Permutation b (seq 0 n) → square n c → i < n → lo + len ≤ n →
  let c' := fold_left (λ c j, mset c (ix b i) (ix b j) 1%Z) (seq lo len) c in
  square n c' ∧
  ∀ p q, p < n → q < n →
    mget c' (ix b p) (ix b q) =
      if decide (p = i ∧ lo ≤ q < lo + len) then 1%Z else mget c (ix b p) (ix b q).
Proof.
  induction len as [|len IH]; intros lo c Hp Hc Hi Hlen; simpl.
  - split; [done|]. intros p q _ _. rewrite decide_False by lia. done.
  - assert (Hc1 : square n (mset c (ix b i) (ix b lo) 1%Z)).
    { apply square_mset; [done|]. apply ix_lt; [done|lia]. }
    destruct (IH (S lo) _ Hp Hc1 Hi ltac:(lia)) as [Hsq Hget].
    split; [done|]. intros p q Hpn Hqn.
    rewrite Hget by done.
    rewrite (mget_mset n) by first [done | apply ix_lt; [done|lia]].
    destruct (decide (p = i ∧ S lo ≤ q < S lo + len)) as [[-> ?]|Hn1].
    + rewrite decide_True by lia. done.
    + destruct (decide (ix b i = ix b p ∧ ix b lo = ix b q)) as [[E1 E2]|Hn2].
      * apply (ix_inj n) in E1; [|done|done|done].
        apply (ix_inj n) in E2; [|done|lia|done].
        subst. rewrite decide_True by lia. done.
      * destruct (decide (p = i ∧ lo ≤ q < lo + S len)) as [[-> ?]|Hn3]; [|done].
        assert (q = lo) as -> by lia. tauto.
Qed.

Lemma mark_from_spec n b i c :
  Permutation b (seq 0 n) → square n c → i < n →
  square n (mark_from b n i c) ∧
  ∀ p q, p < n → q < n →
    mget (mark_from b n i c) (ix b p) (ix b q) =
      if decide (p = i ∧ i ≤ q) then 1%Z else mget c (ix b p) (ix b q).
Proof.
  intros Hp Hc Hi. unfold mark_from.
  destruct (mark_range_spec n b i (n - i) i c Hp Hc Hi ltac:(lia)) as [Hsq Hget].
  split; [done|]. intros p q Hpn Hqn. rewrite Hget by done.
  destruct (decide (p = i ∧ i ≤ q)) as [[-> ?]|?].
  - rewrite decide_True by lia. done.
  - rewrite decide_False by lia. done.
Qed.

(** After the outer loop has handled positions [1..t], the rows of the
    first [1 + t] sorted individuals are final and all other rows are zero. *)
Lemma comparison_prefix pop k b t :
  let n := length pop in
  sorted_column pop k b → 1 + t ≤ n →
  let c := fold_left (comparison_step pop b k n) (seq 1 t)
                     (row_fill (Zero n n) (ix b 0) 1%Z) in
  square n c ∧
  ∀ p q, p < n → q < n →
    mget c (ix b p) (ix b q) =
      if decide (p < 1 + t)
      then (if decide (at_ pop (ix b p) k ≤ at_ pop (ix b q) k)%Z then 1%Z else 0%Z)
      else 0%Z.
Proof.
  intros n [Hp Hs]. fold n in Hp, Hs.
  assert (Hs' : ∀ p q, p ≤ q < n → (at_ pop (ix b p) k ≤ at_ pop (ix b q) k)%Z).
  { intros p q Hpq. destruct (decide (p = q)) as [->|]; [lia|]. apply Hs. lia. }
  induction t as [|t IH]; intros Ht c.
  - subst c. simpl.
    assert (H0 : ix b 0 < n) by (apply ix_lt; [done|lia]).
    split; [apply square_row_fill; [apply square_Zero|done]|].
    intros p q Hpn Hqn.
    rewrite (mget_row_fill n), mget_Zero;
      [|apply square_Zero|done|by apply ix_lt].
    destruct (decide (ix b 0 = ix b p)) as [E|E].
    + apply (ix_inj n) in E; [|done|lia|done]. subst p.
      specialize (Hs' 0 q ltac:(lia)). decide_lia. done.
    + assert (p ≠ 0) by (intros ->; done). decide_lia. done.
  - subst c. rewrite seq_S, fold_left_app. simpl.
    destruct (IH ltac:(lia)) as [Hsq Hget]. clear IH.
    set (c := fold_left _ (seq 1 t) _) in *. clearbody c.
    remember (S t) as i eqn:Hit.
    assert (Hi : i < n) by lia.
    assert (Hbi : ix b i < n) by (by apply ix_lt).
    assert (Hbi1 : ix b (i - 1) < n) by (apply ix_lt; [done|lia]).
    pose proof (Hs' (i - 1) i ltac:(lia)) as Hle.
    unfold comparison_step.
    destruct (Z.eqb_spec (at_ pop (ix b i) k) (at_ pop (ix b (i - 1)) k)) as [E|E].
    + split; [by apply square_row_assign|].
      intros p q Hpn Hqn. rewrite (mget_row_assign n) by done.
      destruct (decide (ix b i = ix b p)) as [E1|E1].
      * apply (ix_inj n) in E1; [|done..]. subst p.
        rewrite Hget by lia. rewrite E. decide_lia. done.
      * rewrite Hget by done.
        assert (p ≠ i) by (intros ->; done).
        destruct (decide (p < 1 + t)); decide_lia; done.
    + destruct (mark_from_spec n b i c Hp Hsq Hi) as [Hsq' Hget'].
      split; [done|].
      intros p q Hpn Hqn. rewrite Hget' by done.
      destruct (decide (p = i ∧ i ≤ q)) as [[-> Hq]|Hn].
      * specialize (Hs' i q ltac:(lia)). decide_lia. done.
      * rewrite Hget by done.
        destruct (decide (p = i)) as [->|Hpi].
        -- assert (q < i) by lia.
           specialize (Hs' q (i - 1) ltac:(lia)). decide_lia. done.
        -- destruct (decide (p < 1 + t)); decide_lia; done.
Qed.

(** [C[x][y] = 1] iff [y] is no better than [x] on objective [k],
    whatever order [std::sort] gave to equal values. *)
Lemma ComputeComparisonMatrix_spec pop idx k :
  let n := length pop in
  pop ≠ [] → sorted_column pop k (default [] (idx !! k)) →
  square n (ComputeComparisonMatrix pop idx k) ∧
  ∀ x y, x < n → y < n →
    mget (ComputeComparisonMatrix pop idx k) x y =
      if decide (at_ pop x k ≤ at_ pop y k)%Z then 1%Z else 0%Z.
Proof.
  intros n Hne Hsc.
  assert (Hn : 1 ≤ n) by (subst n; destruct pop; [done|simpl; lia]).
  destruct (comparison_prefix pop k _ (n - 1) Hsc ltac:(fold n; lia)) as [Hsq Hget].
  fold n in Hsq, Hget.
  split; [exact Hsq|].
  intros x y Hx Hy.
  destruct Hsc as [Hp _]. fold n in Hp.
  destruct (ix_surj n _ x Hp Hx) as (p & Hpn & <-).
  destruct (ix_surj n _ y Hp Hy) as (q & Hqn & <-).
  unfold ComputeComparisonMatrix. fold n.
  rewrite Hget by done. rewrite decide_True by lia. done.
Qed.

Lemma count_le_S pop m a b :
  count_le pop (S m) a b =
    (count_le pop m a b + if decide (at_ pop a m ≤ at_ pop b m)%Z then 1 else 0)%Z.
Proof.
  unfold count_le. rewrite seq_S, List.filter_app, length_app. simpl.
  destruct (Z.leb_spec (at_ pop a m) (at_ pop b m)); decide_lia; simpl; lia.
Qed.

Lemma count_le_range pop m a b : (0 ≤ count_le pop m a b ≤ Z.of_nat m)%Z.
Proof.
  induction m as [|m IH]; [unfold count_le; simpl; lia|].
  rewrite count_le_S. case_decide; lia.
Qed.

Lemma count_le_full pop m a b :
  count_le pop m a b = Z.of_nat m ↔ le_all pop m a b = true.
Proof.
  unfold le_all. induction m as [|m IH].
  - unfold count_le. simpl. done.
  - rewrite count_le_S, seq_S, forallb_app. simpl.
    rewrite andb_true_r, andb_true_iff, <- IH, Z.leb_le.
    pose proof (count_le_range pop m a b). case_decide; lia.
Qed.

Lemma sum_prefix pop idx t :
  let n := length pop in
  pop ≠ [] →
  (∀ k, k < 1 + t → sorted_column pop k (default [] (idx !! k))) →
  let d := fold_left (λ d i, madd d (ComputeComparisonMatrix pop idx i))
                     (seq 1 t) (ComputeComparisonMatrix pop idx 0) in
  square n d ∧
  ∀ x y, x < n → y < n → mget d x y = count_le pop (1 + t) x y.
Proof.
  intros n Hne. induction t as [|t IH]; intros Hs d.
  - subst d. simpl.
    destruct (ComputeComparisonMatrix_spec pop idx 0 Hne (Hs 0 ltac:(lia)))
      as [Hsq Hget].
    split; [done|]. intros x y Hx Hy. rewrite Hget by done.
    change 1 with (S 0). rewrite count_le_S. unfold count_le at 1. simpl. done.
  - subst d. rewrite seq_S, fold_left_app. simpl.
    destruct IH as [Hsq Hget]; [intros k Hk; apply Hs; lia|].
    destruct (ComputeComparisonMatrix_spec pop idx (S t) Hne (Hs (S t) ltac:(lia)))
      as [Hsq' Hget'].
    split; [by apply square_madd|].
    intros x y Hx Hy.
    rewrite (mget_madd n), Hget, Hget' by done.
    change (S (S t)) with (S (1 + t)). by rewrite (count_le_S _ (1 + t)).
Qed.

(** The sum of the per-objective comparison matrices: cell [(x, y)] counts
    the objectives on which [x] is no worse than [y]. *)
Lemma ComparisonMatrixSum_spec pop m idx :
  let n := length pop in
  pop ≠ [] → 1 ≤ m → sorted_idx pop m idx →
  square n (ComparisonMatrixSum pop idx) ∧
  ∀ x y, x < n → y < n →
    mget (ComparisonMatrixSum pop idx) x y = count_le pop m x y.
Proof.
  intros n Hne Hm [Hlen Hs]. unfold ComparisonMatrixSum. rewrite Hlen.
  destruct (sum_prefix pop idx (m - 1) Hne) as [Hsq Hget].
  { intros k Hk. apply Hs. lia. }
  split; [done|]. intros x y Hx Hy. rewrite Hget by done.
  f_equal. lia.
Qed.

Lemma zero_pair_spec s m n d i j :
  i ≤ j → j < n → square n d → zeroed_upto s m n i j d →
  square n (zero_pair m d i j) ∧ zeroed_upto s m n i (S j) (zero_pair m d i j).
Proof.
  intros Hij Hj Hsq Hinv.
  assert (Eij : mget d i j = mget s i j).
  { rewrite Hinv by lia. rewrite decide_False; [done|]. lia. }
  assert (Eji : mget d j i = mget s j i).
  { rewrite Hinv by lia. rewrite decide_False; [done|]. lia. }
  unfold zero_pair. rewrite Eij, Eji.
  destruct (Z.eqb_spec (mget s i j) m) as [E1|E1];
    [destruct (Z.eqb_spec (mget s j i) m) as [E2|E2]|]; simpl.
  - assert (Hsq1 : square n (mset d j i 0%Z)) by (apply square_mset; [done|lia]).
    split; [apply square_mset; [done|lia]|].
    intros x y Hx Hy.
    rewrite (mget_mset n), (mget_mset n), Hinv by first [done|lia].
    destruct (decide (i = x ∧ j = y)) as [[-> ->]|N1].
    { rewrite decide_True; [done|]. split; [lia|done]. }
    destruct (decide (j = x ∧ i = y)) as [[-> ->]|N2].
    { rewrite decide_True; [done|]. split; [lia|done]. }
    repeat case_decide; try done; exfalso; lia.
  - split; [done|]. intros x y Hx Hy. rewrite Hinv by done.
    destruct (decide (i = x ∧ j = y)) as [[-> ->]|N1].
    { rewrite !decide_False; [done|tauto|lia]. }
    destruct (decide (j = x ∧ i = y)) as [[-> ->]|N2].
    { rewrite !decide_False; [done|tauto|lia]. }
    repeat case_decide; try done; exfalso; lia.
  - split; [done|]. intros x y Hx Hy. rewrite Hinv by done.
    destruct (decide (i = x ∧ j = y)) as [[-> ->]|N1].
    { rewrite !decide_False; [done|tauto|lia]. }
    destruct (decide (j = x ∧ i = y)) as [[-> ->]|N2].
    { rewrite !decide_False; [done|tauto|lia]. }
    repeat case_decide; try done; exfalso; lia.
Qed.

Lemma zero_range_spec s m n i len : ∀ j0 d,
  i ≤ j0 → j0 + len ≤ n → square n d → zeroed_upto s m n i j0 d →
  let d' := fold_left (λ d j, zero_pair m d i j) (seq j0 len) d in
  square n d' ∧ zeroed_upto s m n i (j0 + len) d'.
Proof.
  induction len as [|len IH]; intros j0 d Hi Hlen Hsq Hinv; simpl.
  - rewrite Nat.add_0_r. done.
  - destruct (zero_pair_spec s m n d i j0) as [Hsq1 Hinv1]; [lia..|done|done|].
    destruct (IH (S j0) _ ltac:(lia) ltac:(lia) Hsq1 Hinv1) as [Hsq2 Hinv2].
    split; [done|]. by replace (j0 + S len) with (S j0 + len) by lia.
Qed.

Lemma zero_row_spec s m n d i :
  i < n → square n d → zeroed_upto s m n i i d →
  square n (zero_row m n d i) ∧ zeroed_upto s m n (S i) (S i) (zero_row m n d i).
Proof.
  intros Hi Hsq Hinv. unfold zero_row.
  destruct (zero_range_spec s m n i (n - i) i d) as [Hsq' Hinv']; [lia..|done|done|].
  split; [done|]. intros x y Hx Hy. rewrite Hinv' by done.
  repeat case_decide; try done; exfalso; lia.
Qed.

Lemma zero_rows_spec s m n len : ∀ i0 d,
  i0 + len ≤ n → square n d → zeroed_upto s m n i0 i0 d →
  let d' := fold_left (zero_row m n) (seq i0 len) d in
  square n d' ∧ zeroed_upto s m n (i0 + len) (i0 + len) d'.
Proof.
  induction len as [|len IH]; intros i0 d Hlen Hsq Hinv; simpl.
  - rewrite Nat.add_0_r. done.
  - destruct (zero_row_spec s m n d i0) as [Hsq1 Hinv1]; [lia|done|done|].
    destruct (IH (S i0) _ ltac:(lia) Hsq1 Hinv1) as [Hsq2 Hinv2].
    split; [done|]. by replace (i0 + S len) with (S i0 + len) by lia.
Qed.

(** The degree matrix: the sum, with every pair of cells that both equal
    [m] set to zero. *)
Lemma ComputeDegreeMatrix_spec pop m idx :
  let n := length pop in
  let s := ComparisonMatrixSum pop idx in
  pop ≠ [] → 1 ≤ m → sorted_idx pop m idx →
  square n (ComputeDegreeMatrix pop idx m) ∧
  ∀ x y, x < n → y < n →
    mget (ComputeDegreeMatrix pop idx m) x y =
      if decide (mget s x y = Z.of_nat m ∧ mget s y x = Z.of_nat m)
      then 0%Z else mget s x y.
Proof.
  intros n s Hne Hm Hidx.
  destruct (ComparisonMatrixSum_spec pop m idx Hne Hm Hidx) as [Hsq _].
  fold n s in Hsq.
  destruct (zero_rows_spec s (Z.of_nat m) n n 0 s) as [Hsq' Hinv]; [lia|done| |].
  { intros x y Hx Hy. rewrite decide_False; [done|]. lia. }
  split; [done|]. intros x y Hx Hy.
  unfold ComputeDegreeMatrix. fold n s. rewrite Hinv by done.
  repeat case_decide; try done; exfalso; first [lia|tauto].
Qed.

Lemma lt_some_le_all pop m a b : lt_some pop m a b = negb (le_all pop m b a).
Proof.
  unfold lt_some, le_all. induction (seq 0 m) as [|k l IH]; [done|].
  simpl. rewrite IH, negb_andb. f_equal. apply Z.ltb_antisym.
Qed.

(** A cell of the degree matrix reaches [m] exactly when the row individual
    dominates the column individual. *)
Lemma degree_dominates pop m idx x y :
  let n := length pop in
  pop ≠ [] → 1 ≤ m → sorted_idx pop m idx → x < n → y < n →
  (mget (ComputeDegreeMatrix pop idx m) x y <? Z.of_nat m)%Z
    = negb (dominates pop m x y).
Proof.
  intros n Hne Hm Hidx Hx Hy.
  destruct (ComputeDegreeMatrix_spec pop m idx Hne Hm Hidx) as [_ Hget].
  destruct (ComparisonMatrixSum_spec pop m idx Hne Hm Hidx) as [_ Hsum].
  fold n in Hget, Hsum.
  rewrite Hget, !Hsum by done.
  unfold dominates. rewrite lt_some_le_all.
  pose proof (count_le_range pop m x y) as Hr.
  pose proof (count_le_full pop m x y) as Hxy.
  pose proof (count_le_full pop m y x) as Hyx.
  destruct (le_all pop m x y), (le_all pop m y x); simpl;
    case_decide; rewrite ?Z.ltb_lt, ?Z.ltb_ge; try lia;
    try (assert (count_le pop m x y ≠ Z.of_nat m) by naive_solver; lia);
    exfalso; naive_solver.
Qed.

Lemma le_all_total_aux pop a b (l : list nat) :
  forallb (λ k, at_ pop a k <=? at_ pop b k)%Z l = true →
  (fold_right Z.add 0 (List.map (at_ pop a) l)
     ≤ fold_right Z.add 0 (List.map (at_ pop b) l))%Z.
Proof.
  induction l as [|k l IH]; simpl; [lia|].
  rewrite andb_true_iff, Z.leb_le. intros [? ?%IH]. lia.
Qed.

Lemma dominates_total pop m a b :
  dominates pop m a b = true → (total pop m a < total pop m b)%Z.
Proof.
  unfold dominates, le_all, lt_some, total.
  rewrite andb_true_iff.
  induction (seq 0 m) as [|k l IH]; simpl; [intros [_ [=]]|].
  rewrite andb_true_iff, orb_true_iff, Z.leb_le, Z.ltb_lt.
  intros [[Hle Hall] [Hlt|Hex]].
  - apply (le_all_total_aux pop a b) in Hall. lia.
  - specialize (IH (conj Hall Hex)). lia.
Qed.

(** The [for] loop of [Sort] partitions [tmp], keeping the order. *)
Lemma split_front_acc (p : nat → bool) l : ∀ f r,
  fold_left (λ '(front, remaining) i,
               if p i then (front ++ [i], remaining)
               else (front, remaining ++ [i])) l (f, r)
  = (f ++ List.filter p l, r ++ List.filter (λ i, negb (p i)) l).
Proof.
  induction l as [|a l IH]; intros f r; simpl.
  - by rewrite !app_nil_r.
  - destruct (p a); simpl; rewrite IH, <- app_assoc; done.
Qed.

Lemma split_front_eq d m tmp :
  split_front d m tmp =
    (List.filter (undominated d m tmp) tmp,
     List.filter (λ i, negb (undominated d m tmp i)) tmp).
Proof. unfold split_front. by rewrite split_front_acc. Qed.

Lemma filter_split_perm {A} (p : A → bool) l :
  Permutation (List.filter p l ++ List.filter (λ i, negb (p i)) l) l.
Proof.
  induction l as [|a l IH]; simpl; [done|].
  destruct (p a); simpl.
  - by constructor.
  - rewrite <- Permutation_middle. by constructor.
Qed.

Lemma min_total_exists pop m (tmp : list nat) :
  tmp ≠ [] →
  ∃ i, In i tmp ∧ ∀ j, In j tmp → (total pop m i ≤ total pop m j)%Z.
Proof.
  induction tmp as [|a l IH]; [done|]. intros _.
  destruct l as [|b l].
  - exists a. split; [by left|]. intros j [<-|[]]. lia.
  - destruct IH as (i & Hi & Hmin); [done|].
    destruct (Z.le_gt_cases (total pop m a) (total pop m i)).
    + exists a. split; [by left|]. intros j [<-|Hj]; [lia|].
      specialize (Hmin j Hj). lia.
    + exists i. split; [by right|]. intros j [<-|Hj]; [lia|]. by apply Hmin.
Qed.

(** The front-peeling loop: with at least [length tmp] iterations of fuel
    it returns; the fronts it appends partition [tmp], none is empty, and
    whoever dominates a member of a front sits in a strictly earlier one. *)
Lemma peel_spec pop m d n :
  (∀ x y, x < n → y < n →
     (mget d x y <? Z.of_nat m)%Z = negb (dominates pop m x y)) →
  ∀ fuel tmp count fronts,
    (∀ x, In x tmp → x < n) →
    count = (Z.of_nat n - Z.of_nat (length tmp))%Z →
    length tmp ≤ fuel →
    ∃ fs, peel fuel d (Z.of_nat m) (Z.of_nat n) tmp count fronts
            = Fronts (fronts ++ fs)
      ∧ Permutation (concat fs) tmp
      ∧ Forall (λ f, f ≠ []) fs
      ∧ (∀ k f x y, fs !! k = Some f → In x f → In y f →
           dominates pop m y x = false)
      ∧ ∀ k f x y, fs !! k = Some f → In x f → In y tmp →
          dominates pop m y x = true →
          ∃ k' f', k' < k ∧ fs !! k' = Some f' ∧ In y f'.
Proof.
  intros Hd. induction fuel as [|fuel IH]; intros tmp count fronts Hlt Hc Hf.
  - destruct tmp; [|simpl in Hf; lia]. simpl in Hc.
    exists []. simpl. rewrite (proj2 (Z.ltb_ge _ _)) by lia.
    rewrite app_nil_r. repeat split; [done|done|by intros k f x y [=]|].
    by intros k f x y [=].
  - destruct (decide (tmp = [])) as [->|Hne].
    { simpl in Hc. exists []. simpl. rewrite (proj2 (Z.ltb_ge _ _)) by lia.
      rewrite app_nil_r. repeat split; [done|done|by intros k f x y [=]|].
      by intros k f x y [=]. }
    assert (Hpos : 0 < length tmp) by (destruct tmp; [done|simpl; lia]).
    simpl. rewrite (proj2 (Z.ltb_lt _ _)) by lia.
    rewrite split_front_eq.
    set (p := undominated d (Z.of_nat m) tmp).
    set (front := List.filter p tmp).
    set (remaining := List.filter (λ i, negb (p i)) tmp).
    pose proof (filter_split_perm p tmp) as Hperm. fold front remaining in Hperm.
    assert (Hlen : length front + length remaining = length tmp).
    { rewrite <- length_app. by apply Permutation_length. }
    assert (Hfront : front ≠ []).
    { destruct (min_total_exists pop m tmp Hne) as (i & Hi & Hmin).
      assert (Hin : In i front).
      { apply filter_In. split; [done|]. apply forallb_forall. intros j Hj.
        rewrite Hd by auto.
        destruct (dominates pop m j i) eqn:E; [|done].
        apply dominates_total in E. specialize (Hmin j Hj). lia. }
      intros E. rewrite E in Hin. done. }
    assert (Hfpos : 0 < length front) by (destruct front; [done|simpl; lia]).
    destruct (IH remaining (count + Z.of_nat (length front))%Z (fronts ++ [front]))
      as (fs & Hrun & Hp & Hnon & Hmut & Hdom).
    { intros x Hx. apply Hlt. apply filter_In in Hx. tauto. }
    { lia. }
    { lia. }
    assert (Hund : ∀ x y, In x front → In y tmp → dominates pop m y x = false).
    { intros x y Hx Hy. apply filter_In in Hx as [Hx Hpx].
      unfold p, undominated in Hpx.
      rewrite forallb_forall in Hpx. specialize (Hpx y Hy).
      rewrite Hd in Hpx by auto. by destruct (dominates pop m y x). }
    exists (front :: fs). split; [|split; [|split; [|split]]].
    + rewrite Hrun, <- app_assoc. done.
    + simpl. rewrite Hp. done.
    + by constructor.
    + intros k f x y Hk Hx Hy.
      destruct k as [|k]; simpl in Hk; [|by eapply Hmut].
      injection Hk as <-. apply Hund; [done|]. apply filter_In in Hy. tauto.
    + intros k f x y Hk Hx Hy Hxy.
      destruct k as [|k]; simpl in Hk.
      * injection Hk as <-. rewrite Hund in Hxy; done.
      * assert (Hy' : In y front ∨ In y remaining).
        { apply in_app_or. eapply Permutation_in; [symmetry; exact Hperm|done]. }
        destruct Hy' as [Hy'|Hy'].
        -- exists 0, front. split; [lia|]. done.
        -- destruct (Hdom k f x y Hk Hx Hy' Hxy) as (k' & f' & ? & ? & ?).
           exists (S k'), f'. split; [lia|]. done.
Qed.

(** ** The insertion sort is an admissible [std::sort] *)

Lemma sort_insert_perm pop k a l : Permutation (sort_insert pop k a l) (a :: l).
Proof.
  induction l as [|b l IH]; simpl; [done|].
  destruct (at_ pop a k <? at_ pop b k)%Z; [done|].
  rewrite IH. apply perm_swap.
Qed.

Lemma col_sort_perm pop k l : Permutation (col_sort pop k l) l.
Proof.
  induction l as [|a l IH]; simpl; [done|].
  rewrite sort_insert_perm. by constructor.
Qed.

Lemma sort_insert_sorted pop k a l :
  StronglySorted (λ x y, at_ pop x k ≤ at_ pop y k)%Z l →
  StronglySorted (λ x y, at_ pop x k ≤ at_ pop y k)%Z (sort_insert pop k a l).
Proof.
  induction 1 as [|b l Hl IH Hb]; simpl.
  - constructor; [constructor|constructor].
  - destruct (Z.ltb_spec (at_ pop a k) (at_ pop b k)).
    + constructor; [by constructor|].
      constructor; [lia|]. eapply Forall_impl; [exact Hb|]. simpl. intros. lia.
    + constructor; [done|].
      rewrite sort_insert_perm. constructor; [lia|done].
Qed.

Lemma col_sort_sorted pop k l :
  StronglySorted (λ x y, at_ pop x k ≤ at_ pop y k)%Z (col_sort pop k l).
Proof.
  induction l as [|a l IH]; simpl; [constructor|]. by apply sort_insert_sorted.
Qed.

Lemma StronglySorted_ix (R : nat → nat → Prop) b :
  StronglySorted R b → ∀ p q, p < q < length b → R (ix b p) (ix b q).
Proof.
  induction 1 as [|a l Hl IH Ha]; intros p q Hpq; simpl in Hpq; [lia|].
  destruct q as [|q]; [lia|].
  destruct p as [|p].
  - destruct (lookup_lt_is_Some_2 l q) as [y Hy]; [lia|].
    unfold ix. simpl. rewrite Hy. simpl.
    rewrite Forall_forall in Ha. apply Ha. by eapply list_elem_of_lookup_2.
  - change (R (ix l p) (ix l q)). apply IH. lia.
Qed.

Lemma col_sort_sorted_column pop k :
  sorted_column pop k (col_sort pop k (seq 0 (length pop))).
Proof.
  split; [apply col_sort_perm|].
  intros p q Hpq. apply (StronglySorted_ix _ _ (col_sort_sorted pop k _)).
  rewrite (Permutation_length (col_sort_perm pop k _)), length_seq. done.
Qed.

Lemma sorted_indices_sorted pop m : sorted_idx pop m (sorted_indices pop m).
Proof.
  unfold sorted_indices. split.
  - by rewrite length_fmap, length_seq.
  - intros k Hk. rewrite list_lookup_fmap, lookup_seq_lt by done. simpl.
    apply col_sort_sorted_column.
Qed.

(** ** The result does not depend on how [std::sort] orders equal values *)

Lemma square_ext n (a b : Mat) :
  square n a → square n b →
  (∀ x y, x < n → y < n → mget a x y = mget b x y) → a = b.
Proof.
  intros [Ha Hfa] [Hb Hfb] Hget.
  apply (list_eq_same_length _ _ n); [done..|].
  intros i ra rb Hi Hra Hrb.
  pose proof (Forall_lookup_1 _ _ _ _ Hfa Hra) as Hla.
  pose proof (Forall_lookup_1 _ _ _ _ Hfb Hrb) as Hlb. simpl in *.
  apply (list_eq_same_length _ _ n); [done..|].
  intros j x y Hj Hx Hy.
  specialize (Hget i j Hi Hj). unfold mget, mrow in Hget.
  rewrite Hra, Hrb in Hget. simpl in Hget. rewrite Hx, Hy in Hget. done.
Qed.

Lemma ComputeDegreeMatrix_any_sort pop m idx idx' :
  pop ≠ [] → 1 ≤ m → sorted_idx pop m idx → sorted_idx pop m idx' →
  ComputeDegreeMatrix pop idx m = ComputeDegreeMatrix pop idx' m.
Proof.
  intros Hne Hm H1 H2.
  destruct (ComputeDegreeMatrix_spec pop m idx Hne Hm H1) as [Hsq1 Hg1].
  destruct (ComputeDegreeMatrix_spec pop m idx' Hne Hm H2) as [Hsq2 Hg2].
  destruct (ComparisonMatrixSum_spec pop m idx Hne Hm H1) as [_ Hs1].
  destruct (ComparisonMatrixSum_spec pop m idx' Hne Hm H2) as [_ Hs2].
  apply (square_ext (length pop)); [done..|].
  intros x y Hx Hy. rewrite Hg1, Hg2, !Hs1, !Hs2 by done. done.
Qed.

Lemma front_size_uniform pop m : pop ≠ [] → uniform pop m → front_size pop = Some m.
Proof.
  intros Hne Hu. destruct pop as [|p pop]; [done|].
  apply Forall_inv in Hu. unfold front_size. simpl. by rewrite Hu.
Qed.

Lemma SortFrom_any_sort fuel pop m idx :
  pop ≠ [] → 1 ≤ m → uniform pop m → sorted_idx pop m idx →
  SortFrom fuel pop idx = Sort fuel pop.
Proof.
  intros Hne Hm Hu Hidx. unfold Sort, SortFrom.
  rewrite (front_size_uniform pop m) by done.
  by rewrite (ComputeDegreeMatrix_any_sort pop m idx (sorted_indices pop m))
    by auto using sorted_indices_sorted.
Qed.

(** Everything the properties of [Sort] below need, in one place. *)
Lemma SortFrom_spec fuel pop m idx :
  let n := length pop in
  pop ≠ [] → 1 ≤ m → uniform pop m → sorted_idx pop m idx → n ≤ fuel →
  ∃ fronts,
    SortFrom fuel pop idx = Fronts fronts
    ∧ Permutation (concat fronts) (seq 0 n)
    ∧ Forall (λ f, f ≠ []) fronts
    ∧ (∀ k f x y, fronts !! k = Some f → In x f → In y f →
         dominates pop m y x = false)
    ∧ ∀ k f x y, fronts !! k = Some f → In x f → y < n →
        dominates pop m y x = true →
        ∃ k' f', k' < k ∧ fronts !! k' = Some f' ∧ In y f'.
Proof.
  intros n Hne Hm Hu Hidx Hfuel.
  destruct (peel_spec pop m (ComputeDegreeMatrix pop idx m) n) with
    (fuel := fuel) (tmp := seq 0 n) (count := 0%Z) (fronts := @nil (list nat))
    as (fs & Hrun & Hp & Hnon & Hmut & Hdom).
  - intros x y Hx Hy. by apply degree_dominates.
  - intros x Hx. apply in_seq in Hx. lia.
  - rewrite length_seq. lia.
  - by rewrite length_seq.
  - exists fs. unfold SortFrom. rewrite (front_size_uniform pop m) by done.
    fold n. simpl in Hrun. repeat split; try done.
    intros k f x y Hk Hx Hy Hxy. apply (Hdom k f x y); try done.
    apply in_seq. lia.
Qed.

Lemma le_all_forall pop m a b :
  le_all pop m a b = true ↔ ∀ k, k < m → (at_ pop a k ≤ at_ pop b k)%Z.
Proof.
  unfold le_all. rewrite forallb_forall. split.
  - intros H k Hk. apply Z.leb_le, H, in_seq. lia.
  - intros H k Hk. apply Z.leb_le, H. apply in_seq in Hk. lia.
Qed.

(** ** Properties of the sorter *)

(** C2.  For a non-empty population with [m >= 1] objectives (minimised),
    [Sort] returns an ordered list of fronts that partitions the indices;
    the members of front 0 (indeed of every front) do not dominate one
    another, and whoever dominates a member of front [k] belongs to a front
    before [k].  This holds for every order [std::sort] may give to equal
    objective values.  On [{(1,4),(2,3),(3,2),(4,1)}] all four individuals
    land in front 0; on [{(1,1),(2,2),(3,3)}] the fronts are
    [{0}], [{1}], [{2}] in that order. *)
Theorem Sort_fronts_by_dominance fuel pop m idx :
  pop ≠ [] → 1 ≤ m → uniform pop m → sorted_idx pop m idx →
  length pop ≤ fuel →
  (∃ fronts,
      SortFrom fuel pop idx = Fronts fronts
      ∧ Sort fuel pop = Fronts fronts
      ∧ Permutation (concat fronts) (seq 0 (length pop))
      ∧ (∀ f x y, fronts !! 0 = Some f → In x f → In y f →
           dominates pop m y x = false)
      ∧ (∀ k f x y, fronts !! k = Some f → In x f → y < length pop →
           dominates pop m y x = true →
           ∃ k' f', k' < k ∧ fronts !! k' = Some f' ∧ In y f'))
  ∧ (pop = population_cross →
       SortFrom fuel pop idx = Fronts [[0; 1; 2; 3]])
  ∧ (pop = population_chain →
       SortFrom fuel pop idx = Fronts [[0]; [1]; [2]]).
Proof.
  intros Hne Hm Hu Hidx Hfuel.
  pose proof (SortFrom_any_sort fuel pop m idx Hne Hm Hu Hidx) as Hany.
  split; [|split].
  - destruct (SortFrom_spec fuel pop m idx Hne Hm Hu Hidx Hfuel)
      as (fronts & Hrun & Hperm & _ & Hmut & Hdom).
    exists fronts. rewrite <- Hany. repeat split; try done.
    intros f x y Hf. by apply (Hmut 0).
  - intros ->. rewrite Hany. simpl in Hfuel.
    destruct fuel as [|[|fuel]]; [lia..|]. vm_compute. reflexivity.
  - intros ->. rewrite Hany. simpl in Hfuel.
    destruct fuel as [|[|[|[|fuel]]]]; [lia..| |]; vm_compute; reflexivity.
Qed.

Lemma Sort_fronts_by_dominance_witness :
  SortFrom 4 population_cross (sorted_indices population_cross 2)
    = Fronts [[0; 1; 2; 3]].
Proof.
  refine (proj1 (proj2 (Sort_fronts_by_dominance 4 population_cross 2
            (sorted_indices population_cross 2) _ _ _ _ _)) eq_refl).
  - discriminate.
  - lia.
  - repeat constructor.
  - apply sorted_indices_sorted.
  - simpl. lia.
Defined.

(** C3, as the specification states it: the cell [Dm[i][j]] does NOT count the
    objectives on which [i] is not better than [j].  For the population
    [{(1), (2)}], individual 0 is better than individual 1 on the only
    objective, so that count is 0, yet the cell [(0, 1)] holds 1, both in
    the sum of the comparison matrices and in the final degree matrix. *)
Lemma degree_cell_is_not_count_of_not_better :
  mget (ComparisonMatrixSum population_pair (sorted_indices population_pair 1)) 0 1
    ≠ count_not_better population_pair 1 0 1
  ∧ mget (ComputeDegreeMatrix population_pair (sorted_indices population_pair 1) 1) 0 1
    ≠ count_not_better population_pair 1 0 1.
Proof. split; vm_compute; discriminate. Qed.

(** C3, amended.  [C[i][j] = 1] iff [j] is no better than [i] on the
    objective; the sum of the [m] comparison matrices counts in cell
    [(i, j)] the objectives on which [j] is not better than [i] (that is, [i]
    is no worse than [j]); both cells of a pair reach [m] exactly when the
    two individuals have identical fitness on all objectives, and exactly
    those pairs of cells are zero in the degree matrix, every other cell
    keeping the count. *)
Theorem degree_matrix_counts pop m idx :
  let n := length pop in
  let s := ComparisonMatrixSum pop idx in
  let d := ComputeDegreeMatrix pop idx m in
  pop ≠ [] → 1 ≤ m → uniform pop m → sorted_idx pop m idx →
  (∀ k i j, k < m → i < n → j < n →
     mget (ComputeComparisonMatrix pop idx k) i j =
       if decide (at_ pop i k ≤ at_ pop j k)%Z then 1%Z else 0%Z)
  ∧ (∀ i j, i < n → j < n → mget s i j = count_le pop m i j)
  ∧ (∀ i j, i < n → j < n →
       (mget s i j = Z.of_nat m ∧ mget s j i = Z.of_nat m)
       ↔ ∀ k, k < m → at_ pop i k = at_ pop j k)
  ∧ (∀ i j, i < n → j < n →
       mget d i j =
         if decide (mget s i j = Z.of_nat m ∧ mget s j i = Z.of_nat m)
         then 0%Z else mget s i j).
Proof.
  intros n s d Hne Hm Hu Hidx.
  destruct (ComparisonMatrixSum_spec pop m idx Hne Hm Hidx) as [_ Hsum].
  destruct (ComputeDegreeMatrix_spec pop m idx Hne Hm Hidx) as [_ Hdeg].
  fold n s in Hsum, Hdeg. fold d in Hdeg.
  split; [|split; [|split]].
  - intros k i j Hk Hi Hj.
    apply ComputeComparisonMatrix_spec; [done| |done..].
    destruct Hidx as [_ Hcols]. by apply Hcols.
  - done.
  - intros i j Hi Hj. rewrite !Hsum, !count_le_full, !le_all_forall by done.
    split.
    + intros [H1 H2] k Hk. specialize (H1 k Hk). specialize (H2 k Hk). lia.
    + intros H. split; intros k Hk; specialize (H k Hk); lia.
  - done.
Qed.

Lemma degree_matrix_counts_witness :
  mget (ComparisonMatrixSum population_pair (sorted_indices population_pair 1)) 0 1
    = count_le population_pair 1 0 1.
Proof.
  refine (proj1 (proj2 (degree_matrix_counts population_pair 1
            (sorted_indices population_pair 1) _ _ _ _)) 0 1 _ _).
  - discriminate.
  - lia.
  - repeat constructor.
  - apply sorted_indices_sorted.
  - simpl. lia.
  - simpl. lia.
Defined.

(** C10.  For a non-empty population whose individuals all carry the same
    number [m >= 1] of objectives, the front-peeling loop of [Sort] returns
    after at most [n] iterations, whatever order [std::sort] gave to equal
    values: no front is empty, and the fronts together contain every index
    exactly once.  On the empty population [Sort] has no defined result: it
    reads the fitness vector of the first individual. *)
Theorem Sort_terminates fuel pop m idx :
  pop ≠ [] → 1 ≤ m → uniform pop m → sorted_idx pop m idx →
  length pop ≤ fuel →
  (∃ fronts,
      SortFrom fuel pop idx = Fronts fronts
      ∧ Sort fuel pop = Fronts fronts
      ∧ Forall (λ f, f ≠ []) fronts
      ∧ length fronts ≤ length pop
      ∧ Permutation (concat fronts) (seq 0 (length pop))
      ∧ NoDup (concat fronts))
  ∧ Sort fuel [] = Undefined.
Proof.
  intros Hne Hm Hu Hidx Hfuel. split; [|done].
  destruct (SortFrom_spec fuel pop m idx Hne Hm Hu Hidx Hfuel)
    as (fronts & Hrun & Hperm & Hnon & _).
  exists fronts.
  rewrite <- (SortFrom_any_sort fuel pop m idx Hne Hm Hu Hidx).
  repeat split; try done.
  - apply Permutation_length in Hperm. rewrite length_seq in Hperm.
    rewrite <- Hperm. clear -Hnon.
    induction Hnon as [|f fs Hf _ IH]; simpl; [lia|].
    rewrite length_app. destruct f; [done|]. simpl. lia.
  - rewrite Hperm. apply NoDup_seq.
Qed.

Lemma Sort_terminates_witness :
  ∃ fronts, Sort 3 population_chain = Fronts fronts ∧ Forall (λ f, f ≠ []) fronts.
Proof.
  destruct (proj1 (Sort_terminates 3 population_chain 2
              (sorted_indices population_chain 2)
              ltac:(discriminate) ltac:(lia) ltac:(repeat constructor)
              (sorted_indices_sorted _ _) ltac:(simpl; lia)))
    as (fronts & _ & Hrun & Hnon & _).
  exists fronts. split; assumption.
Defined.

End SorterProofs.

(** * Proofs: random tree creation *)

Section CreatorProofs.
Import Creator.
Context {dist : UniformInt}.

Lemma repeat_grow_ext arity (f g : RandomDevice * list Node
                                    → option (RandomDevice * list Node)) st :
  (∀ st, f st = g st) → repeat_grow arity f st = repeat_grow arity g st.
Proof.
  intros Hfg. unfold repeat_grow.
  induction arity as [|a IH]; simpl; [done|].
  rewrite IH. clear IH. destruct (Nat.iter a _ _); simpl; [apply Hfg|done].
Qed.

(** [Grow] never reads [maxLength]. *)
Lemma Grow_ignores_maxLength grammar partials (maxLength maxLength' : N) maxDepth :
  ∀ st, Grow grammar partials maxLength maxDepth st
        = Grow grammar partials maxLength' maxDepth st.
Proof.
  induction maxDepth as [|d IH]; intros [random nodes]; simpl; [done|].
  destruct (SampleProportional random partials) as [[node random']|]; [|done].
  simpl. by apply repeat_grow_ext.
Qed.

(** C8, on the code: the tree creator does not keep the node count within
    [maxLength].  Constructed with depth 2 and any length, on a grammar
    with addition and constants and a generator whose draws are all 1/4,
    it returns a tree of 7 nodes: an addition of two additions of two
    constants.  The limit is handed down to [Grow] and never compared with
    anything. *)
Theorem GrowTreeCreator_exceeds_maxLength (maxLength : N) :
  ∃ tree random',
    GrowTreeCreator 2 maxLength random_quarter grammar_add_const one_variable
      = Some (tree, random')
    ∧ Type_ <$> tree = [Constant; Constant; Add; Constant; Constant; Add; Add]
    ∧ length tree = 7.
Proof. eexists _, _. split; [vm_compute; reflexivity|]. split; reflexivity. Qed.

End CreatorProofs.

(** * Proofs: reverse-mode derivative rules *)

Section AutodiffProofs.
Import Autodiff.
Context {Arr : Type} {ops : ArrayOps Arr}.
Implicit Types (rnodes : list (@RNode Arr)) (values : list Arr).

Local Open Scope Z_scope.

Lemma getZ_Ok {A} (l : list A) i a :
  getZ l i = Ok a ↔ 0 ≤ i ∧ l !! Z.to_nat i = Some a.
Proof.
  unfold getZ, lookupZ. destruct (Z.ltb_spec i 0).
  - split; [done|]. lia.
  - destruct (l !! Z.to_nat i) as [b|].
    + split; [by intros [= ->]|by intros [_ [= ->]]].
    + split; [done|by intros [_ ?]].
Qed.

Lemma getZ_not_Throw {A} (l : list A) i msg : getZ l i ≠ Throw msg.
Proof. unfold getZ. by destruct (lookupZ l i). Qed.

Lemma getP_not_Throw rnodes j msg : getP rnodes j ≠ Throw msg.
Proof. unfold getP, getZ. by destruct (lookupZ rnodes j). Qed.

Lemma setD_not_Throw rnodes i x v msg : setD rnodes i x v ≠ Throw msg.
Proof.
  unfold setD, getZ. destruct (lookupZ rnodes i); simpl; [|done].
  by destruct (_ <? _)%nat.
Qed.

Lemma setD_Ok rnodes i x v r :
  getZ rnodes i = Ok r → (x < length (D r))%nat →
  setD rnodes i x v
    = Ok (<[Z.to_nat i := {| P := P r; D := <[x := v]> (D r) |}]> rnodes).
Proof.
  intros Hr Hx. unfold setD. rewrite Hr. simpl.
  by rewrite (proj2 (Nat.ltb_lt _ _)).
Qed.

Lemma setD_inv rnodes i x v rnodes' :
  setD rnodes i x v = Ok rnodes' →
  ∃ r, getZ rnodes i = Ok r ∧ (x < length (D r))%nat
       ∧ rnodes' = <[Z.to_nat i := {| P := P r; D := <[x := v]> (D r) |}]> rnodes.
Proof.
  unfold setD. destruct (getZ rnodes i) as [r| |] eqn:E; simpl; [|done..].
  destruct (Nat.ltb_spec x (length (D r))); [|done].
  intros [= <-]. eauto.
Qed.

Lemma getZ_setD rnodes i x v rnodes' j :
  setD rnodes i x v = Ok rnodes' →
  getZ rnodes' j =
    if decide (i = j)
    then r ← getZ rnodes i; Ok {| P := P r; D := <[x := v]> (D r) |}
    else getZ rnodes j.
Proof.
  intros (r & Hr & Hx & ->)%setD_inv.
  pose proof Hr as [Hi Hl]%getZ_Ok.
  destruct (decide (i = j)) as [<-|Hne].
  - rewrite Hr. simpl. apply getZ_Ok. split; [done|].
    apply list_lookup_insert_eq. by eapply lookup_lt_Some.
  - unfold getZ, lookupZ. destruct (Z.ltb_spec j 0); [done|].
    rewrite list_lookup_insert_ne by lia. done.
Qed.

Lemma getP_setD rnodes i x v rnodes' j :
  setD rnodes i x v = Ok rnodes' → getP rnodes' j = getP rnodes j.
Proof.
  intros Hs. unfold getP. rewrite (getZ_setD _ _ _ _ _ _ Hs).
  case_decide; [subst j|done].
  apply setD_inv in Hs as (r & -> & _). done.
Qed.

Lemma getD_setD rnodes i x v rnodes' i' x' :
  setD rnodes i x v = Ok rnodes' →
  getD rnodes' i' x' =
    if decide (i = i' ∧ x = x') then Some v else getD rnodes i' x'.
Proof.
  intros Hs. unfold getD. rewrite (getZ_setD _ _ _ _ _ _ Hs).
  apply setD_inv in Hs as (r & Hr & Hx & _).
  destruct (decide (i = i')) as [<-|Hne].
  - rewrite Hr. simpl. rewrite list_lookup_insert.
    destruct (decide (x = x')) as [<-|].
    + by rewrite !decide_True.
    + by rewrite !decide_False by tauto.
  - by rewrite decide_False by tauto.
Qed.

Lemma setD_length rnodes i x v rnodes' r :
  setD rnodes i x v = Ok rnodes' → getZ rnodes i = Ok r →
  ∃ r', getZ rnodes' i = Ok r' ∧ length (D r') = length (D r).
Proof.
  intros Hs Hr. rewrite (getZ_setD _ _ _ _ _ _ Hs), decide_True, Hr by done.
  simpl. eexists. split; [done|]. simpl. by rewrite length_insert.
Qed.

(** ** The division rule *)

(** C1.  At a [Div] node with more than two children the rule throws
    [std::runtime_error] with the message "derivative of division with more
    than 2 children is not supported" before it writes anything.  With at
    most two children it never throws.  With one child at index [j = i - 1]
    it returns with [D[0] = -P / value²], [P] and [value] being the adjoint
    field and the cached forward value of the child.  With two children at
    [j = i - 1] and [k = j - (nodes[j].Length + 1)] it returns with the
    quotient rule [D[0] = P_j / value_k] and
    [D[1] = -P_k * value_j / value_k²]. *)
Theorem Derivative_Div_by_arity nodes values rnodes i n :
  getZ nodes i = Ok n →
  ((2 < Arity n)%nat →
     Derivative_Div nodes values rnodes i = Throw div_unsupported)
  ∧ ((Arity n ≤ 2)%nat →
       ∀ msg, Derivative_Div nodes values rnodes i ≠ Throw msg)
  ∧ (Arity n = 1%nat →
       ∀ ri pj vj,
         getZ rnodes i = Ok ri → (1 ≤ length (D ri))%nat →
         getP rnodes (i - 1) = Ok pj → getZ values (i - 1) = Ok vj →
         ∃ rnodes',
           Derivative_Div nodes values rnodes i = Ok rnodes'
           ∧ getD rnodes' i 0 = Some (adiv (aneg pj) (asquare vj)))
  ∧ (Arity n = 2%nat →
       ∀ ri nj pj pk vj vk,
         getZ rnodes i = Ok ri → (2 ≤ length (D ri))%nat →
         getZ nodes (i - 1) = Ok nj →
         let j := i - 1 in
         let k := j - (Z.of_nat (Length nj) + 1) in
         getP rnodes j = Ok pj → getP rnodes k = Ok pk →
         getZ values j = Ok vj → getZ values k = Ok vk →
         ∃ rnodes',
           Derivative_Div nodes values rnodes i = Ok rnodes'
           ∧ getD rnodes' i 0 = Some (adiv pj vk)
           ∧ getD rnodes' i 1 = Some (adiv (amul (aneg pk) vj) (asquare vk))).
Proof.
  intros Hn. unfold Derivative_Div. rewrite Hn. simpl.
  split; [|split; [|split]].
  - intros Ha. by rewrite (proj2 (Nat.ltb_lt _ _)).
  - intros Ha msg. rewrite (proj2 (Nat.ltb_ge _ _)) by done.
    destruct (getZ rnodes i) as [ri| |] eqn:Eri; simpl; [|by apply getZ_not_Throw in Eri|done].
    destruct (Arity n =? 1)%nat.
    { destruct (getP rnodes (i - 1)) as [pj| |] eqn:Epj; simpl;
        [|by apply getP_not_Throw in Epj|done].
      destruct (getZ values (i - 1)) as [vj| |] eqn:Evj; simpl;
        [|by apply getZ_not_Throw in Evj|done].
      apply setD_not_Throw. }
    destruct (Arity n =? 2)%nat; [|done].
    destruct (getZ nodes (i - 1)) as [nj| |] eqn:Enj; simpl;
      [|by apply getZ_not_Throw in Enj|done].
    destruct (getP rnodes (i - 1)) as [pj| |] eqn:Epj; simpl;
      [|by apply getP_not_Throw in Epj|done].
    destruct (getZ values _) as [vk| |] eqn:Evk; simpl;
      [|by apply getZ_not_Throw in Evk|done].
    destruct (setD rnodes i 0 _) as [r1| |] eqn:Er1; simpl;
      [|by apply setD_not_Throw in Er1|done].
    destruct (getP r1 _) as [pk| |] eqn:Epk; simpl;
      [|by apply getP_not_Throw in Epk|done].
    destruct (getZ values (i - 1)) as [vj| |] eqn:Evj; simpl;
      [|by apply getZ_not_Throw in Evj|done].
    apply setD_not_Throw.
  - intros Ha ri pj vj Hri Hlen Hpj Hvj. rewrite Ha, Hri, Hpj, Hvj. simpl.
    pose proof (setD_Ok rnodes i 0 (adiv (aneg pj) (asquare vj)) ri Hri
                  ltac:(lia)) as Hs.
    eexists. split; [exact Hs|].
    rewrite (getD_setD _ _ _ _ _ _ _ Hs). by rewrite decide_True.
  - intros Ha ri nj pj pk vj vk Hri Hlen Hnj Hpj Hpk Hvj Hvk.
    rewrite Ha, Hri, Hnj. simpl. rewrite Hpj. simpl. rewrite Hvk. simpl.
    pose proof (setD_Ok rnodes i 0 (adiv pj vk) ri Hri ltac:(lia)) as Hs1.
    rewrite Hs1. simpl.
    rewrite (getP_setD _ _ _ _ _ _ Hs1), Hpk. simpl. rewrite Hvj. simpl.
    destruct (setD_length _ _ _ _ _ _ Hs1 Hri) as (r1 & Hr1 & Hlen1).
    pose proof (setD_Ok _ i 1 (adiv (amul (aneg pk) vj) (asquare vk)) r1 Hr1
                  ltac:(lia)) as Hs2.
    eexists. split; [exact Hs2|].
    rewrite !(getD_setD _ _ _ _ _ _ _ Hs2), (getD_setD _ _ _ _ _ _ _ Hs1).
    rewrite decide_False by lia. rewrite !decide_True by done. done.
Qed.

(** ** The product rule *)

Lemma product_fold_None values (ks : list Z) :
  foldl (λ acc k, d ← acc; v ← lookupZ values k; Some (amul d v)) None ks = None.
Proof. induction ks as [|k ks IH]; simpl; [done|]. exact IH. Qed.

(** The inner loop multiplies the forward values of the indices other than
    [j], left to right. *)
Lemma mul_others_spec values j ks : ∀ d,
  mul_others values j ks d =
    match product_of_others values ks j d with
    | Some d' => Ok d'
    | None => OutOfRange
    end.
Proof.
  unfold product_of_others.
  induction ks as [|k ks IH]; intros d; simpl; [done|].
  destruct (Z.eqb_spec j k) as [->|Hne]; simpl; [apply IH|].
  unfold getZ. destruct (lookupZ values k) as [vk|]; simpl; [apply IH|].
  by rewrite product_fold_None.
Qed.

(** The outer loop: one write per enumerated child, into distinct slots. *)
Lemma mul_each_spec {nav : SubtreeNav} nodes values i ch : ∀ rnodes ri,
  getZ rnodes i = Ok ri →
  NoDup ch.*1 →
  (∀ x j, (x, j) ∈ ch →
     (x < length (D ri))%nat
     ∧ ∃ pj d, getP rnodes j = Ok pj
               ∧ product_of_others values (Indices nodes i) j pj = Some d) →
  ∃ rnodes' ri',
    mul_each nodes values i ch rnodes = Ok rnodes'
    ∧ getZ rnodes' i = Ok ri' ∧ length (D ri') = length (D ri)
    ∧ (∀ j, getP rnodes' j = getP rnodes j)
    ∧ (∀ x, x ∉ ch.*1 → getD rnodes' i x = getD rnodes i x)
    ∧ ∀ x j, (x, j) ∈ ch →
        ∃ pj, getP rnodes j = Ok pj
              ∧ is_Some (getD rnodes' i x)
              ∧ getD rnodes' i x
                  = product_of_others values (Indices nodes i) j pj.
Proof.
  induction ch as [|[x j] ch IH]; intros rnodes ri Hri Hnd Hch.
  - exists rnodes, ri. simpl. repeat split; try done.
    intros x j Hin. by apply elem_of_nil in Hin.
  - simpl in Hnd. apply NoDup_cons in Hnd as [Hx Hnd].
    destruct (Hch x j) as (Hlen & pj & d & Hpj & Hd); [by left|].
    simpl. rewrite Hpj. simpl. rewrite mul_others_spec, Hd. simpl.
    pose proof (setD_Ok rnodes i x d ri Hri Hlen) as Hs.
    rewrite Hs. simpl.
    destruct (setD_length _ _ _ _ _ _ Hs Hri) as (r1 & Hr1 & Hlen1).
    destruct (IH _ r1 Hr1 Hnd) as (rnodes' & ri' & Hrun & Hri' & Hlen' & HP & Hkeep & Hres).
    { intros x' j' Hin. destruct (Hch x' j') as (? & pj' & d' & ? & ?); [by right|].
      split; [lia|]. exists pj', d'. by rewrite (getP_setD _ _ _ _ _ _ Hs). }
    exists rnodes', ri'. split; [done|]. split; [done|]. split; [lia|].
    split; [|split].
    + intros j'. by rewrite HP, (getP_setD _ _ _ _ _ _ Hs).
    + intros x' Hx'. rewrite Hkeep.
      * rewrite (getD_setD _ _ _ _ _ _ _ Hs). rewrite decide_False; [done|].
        intros [_ <-]. apply Hx'. simpl. by left.
      * intros Hin. apply Hx'. simpl. by right.
    + intros x' j' Hin. apply elem_of_cons in Hin as [[= -> ->]|Hin].
      * exists pj. split; [done|].
        rewrite Hkeep by done. rewrite (getD_setD _ _ _ _ _ _ _ Hs).
        rewrite decide_True by done. by rewrite Hd.
      * destruct (Hres x' j' Hin) as (pj' & Hpj' & Hsome & Heq).
        exists pj'. by rewrite (getP_setD _ _ _ _ _ _ Hs) in Hpj'.
Qed.

(** C4, amended.  The product rule reads only the node array, the cached
    forward values and the [P] fields of the children's trace entries.
    At a [Mul] node with two children at [j = i - 1] and
    [k = j - (nodes[j].Length + 1)] it returns with
    [D[0] = P_j * value_k] and [D[1] = P_k * value_j], where [P_j] and
    [P_k] are the [P] fields of the trace entries of the two children.
    With any other number of children it returns with, for the child at
    position [x] and index [j], [D[x] = P_j] times the forward values of
    all other indices that [Indices] lists for the node, provided the
    positions that [Enumerate] hands out are distinct. *)
Theorem Derivative_Mul_products {nav : SubtreeNav} nodes values rnodes i n ri :
  getZ nodes i = Ok n → getZ rnodes i = Ok ri →
  (Arity n = 2%nat →
     ∀ nj pj pk vj vk,
       (2 ≤ length (D ri))%nat → getZ nodes (i - 1) = Ok nj →
       let j := i - 1 in
       let k := j - (Z.of_nat (Length nj) + 1) in
       getP rnodes j = Ok pj → getP rnodes k = Ok pk →
       getZ values j = Ok vj → getZ values k = Ok vk →
       ∃ rnodes',
         Derivative_Mul nodes values rnodes i = Ok rnodes'
         ∧ getD rnodes' i 0 = Some (amul pj vk)
         ∧ getD rnodes' i 1 = Some (amul pk vj))
  ∧ (Arity n ≠ 2%nat →
     let ch := Enumerate nodes i in
     NoDup ch.*1 →
     (∀ x j, (x, j) ∈ ch →
        (x < length (D ri))%nat
        ∧ ∃ pj d, getP rnodes j = Ok pj
                  ∧ product_of_others values (Indices nodes i) j pj = Some d) →
     ∃ rnodes',
       Derivative_Mul nodes values rnodes i = Ok rnodes'
       ∧ ∀ x j, (x, j) ∈ ch →
           ∃ pj, getP rnodes j = Ok pj
                 ∧ is_Some (getD rnodes' i x)
                 ∧ getD rnodes' i x
                     = product_of_others values (Indices nodes i) j pj).
Proof.
  intros Hn Hri. unfold Derivative_Mul. rewrite Hn. simpl. split.
  - intros Ha nj pj pk vj vk Hlen Hnj Hpj Hpk Hvj Hvk.
    rewrite Ha, Hnj. simpl. rewrite Hpj. simpl. rewrite Hvk. simpl.
    pose proof (setD_Ok rnodes i 0 (amul pj vk) ri Hri ltac:(lia)) as Hs1.
    rewrite Hs1. simpl.
    rewrite (getP_setD _ _ _ _ _ _ Hs1), Hpk. simpl. rewrite Hvj. simpl.
    destruct (setD_length _ _ _ _ _ _ Hs1 Hri) as (r1 & Hr1 & Hlen1).
    pose proof (setD_Ok _ i 1 (amul pk vj) r1 Hr1 ltac:(lia)) as Hs2.
    eexists. split; [exact Hs2|].
    rewrite !(getD_setD _ _ _ _ _ _ _ Hs2), (getD_setD _ _ _ _ _ _ _ Hs1).
    rewrite decide_False by lia. rewrite !decide_True by done. done.
  - intros Ha Hnd Hch.
    rewrite (proj2 (Nat.eqb_neq _ _)) by done.
    destruct (mul_each_spec nodes values i (Enumerate nodes i) rnodes ri Hri Hnd Hch)
      as (rnodes' & ri' & Hrun & _ & _ & _ & _ & Hres).
    exists rnodes'. split; done.
Qed.

End AutodiffProofs.

Lemma Derivative_Div_by_arity_witness :
  Autodiff.Derivative_Div (ops := Autodiff.Z_ops) Autodiff.nodes_ternary
      [2; 3; 5; 30]%Z Autodiff.trace_ternary 3
    = Autodiff.Throw Autodiff.div_unsupported
  ∧ ∃ rnodes',
      Autodiff.Derivative_Div (ops := Autodiff.Z_ops) Autodiff.nodes_binary
          [2; 12; 6]%Z Autodiff.trace_binary 2
        = Autodiff.Ok rnodes'
      ∧ Autodiff.getD rnodes' 2 0 = Some 4%Z
      ∧ Autodiff.getD rnodes' 2 1 = Some (-21)%Z.
Proof.
  split.
  - apply (proj1 (Derivative_Div_by_arity (ops := Autodiff.Z_ops)
                    Autodiff.nodes_ternary [2; 3; 5; 30]%Z
                    Autodiff.trace_ternary 3
                    {| Autodiff.Arity := 3; Autodiff.Length := 3 |} eq_refl)).
    simpl. lia.
  - apply (proj2 (proj2 (proj2 (Derivative_Div_by_arity (ops := Autodiff.Z_ops)
                    Autodiff.nodes_binary [2; 12; 6]%Z
                    Autodiff.trace_binary 2
                    {| Autodiff.Arity := 2; Autodiff.Length := 2 |} eq_refl)))
             eq_refl (Autodiff.trace 1 2) Autodiff.leaf 8%Z 7%Z 12%Z 2%Z
             eq_refl ltac:(simpl; lia) eq_refl eq_refl eq_refl eq_refl eq_refl).
Defined.

(** C4, as the specification states it: the two local derivatives of a
    binary product are NOT one adjoint [P] times the value of the other
    child.  The rule multiplies the value of the one child by the [P]
    field stored in the trace entry of the other, and the [P] field of the
    product node itself is not read.  With forward values 2 and 12 and [P]
    fields 7 and 8 in the children's entries (and 1 in the node's own) the
    rule writes [D = [16; 84]] = [8 * 2; 7 * 12], and no single [P] gives
    both, whichever child is taken first. *)
Lemma Mul_adjoint_is_per_child :
  ∃ rnodes',
    Autodiff.Derivative_Mul (ops := Autodiff.Z_ops) (nav := Autodiff.child_nav)
      Autodiff.nodes_binary [2; 12; 24]%Z Autodiff.trace_binary 2
      = Autodiff.Ok rnodes'
    ∧ Autodiff.getD rnodes' 2 0 = Some 16%Z
    ∧ Autodiff.getD rnodes' 2 1 = Some 84%Z
    ∧ ∀ p : Z,
        ¬ (Autodiff.getD rnodes' 2 0 = Some (p * 2)%Z
           ∧ Autodiff.getD rnodes' 2 1 = Some (p * 12)%Z)
        ∧ ¬ (Autodiff.getD rnodes' 2 0 = Some (p * 12)%Z
             ∧ Autodiff.getD rnodes' 2 1 = Some (p * 2)%Z).
Proof.
  eexists. split; [vm_compute; reflexivity|].
  split; [reflexivity|]. split; [reflexivity|].
  intros p. split; intros [H1 H2]; cbn in H1, H2;
    injection H1 as H1; injection H2 as H2; lia.
Qed.

Lemma Derivative_Mul_products_witness :
  ∃ rnodes',
    Autodiff.Derivative_Mul (ops := Autodiff.Z_ops) (nav := Autodiff.child_nav)
        Autodiff.nodes_ternary [2; 3; 5; 30]%Z Autodiff.trace_ternary 3
      = Autodiff.Ok rnodes'
    ∧ Autodiff.getD rnodes' 3 0 = Some 6%Z.
Proof.
  destruct (proj2 (Derivative_Mul_products (ops := Autodiff.Z_ops)
                     (nav := Autodiff.child_nav)
                     Autodiff.nodes_ternary [2; 3; 5; 30]%Z Autodiff.trace_ternary 3
                     {| Autodiff.Arity := 3; Autodiff.Length := 3 |}
                     (Autodiff.trace 1 3) eq_refl eq_refl))
    as (rnodes' & Hrun & Hres).
  - simpl. lia.
  - apply (bool_decide_unpack _). vm_compute. exact I.
  - intros x j Hin. vm_compute in Hin.
    repeat (apply elem_of_cons in Hin as [[= -> ->]|Hin]);
      [..|by apply elem_of_nil in Hin];
      (split; [simpl; lia|]); eexists _, _; split; reflexivity.
  - exists rnodes'. split; [exact Hrun|].
    destruct (Hres 0%nat 2%Z) as (pj & Hpj & _ & Heq).
    + vm_compute. left.
    + rewrite Heq. injection Hpj as <-. reflexivity.
Defined.

(** * Proofs: the evolutionary loop *)

Section GPProofs.
Import GP.
Context {scalar rand_t seed Node cstate : Type}.
Context {sops : ScalarOps scalar} {rops : RandOps rand_t seed}.
Context (Idx : nat) (Max : bool) (config : Config)
        (collab : @Collaborators scalar rand_t Node cstate)
        (report : bool) (sched : nat → nat * nat).

Local Abbreviation State := (@State scalar rand_t seed Node cstate).
Local Abbreviation Individual := (@Individual scalar Node).
Local Abbreviation Members := (@Members scalar Node).
Local Abbreviation for_each := (for_each (cstate := cstate) sched).
Local Abbreviation run_pending := (run_pending (cstate := cstate) sched).
Local Abbreviation create := (create (seed := seed) Idx Max collab).
Local Abbreviation evaluate := (evaluate (seed := seed) Idx Max collab).
Local Abbreviation iterate := (iterate (seed := seed) collab).
Local Abbreviation retry := (retry (rand_t := rand_t) collab).
Local Abbreviation worst := (worst (scalar := scalar) Max).
Local Abbreviation best_of := (best_of (Node := Node) Idx Max).
Local Abbreviation gen_body := (gen_body Idx Max config collab report sched).
Local Abbreviation gen_loop := (gen_loop Idx Max config collab report sched).
Local Abbreviation created := (created Idx Max config collab sched).
Local Abbreviation initialize := (initialize Idx Max config collab sched).
Local Abbreviation Run := (Run Idx Max config collab report sched).

(** ** The execution policy runs every work item *)

Lemma delete_pick {A} (l : list A) p x :
  l !! p = Some x →
  (∀ y, y ∈ l → y = x ∨ y ∈ delete p l) ∧ (∀ y, y ∈ delete p l → y ∈ l)
  ∧ S (length (delete p l)) = length l.
Proof.
  intros Hp. pose proof (take_drop_middle l p x Hp) as Hl.
  rewrite delete_take_drop. split; [|split].
  - intros y Hy. rewrite <- Hl in Hy.
    rewrite elem_of_app, elem_of_cons in Hy. rewrite elem_of_app. tauto.
  - intros y Hy. rewrite <- Hl. rewrite elem_of_app in Hy.
    rewrite elem_of_app, elem_of_cons. tauto.
  - rewrite <- Hl at 3. rewrite !length_app. simpl. lia.
Qed.

Lemma pick_in_range (c : nat) {A} (l : list A) :
  l ≠ [] → ∃ x, l !! (c `mod` length l) = Some x.
Proof.
  intros Hne. apply lookup_lt_is_Some_2.
  apply Nat.mod_upper_bound. by destruct l.
Qed.

Lemma run_pending_S (body : nat → nat → State → option State) n pending st :
  pending ≠ [] →
  run_pending body (S n) pending st =
    let '(c, t) := sched (clock st) in
    let p := c `mod` length pending in
    i ← pending !! p;
    st ← body t i (set_clock (S (clock st)) st);
    run_pending body n (delete p pending) st.
Proof. by destruct pending. Qed.

(** Every item runs exactly once.  If an item that is still [Todo],
    run from a state satisfying [I], returns in a state satisfying [I] in
    which it is [Done], no [Done] item is undone and every other [Todo]
    item is still to do, then [for_each] returns with all items [Done]. *)
Lemma run_pending_total (I : State → Prop) (Todo Done : nat → State → Prop)
    (body : nat → nat → State → option State) (items : list nat) :
  (∀ t i st, i ∈ items → I st → Todo i st →
     ∃ st', body t i (set_clock (S (clock st)) st) = Some st'
            ∧ I st' ∧ Done i st' ∧ (∀ j, Done j st → Done j st')
            ∧ ∀ j, j ≠ i → Todo j st → Todo j st') →
  ∀ n pending st,
    length pending = n → NoDup pending →
    (∀ i, i ∈ pending → i ∈ items ∧ Todo i st) → I st →
    ∃ st', run_pending body n pending st = Some st'
           ∧ I st' ∧ (∀ i, i ∈ pending → Done i st')
           ∧ ∀ j, Done j st → Done j st'.
Proof.
  intros Hbody. induction n as [|n IH]; intros pending st Hlen Hnd Hsub HI.
  - destruct pending; [|done]. exists st. simpl.
    repeat split; try done. intros i Hi. by apply elem_of_nil in Hi.
  - assert (Hne : pending ≠ []) by (by destruct pending).
    rewrite run_pending_S by done.
    destruct (sched (clock st)) as [c t].
    destruct (pick_in_range c pending Hne) as [i Hi].
    cbv zeta. rewrite Hi. simpl.
    destruct (delete_pick pending _ i Hi) as (Hsplit & Hback & Hl).
    assert (Hin : i ∈ pending) by (by eapply list_elem_of_lookup_2).
    destruct (Hbody t i st) as (st1 & Hrun & HI1 & HD1 & Hst1 & Htodo);
      [by apply Hsub|done|by apply Hsub|].
    rewrite Hrun. simpl.
    assert (Hnd' : NoDup (delete (c `mod` length pending) pending)).
    { rewrite delete_take_drop.
      rewrite <- (take_drop_middle pending _ i Hi) in Hnd.
      apply NoDup_app in Hnd as (H1 & H2 & H3).
      apply NoDup_cons in H3 as [H3 H4].
      apply NoDup_app. split; [done|]. split; [|done].
      intros y Hy Hy'. apply (H2 y Hy). by right. }
    assert (Hni : i ∉ delete (c `mod` length pending) pending).
    { rewrite delete_take_drop.
      rewrite <- (take_drop_middle pending _ i Hi) in Hnd.
      apply NoDup_app in Hnd as (H1 & H2 & H3).
      apply NoDup_cons in H3 as [H3 H4].
      rewrite elem_of_app. intros [Hy|Hy]; [|done].
      apply (H2 i Hy). by left. }
    destruct (IH (delete (c `mod` length pending) pending) st1)
      as (st' & Hrun' & HI' & HD' & Hst'); [lia|done| |done|].
    { intros j Hj. destruct (Hsub j (Hback j Hj)) as [? ?].
      split; [done|]. apply Htodo; [|done]. intros ->. done. }
    exists st'. split; [done|]. split; [done|]. split.
    + intros j Hj. destruct (Hsplit j Hj) as [->|Hj']; auto.
    + auto.
Qed.

Lemma for_each_total (I : State → Prop) (Todo Done : nat → State → Prop)
    (body : nat → nat → State → option State) (items : list nat) st :
  (∀ t i st, i ∈ items → I st → Todo i st →
     ∃ st', body t i (set_clock (S (clock st)) st) = Some st'
            ∧ I st' ∧ Done i st' ∧ (∀ j, Done j st → Done j st')
            ∧ ∀ j, j ≠ i → Todo j st → Todo j st') →
  NoDup items → (∀ i, i ∈ items → Todo i st) → I st →
  ∃ st', for_each body items st = Some st' ∧ I st' ∧ ∀ i, i ∈ items → Done i st'.
Proof.
  intros Hbody Hnd Htodo HI.
  destruct (run_pending_total I Todo Done body items Hbody (length items) items st)
    as (st' & ? & ? & ? & _); eauto.
Qed.

(** Whatever every item preserves, [for_each] preserves. *)
Lemma run_pending_preserves (I : State → Prop)
    (body : nat → nat → State → option State) (items : list nat) :
  (∀ t i st st', i ∈ items → I st →
     body t i (set_clock (S (clock st)) st) = Some st' → I st') →
  ∀ n pending st st',
    (∀ i, i ∈ pending → i ∈ items) → I st →
    run_pending body n pending st = Some st' → I st'.
Proof.
  intros Hbody. induction n as [|n IH]; intros pending st st' Hsub HI Hrun.
  - simpl in Hrun. by injection Hrun as <-.
  - destruct (decide (pending = [])) as [->|Hne];
      [simpl in Hrun; by injection Hrun as <-|].
    rewrite run_pending_S in Hrun by done.
    destruct (sched (clock st)) as [c t].
    destruct (pick_in_range c pending Hne) as [i Hi].
    cbv zeta in Hrun. rewrite Hi in Hrun. simpl in Hrun.
    destruct (delete_pick pending _ i Hi) as (_ & Hback & _).
    destruct (body t i _) as [st1|] eqn:Hb; [|done]. simpl in Hrun.
    eapply (IH _ st1); [|eapply Hbody|exact Hrun]; eauto.
    apply Hsub. by eapply list_elem_of_lookup_2.
Qed.

Lemma for_each_preserves (I : State → Prop)
    (body : nat → nat → State → option State) (items : list nat) st st' :
  (∀ t i st st', i ∈ items → I st →
     body t i (set_clock (S (clock st)) st) = Some st' → I st') →
  I st → for_each body items st = Some st' → I st'.
Proof.
  intros Hbody HI Hrun.
  eapply (run_pending_preserves I body items Hbody); eauto.
Qed.

(** Whatever an item establishes for good, [for_each] has established
    for every item when it returns. *)
Lemma run_pending_done (I : State → Prop) (Done : nat → State → Prop)
    (body : nat → nat → State → option State) (items : list nat) :
  (∀ t i st st', i ∈ items → I st →
     body t i (set_clock (S (clock st)) st) = Some st' →
     I st' ∧ Done i st' ∧ ∀ j, Done j st → Done j st') →
  ∀ n pending st st',
    length pending = n → (∀ i, i ∈ pending → i ∈ items) → I st →
    run_pending body n pending st = Some st' →
    I st' ∧ (∀ i, i ∈ pending → Done i st') ∧ ∀ j, Done j st → Done j st'.
Proof.
  intros Hbody. induction n as [|n IH]; intros pending st st' Hlen Hsub HI Hrun.
  - destruct pending; [|done]. simpl in Hrun. injection Hrun as <-.
    repeat split; try done. intros i Hi. by apply elem_of_nil in Hi.
  - assert (Hne : pending ≠ []) by (by destruct pending).
    rewrite run_pending_S in Hrun by done.
    destruct (sched (clock st)) as [c t].
    destruct (pick_in_range c pending Hne) as [i Hi].
    cbv zeta in Hrun. rewrite Hi in Hrun. simpl in Hrun.
    destruct (delete_pick pending _ i Hi) as (Hsplit & Hback & Hl).
    destruct (body t i _) as [st1|] eqn:Hb; [|done]. simpl in Hrun.
    assert (Hin : i ∈ pending) by (by eapply list_elem_of_lookup_2).
    destruct (Hbody t i st st1 (Hsub i Hin) HI Hb) as (HI1 & HD1 & Hkeep1).
    assert (Hlen' : length (delete (c `mod` length pending) pending) = n)
      by lia.
    destruct (IH _ st1 st' Hlen' (λ j Hj, Hsub j (Hback j Hj)) HI1 Hrun)
      as (HI' & HD' & Hkeep').
    split; [done|]. split; [|by auto].
    intros j Hj. destruct (Hsplit j Hj) as [->|Hj']; auto.
Qed.

Lemma for_each_done (I : State → Prop) (Done : nat → State → Prop)
    (body : nat → nat → State → option State) (items : list nat) st st' :
  (∀ t i st st', i ∈ items → I st →
     body t i (set_clock (S (clock st)) st) = Some st' →
     I st' ∧ Done i st' ∧ ∀ j, Done j st → Done j st') →
  I st → for_each body items st = Some st' →
  ∀ i, i ∈ items → Done i st'.
Proof.
  intros Hbody HI Hrun.
  by destruct (run_pending_done I Done body items Hbody (length items) items
                 st st' eq_refl (λ _ H, H) HI Hrun) as (_ & ? & _).
Qed.

(** ** Creation and evaluation of the parents *)

Local Abbreviation fresh := (fresh (seed := seed) Idx Max collab).
Local Abbreviation evaluated := (evaluated (seed := seed) Idx Max collab).

Lemma generate_length n (r : rand_t) : length (generate n r).1 = n.
Proof.
  revert r. induction n as [|n IH]; intros r; simpl; [done|].
  destruct (next r) as [s r1]. specialize (IH r1).
  destruct (generate n r1) as [l r2]. simpl in *. by rewrite IH.
Qed.

(** The creation phase returns, whatever the schedule; slot [i] holds the
    tree the creator builds from a generator seeded with [seeds[i]]. *)
Lemma created_spec random0 cs0 tls (this : Members) :
  let n := PopulationSize config in
  ∃ st, created random0 cs0 tls this = Some st
    ∧ seeds st = (generate n random0).1
    ∧ random st = (generate n random0).2
    ∧ length (parents st) = n
    ∧ offspring st = offspring_ this <$> seq 0 n
    ∧ terminate st = false ∧ reports st = []
    ∧ generation st = generation_ this
    ∧ ∀ i, i < n →
        ∃ s ind, seeds st !! i = Some s ∧ parents st !! i = Some ind
                 ∧ Genotype ind = (creator collab (seeded s)).1
                 ∧ Fitness ind Idx = worst ∧ fresh ind.
Proof.
  intros n. unfold GP.created. fold n.
  pose proof (generate_length n random0) as Hlen.
  destruct (generate n random0) as [sd r]. simpl in Hlen |- *.
  set (st0 := mkState _ _ _ _ _ _ _ _ _ _).
  destruct (for_each_total
    (λ st, seeds st = sd ∧ random st = r ∧ length (parents st) = n
           ∧ offspring st = offspring_ this <$> seq 0 n
           ∧ terminate st = false ∧ reports st = []
           ∧ generation st = generation_ this)
    (λ _ _, True)
    (λ i st, ∃ s ind, seeds st !! i = Some s ∧ parents st !! i = Some ind
                      ∧ Genotype ind = (creator collab (seeded s)).1
                      ∧ Fitness ind Idx = worst ∧ fresh ind)
    create (seq 0 n) st0) as (st & Hrun & HI & HD).
  - intros t i st Hi (Hs & Hr & Hp & Ho & Ht & Hrep & Hg) _.
    apply elem_of_seq in Hi.
    destruct (lookup_lt_is_Some_2 sd i) as [s Hsi]; [lia|].
    destruct (lookup_lt_is_Some_2 (parents st) i) as [ind Hind]; [lia|].
    unfold GP.create. simpl. rewrite Hs, Hsi, Hind. simpl.
    destruct (creator collab (seeded s)) as [g r'] eqn:Hc.
    set (new := set_fitness Idx {| Genotype := g; Fitness := Fitness ind |} worst).
    assert (Hnew : Genotype new = (creator collab (seeded s)).1
                   ∧ Fitness new Idx = worst ∧ fresh new).
    { rewrite Hc. subst new. simpl. rewrite decide_True by done.
      repeat split. exists s, (Fitness ind). by rewrite Hc. }
    eexists. split; [done|]. simpl.
    split; [by rewrite length_insert|]. split; [|split; [|done]].
    + exists s, new. rewrite Hs. split; [done|].
      split; [apply list_lookup_insert_eq; lia|done].
    + intros j (s' & ind' & Hs' & Hind' & Hrest). rewrite Hs.
      destruct (decide (i = j)) as [<-|Hne].
      * rewrite Hsi in Hs'. injection Hs' as <-.
        exists s, new. split; [done|].
        split; [apply list_lookup_insert_eq; lia|done].
      * exists s', ind'. rewrite list_lookup_insert_ne by done. done.
  - apply NoDup_seq.
  - done.
  - subst st0. simpl. rewrite length_fmap, length_seq. done.
  - exists st. destruct HI as (Hs & Hr & Hp & Ho & Ht & Hrep & Hg).
    repeat split; try done.
    intros i Hi. apply HD, elem_of_seq. lia.
Qed.

(** The evaluation phase returns as well, and leaves every parent
    evaluated. *)
Lemma initialize_spec random0 cs0 tls (this : Members) :
  let n := PopulationSize config in
  ∃ st, initialize random0 cs0 tls this = Some st
    ∧ length (parents st) = n
    ∧ offspring st = offspring_ this <$> seq 0 n
    ∧ terminate st = false ∧ reports st = []
    ∧ generation st = generation_ this
    ∧ Forall evaluated (parents st).
Proof.
  intros n. unfold GP.initialize.
  destruct (created_spec random0 cs0 tls this)
    as (st0 & Hrun0 & _ & _ & Hp0 & Ho0 & Ht0 & Hrep0 & Hg0 & Hall0).
  fold n in Hp0, Ho0, Hall0. rewrite Hrun0. simpl. fold n.
  destruct (for_each_total
    (λ st, length (parents st) = n ∧ offspring st = offspring_ this <$> seq 0 n
           ∧ terminate st = false ∧ reports st = []
           ∧ generation st = generation_ this)
    (λ i st, ∃ ind, parents st !! i = Some ind ∧ fresh ind)
    (λ i st, ∃ ind, parents st !! i = Some ind ∧ evaluated ind)
    evaluate (seq 0 n) st0) as (st & Hrun & HI & HD).
  - intros t i st Hi (Hp & Ho & Ht & Hrep & Hg) (ind & Hind & Hfr).
    apply elem_of_seq in Hi.
    unfold GP.evaluate. simpl. rewrite Hind. simpl.
    destruct (evaluator collab (shared st) (rndlocal st t) ind)
      as [[[f ind'] cs] r] eqn:He.
    set (new := set_fitness Idx ind' (if isfinite f then f else worst)).
    assert (Hnew : evaluated new).
    { exists ind, (shared st), (rndlocal st t). split; [done|]. by rewrite He. }
    eexists. split; [done|]. simpl.
    split; [by rewrite length_insert|]. split; [|split].
    + exists new. split; [apply list_lookup_insert_eq; lia|done].
    + intros j (ind2 & Hj & Hev).
      destruct (decide (i = j)) as [<-|Hne].
      * exists new. split; [apply list_lookup_insert_eq; lia|done].
      * exists ind2. by rewrite list_lookup_insert_ne.
    + intros j Hne (ind2 & Hj & Hfr2).
      exists ind2. by rewrite list_lookup_insert_ne.
  - apply NoDup_seq.
  - intros i Hi. apply elem_of_seq in Hi.
    destruct (Hall0 i ltac:(lia)) as (s & ind & _ & Hind & _ & _ & Hfr). eauto.
  - done.
  - exists st. destruct HI as (Hp & Ho & Ht & Hrep & Hg).
    repeat split; try done.
    apply Forall_lookup. intros i ind Hi.
    destruct (HD i) as (ind' & Hi' & Hev).
    { apply elem_of_seq. apply lookup_lt_Some in Hi. lia. }
    rewrite Hi in Hi'. by injection Hi' as <-.
Qed.

(** ** The pieces of a generation *)

Local Abbreviation backfill := (backfill (seed := seed) (rand_t := rand_t)
                                  (cstate := cstate) config).
Local Abbreviation backfill_at :=
  (backfill_at (scalar := scalar) (seed := seed) (rand_t := rand_t)
     (cstate := cstate) (Node := Node)).

(** [best] points into the range. *)
Lemma min_from_In (x : Individual) l :
  min_from Idx x l = x ∨ min_from Idx x l ∈ l.
Proof.
  revert x. induction l as [|y l IH]; intros x; simpl; [by left|].
  destruct (IH (if comp Idx y x then y else x)) as [E|E].
  - rewrite E. destruct (comp Idx y x); [right; by left|by left].
  - right. by right.
Qed.

Lemma max_from_In (x : Individual) l :
  max_from Idx x l = x ∨ max_from Idx x l ∈ l.
Proof.
  revert x. induction l as [|y l IH]; intros x; simpl; [by left|].
  destruct (IH (if comp Idx y x then x else y)) as [E|E].
  - rewrite E. destruct (comp Idx y x); [by left|right; by left].
  - right. by right.
Qed.

Lemma best_of_In l (b : Individual) : best_of l = Some b → b ∈ l.
Proof.
  unfold GP.best_of, minmax_element. destruct l as [|x l]; [done|]. simpl.
  intros [= <-]. destruct Max.
  - destruct (max_from_In x l) as [->|?]; [by left|by right].
  - destruct (min_from_In x l) as [->|?]; [by left|by right].
Qed.

Lemma best_of_is_Some (l : list Individual) : l ≠ [] → is_Some (best_of l).
Proof. destruct l; [done|]. intros _. by eexists. Qed.

(** The backfill loop: a slot whose genotype is empty receives the parent
    of the same index, nothing else changes. *)
Lemma backfill_prefix (st : State) k :
  k ≤ length (offspring st) → k ≤ length (parents st) →
  ∃ v, foldl (λ acc i, st ← acc; backfill_at st i) (Some st) (seq 0 k)
         = Some (set_offspring v st)
    ∧ length v = length (offspring st)
    ∧ ∀ i o, offspring st !! i = Some o →
        v !! i = Some (if decide (i < k)
                       then match Genotype o with
                            | [] => default o (parents st !! i)
                            | _ :: _ => o
                            end
                       else o).
Proof.
  induction k as [|k IH]; intros Ho Hp.
  - exists (offspring st). simpl. split; [by destruct st|]. split; [done|].
    by intros i o Hi.
  - destruct IH as (v & Hrun & Hlen & Hv); [lia..|].
    rewrite seq_S, foldl_app, Hrun. simpl.
    destruct (lookup_lt_is_Some_2 (offspring st) k) as [o Hok]; [lia|].
    destruct (lookup_lt_is_Some_2 (parents st) k) as [p Hpk]; [lia|].
    unfold GP.backfill_at. simpl.
    rewrite (Hv k o Hok), decide_False by lia. simpl. rewrite Hpk. simpl.
    destruct (Genotype o) as [|nd g] eqn:Hg.
    + exists (<[k := p]> v). split; [done|]. split; [by rewrite length_insert|].
      intros i o' Hi. destruct (decide (i = k)) as [->|Hne].
      * rewrite list_lookup_insert_eq by lia. rewrite decide_True by lia.
        rewrite Hok in Hi. injection Hi as <-. by rewrite Hg, Hpk.
      * rewrite list_lookup_insert_ne by done. rewrite (Hv i o' Hi).
        destruct (decide (i < k)); decide_lia; done.
    + exists v. split; [by destruct st|]. split; [done|].
      intros i o' Hi. rewrite (Hv i o' Hi).
      destruct (decide (i = k)) as [->|Hne].
      * rewrite Hok in Hi. injection Hi as <-.
        rewrite decide_False, decide_True by lia. by rewrite Hg.
      * destruct (decide (i < k)); decide_lia; done.
Qed.

Lemma backfill_spec (st : State) :
  length (offspring st) = PopulationSize config →
  length (parents st) = PopulationSize config →
  ∃ v, backfill st = Some (set_offspring v st)
    ∧ length v = PopulationSize config
    ∧ ∀ i o p, offspring st !! i = Some o → parents st !! i = Some p →
        v !! i = Some match Genotype o with [] => p | _ :: _ => o end.
Proof.
  intros Ho Hp.
  destruct (backfill_prefix st (PopulationSize config)) as (v & Hrun & Hlen & Hv);
    [lia..|].
  exists v. split; [done|]. split; [lia|].
  intros i o p Hi Hpi. rewrite (Hv i o Hi), Hpi. simpl.
  apply lookup_lt_Some in Hi. by rewrite decide_True by lia.
Qed.

Lemma backfill_frame (st st' : State) :
  backfill st = Some st' → ∃ v, st' = set_offspring v st.
Proof.
  unfold GP.backfill. generalize (seq 0 (PopulationSize config)). intros l.
  revert st'. induction l as [|i l IH] using rev_ind; intros st' Hbf.
  - simpl in Hbf. injection Hbf as <-. exists (offspring st). by destruct st.
  - rewrite foldl_app in Hbf. simpl in Hbf.
    destruct (foldl _ (Some st) l) as [stm|] eqn:Hm; [|done]. simpl in Hbf.
    destruct (IH stm eq_refl) as [v ->].
    unfold GP.backfill_at in Hbf. simpl in Hbf.
    destruct (v !! i); [|done]. simpl in Hbf.
    destruct (parents st !! i); [|done]. simpl in Hbf.
    injection Hbf as <-. destruct (Genotype _); simpl; eauto.
Qed.

(** What [iterate] leaves alone. *)
Lemma iterate_frame fuel t i (st st' : State) :
  iterate fuel t i st = Some st' →
  parents st' = parents st ∧ seeds st' = seeds st
  ∧ generation st' = generation st ∧ reports st' = reports st
  ∧ random st' = random st
  ∧ length (offspring st') = length (offspring st)
  ∧ ∀ j, j ≠ i → offspring st' !! j = offspring st !! j.
Proof.
  unfold GP.iterate. destruct (seeds st !! i) as [s|]; [|done]. simpl.
  destruct (retry fuel (shared st) (seeded s)) as [[[[o flag] cs] r]|]; [|done].
  simpl. destruct o as [ind|].
  - destruct (offspring st !! i); [|done]. simpl. intros [= <-]. simpl.
    repeat split; try done; [by rewrite length_insert|].
    intros j Hj. by rewrite list_lookup_insert_ne.
  - intros [= <-]. done.
Qed.

Lemma retry_recombinant fuel cs r ind flag cs' r' :
  retry fuel cs r = Some (Some ind, flag, cs', r') →
  flag = false ∧ ∃ cs1 r1, recombine collab cs1 r1 = (Some ind, cs', r').
Proof.
  revert cs r. induction fuel as [|fuel IH]; intros cs r; simpl; [done|].
  destruct (Terminate collab cs); [done|].
  destruct (recombine collab cs r) as [[o cs1] r1] eqn:E.
  destruct o as [ind1|]; [|apply IH].
  intros [= -> <- <- <-]. split; [done|]. eauto.
Qed.

Lemma retry_never_terminated fuel cs r o flag cs' r' :
  (∀ cs, Terminate collab cs = false) →
  retry fuel cs r = Some (o, flag, cs', r') → flag = false ∧ is_Some o.
Proof.
  intros HT. revert cs r. induction fuel as [|fuel IH]; intros cs r; simpl; [done|].
  rewrite HT. destruct (recombine collab cs r) as [[o1 cs1] r1].
  destruct o1 as [ind1|]; [|apply IH].
  intros [= <- <- <- <-]. split; [done|]. by eexists.
Qed.

(** The offspring phase leaves the parents, slot 0 of the offspring, the
    reports and the generation counter alone; every slot it fills holds a
    candidate of the recombinator. *)
Lemma offspring_phase (P : Individual → Prop) fuel (st st' : State) :
  for_each (iterate fuel) (seq 1 (PopulationSize config - 1)) st = Some st' →
  Forall P (offspring st) →
  (∀ cs r ind cs' r', recombine collab cs r = (Some ind, cs', r') → P ind) →
  parents st' = parents st ∧ seeds st' = seeds st
  ∧ generation st' = generation st ∧ reports st' = reports st
  ∧ length (offspring st') = length (offspring st)
  ∧ offspring st' !! 0 = offspring st !! 0
  ∧ Forall P (offspring st').
Proof.
  intros Hrun HP Hrec.
  apply (for_each_preserves
    (λ s, parents s = parents st ∧ seeds s = seeds st
          ∧ generation s = generation st ∧ reports s = reports st
          ∧ length (offspring s) = length (offspring st)
          ∧ offspring s !! 0 = offspring st !! 0
          ∧ Forall P (offspring s))
    (iterate fuel) (seq 1 (PopulationSize config - 1)) st st'); [|done|done].
  clear Hrun st'. intros t i s s' Hi (H1 & H2 & H3 & H4 & H5 & H6 & H7) Hit.
  apply elem_of_seq in Hi.
  pose proof (iterate_frame _ _ _ _ _ Hit) as (F1 & F2 & F3 & F4 & _ & F6 & F7).
  simpl in *.
  repeat split; try congruence.
  - rewrite F7 by lia. done.
  - unfold GP.iterate in Hit. simpl in Hit.
    destruct (seeds s !! i) as [sd|]; [|done]. simpl in Hit.
    destruct (retry fuel (shared s) (seeded sd)) as [[[[o flag] cs] r]|] eqn:Hre;
      [|done].
    simpl in Hit. destruct o as [ind|].
    + destruct (offspring s !! i) eqn:Hoi; [|done]. simpl in Hit.
      injection Hit as <-. simpl.
      apply Forall_insert; [done|].
      apply retry_recombinant in Hre as (_ & cs1 & r1 & Hre). eauto.
    + injection Hit as <-. done.
Qed.

(** Every execution of the loop body calls [report], when supplied, once,
    before it decides whether to return; the call observes the generation
    counter and the parents the body started with. *)
Lemma gen_body_reports fuel (st : State) r :
  gen_body fuel st = Some r →
  let rep := if report then [(generation st, parents st)] else [] in
  match r with
  | inl st1 =>
      reports st1 = reports st ++ rep ∧ generation st1 = generation st
      ∧ parents st1 = parents st ∧ terminate st1 = true
  | inr st1 =>
      reports st1 = reports st ++ rep ∧ generation st1 = generation st
  end.
Proof.
  unfold GP.gen_body.
  destruct (generate (PopulationSize config) (random st)) as [sd r0].
  simpl. destruct (best_of (parents st)) as [best|]; [|done]. simpl.
  set (st1 := if converged Max (Fitness best Idx) then _ else _).
  assert (H1 : parents st1 = parents st ∧ generation st1 = generation st
               ∧ reports st1 = reports st ∧ offspring st1 = offspring st).
  { subst st1. by destruct (converged Max (Fitness best Idx)). }
  destruct H1 as (Hp1 & Hg1 & Hr1 & Ho1).
  set (st2 := if report then _ else _).
  assert (H2 : parents st2 = parents st ∧ generation st2 = generation st
               ∧ terminate st2 = terminate st1
               ∧ offspring st2 = offspring st
               ∧ reports st2 = reports st
                   ++ (if report then [(generation st, parents st)] else [])).
  { subst st2. destruct report; simpl; rewrite ?Hp1, ?Hg1, ?Hr1, ?app_nil_r; done. }
  destruct H2 as (Hp2 & Hg2 & Ht2 & Ho2 & Hr2). clearbody st2. clear st1 Hp1 Hg1 Hr1 Ho1 Ht2.
  destruct (terminate st2) eqn:Ht.
  { intros [= <-]. done. }
  destruct (offspring st2 !! 0) as [o0|]; [|done]. simpl.
  destruct (for_each _ _ _) as [st3|] eqn:Hfe; [|done]. simpl.
  destruct (backfill st3) as [st4|] eqn:Hbf; [|done]. simpl.
  intros [= <-].
  apply (offspring_phase (λ _, True)) in Hfe as (F1 & F2 & F3 & F4 & F5 & F6 & _);
    [|by apply Forall_true|done].
  simpl in *.
  assert (Hb : reports st4 = reports st3 ∧ generation st4 = generation st3).
  { apply backfill_frame in Hbf as [v ->]. done. }
  destruct Hb as [Hb1 Hb2]. simpl. split; congruence.
Qed.

Local Abbreviation retries_within := (retries_within (rand_t := rand_t) collab).

(** The end of a loop body that did not return: slot 0 of the offspring
    held the best parent, every slot with an empty genotype received its
    parent, and the buffers were swapped. *)
Lemma gen_body_next (P : Individual → Prop) fuel (st st1 : State) :
  let n := PopulationSize config in
  gen_body fuel st = Some (inr st1) →
  length (parents st) = n → length (offspring st) = n →
  Forall P (offspring st) → (∀ b, b ∈ parents st → P b) →
  (∀ cs r ind cs' r', recombine collab cs r = (Some ind, cs', r') → P ind) →
  ∃ best offs,
    best_of (parents st) = Some best
    ∧ offs !! 0 = Some best ∧ length offs = n ∧ Forall P offs
    ∧ offspring st1 = parents st ∧ length (parents st1) = n
    ∧ ∀ i o p, offs !! i = Some o → parents st !! i = Some p →
        parents st1 !! i = Some match Genotype o with [] => p | _ :: _ => o end.
Proof.
  intros n. unfold GP.gen_body. fold n.
  destruct (generate n (random st)) as [sd r0].
  simpl. destruct (best_of (parents st)) as [best|] eqn:Hbest; [|done]. simpl.
  set (st1' := if converged Max (Fitness best Idx) then _ else _).
  assert (H1 : parents st1' = parents st ∧ offspring st1' = offspring st).
  { subst st1'. by destruct (converged Max (Fitness best Idx)). }
  destruct H1 as (Hp1 & Ho1).
  set (st2 := if report then _ else _).
  assert (H2 : parents st2 = parents st ∧ offspring st2 = offspring st).
  { subst st2. destruct report; simpl; rewrite ?Hp1, ?Ho1; done. }
  destruct H2 as (Hp2 & Ho2). clearbody st2. clear st1' Hp1 Ho1.
  destruct (terminate st2); [done|].
  destruct (offspring st2 !! 0) as [o0|] eqn:Ho0; [|done]. simpl.
  destruct (for_each _ _ _) as [st3|] eqn:Hfe; [|done]. simpl.
  destruct (backfill st3) as [st4|] eqn:Hbf; [|done]. simpl.
  intros [= <-] Hlp Hlo HP HPp Hrec.
  apply (offspring_phase P) in Hfe as (F1 & F2 & F3 & F4 & F5 & F6 & F7);
    [| |done].
  2:{ simpl. rewrite Ho2. apply Forall_insert; [done|].
      apply HPp. by eapply best_of_In. }
  simpl in *. rewrite length_insert in F5.
  rewrite list_lookup_insert_eq in F6 by (rewrite Ho2; apply lookup_lt_Some in Ho0; rewrite <- Ho2; done).
  destruct (backfill_spec st3) as (v & Hbf' & Hlv & Hv);
    [rewrite F5, Ho2; exact Hlo|rewrite F1, Hp2; exact Hlp|].
  rewrite Hbf' in Hbf. injection Hbf as <-.
  exists best, (offspring st3). simpl.
  split; [done|]. split; [done|]. split; [by rewrite F5, Ho2|].
  split; [done|]. split; [by rewrite F1, Hp2|]. split; [done|].
  intros i o p Hi Hpi. apply Hv; [done|]. by rewrite F1, Hp2.
Qed.

(** When the recombinator never reports termination, the offspring phase
    leaves a candidate of the recombinator in every slot from 1 on,
    whatever the slot held before. *)
Lemma offspring_phase_filled (P : Individual → Prop) fuel (st st' : State) :
  (∀ cs, Terminate collab cs = false) →
  (∀ cs r ind cs' r', recombine collab cs r = (Some ind, cs', r') → P ind) →
  for_each (iterate fuel) (seq 1 (PopulationSize config - 1)) st = Some st' →
  ∀ i, 1 ≤ i < PopulationSize config →
    ∃ x, offspring st' !! i = Some x ∧ P x.
Proof.
  intros HT Hrec Hrun i Hi.
  apply (for_each_done (λ _, True)
           (λ i s, ∃ x, offspring s !! i = Some x ∧ P x)
           (iterate fuel) (seq 1 (PopulationSize config - 1)) st st');
    [|done|done|apply elem_of_seq; lia].
  clear i Hi Hrun. intros t i s s' _ _ Hit. split; [done|].
  unfold GP.iterate in Hit. simpl in Hit.
  destruct (seeds s !! i) as [sd|]; [|done]. simpl in Hit.
  destruct (retry fuel (shared s) (seeded sd)) as [[[[o flag] cs] r]|] eqn:Hre;
    [|done].
  pose proof (retry_never_terminated _ _ _ _ _ _ _ HT Hre) as [-> [ind ->]].
  simpl in Hit.
  destruct (offspring s !! i) as [oi|] eqn:Hoi; [|done]. simpl in Hit.
  injection Hit as <-. simpl.
  apply retry_recombinant in Hre as (_ & cs1 & r1 & Hre).
  assert (Hlt : i < length (offspring s)) by (by eapply lookup_lt_Some).
  split.
  - exists ind. split; [by apply list_lookup_insert_eq|]. eauto.
  - intros j (x & Hx & HPx). destruct (decide (j = i)) as [->|Hne].
    + exists ind. split; [by apply list_lookup_insert_eq|]. eauto.
    + exists x. by rewrite list_lookup_insert_ne.
Qed.

(** The end of a loop body that did not return, when the recombinator
    never reports termination: every next parent is the best parent, a
    candidate of the recombinator, or a parent; nothing of what the
    offspring buffer held before is left. *)
Lemma gen_body_refilled (P : Individual → Prop) fuel (st st1 : State) :
  let n := PopulationSize config in
  (∀ cs, Terminate collab cs = false) →
  gen_body fuel st = Some (inr st1) →
  length (parents st) = n → length (offspring st) = n →
  Forall P (parents st) →
  (∀ cs r ind cs' r', recombine collab cs r = (Some ind, cs', r') → P ind) →
  offspring st1 = parents st ∧ length (parents st1) = n
  ∧ Forall P (parents st1).
Proof.
  intros n HT. unfold GP.gen_body. fold n.
  destruct (generate n (random st)) as [sd r0].
  simpl. destruct (best_of (parents st)) as [best|] eqn:Hbest; [|done]. simpl.
  set (st1' := if converged Max (Fitness best Idx) then _ else _).
  assert (H1 : parents st1' = parents st ∧ offspring st1' = offspring st).
  { subst st1'. by destruct (converged Max (Fitness best Idx)). }
  destruct H1 as (Hp1 & Ho1).
  set (st2 := if report then _ else _).
  assert (H2 : parents st2 = parents st ∧ offspring st2 = offspring st).
  { subst st2. destruct report; simpl; rewrite ?Hp1, ?Ho1; done. }
  destruct H2 as (Hp2 & Ho2). clearbody st2. clear st1' Hp1 Ho1.
  destruct (terminate st2); [done|].
  destruct (offspring st2 !! 0) as [o0|] eqn:Ho0; [|done]. simpl.
  destruct (for_each _ _ _) as [st3|] eqn:Hfe; [|done]. simpl.
  destruct (backfill st3) as [st4|] eqn:Hbf; [|done]. simpl.
  intros [= <-] Hlp Hlo HPp Hrec.
  pose proof (offspring_phase_filled P fuel _ _ HT Hrec Hfe) as Hfilled.
  apply (offspring_phase (λ _, True)) in Hfe as (F1 & F2 & F3 & F4 & F5 & F6 & _);
    [|by apply Forall_true|done].
  simpl in *. rewrite length_insert in F5.
  rewrite list_lookup_insert_eq in F6
    by (apply lookup_lt_Some in Ho0; done).
  destruct (backfill_spec st3) as (v & Hbf' & Hlv & Hv);
    [rewrite F5, Ho2; exact Hlo|rewrite F1, Hp2; exact Hlp|].
  rewrite Hbf' in Hbf. injection Hbf as <-. simpl.
  split; [by rewrite F1, Hp2|]. split; [done|].
  apply Forall_lookup. intros i x Hx.
  assert (Hi : i < n) by (apply lookup_lt_Some in Hx; lia).
  destruct (lookup_lt_is_Some_2 (offspring st3) i) as [o Hoi];
    [rewrite F5, Ho2; lia|].
  destruct (lookup_lt_is_Some_2 (parents st) i) as [p Hpi]; [lia|].
  rewrite (Hv i o p Hoi) in Hx by (by rewrite F1, Hp2).
  injection Hx as <-.
  pose proof (Forall_lookup_1 _ _ _ _ HPp Hpi) as Hp. simpl in Hp.
  destruct (Genotype o) eqn:Eg; [done|].
  destruct (decide (i = 0)) as [->|Hne].
  - rewrite F6 in Hoi. injection Hoi as <-.
    rewrite Forall_forall in HPp. apply HPp. by eapply best_of_In.
  - destruct (Hfilled i ltac:(fold n; lia)) as (x & Hx & HPx).
    rewrite Hoi in Hx. by injection Hx as <-.
Qed.

(** The loop body returns, by [return] or by reaching its end, when the
    population is not empty and the retry loops return. *)
Lemma gen_body_total fuel (st : State) :
  let n := PopulationSize config in
  retries_within fuel → 1 ≤ n →
  length (parents st) = n → length (offspring st) = n →
  is_Some (gen_body fuel st).
Proof.
  intros n Hretry Hn Hlp Hlo. unfold GP.gen_body. fold n.
  pose proof (generate_length n (random st)) as Hlen.
  destruct (generate n (random st)) as [sd r0]. simpl in Hlen |- *.
  destruct (best_of_is_Some (parents st)) as [best Hbest].
  { intros E. rewrite E in Hlp. simpl in Hlp. lia. }
  rewrite Hbest. simpl.
  set (st1' := if converged Max (Fitness best Idx) then _ else _).
  assert (H1 : parents st1' = parents st ∧ offspring st1' = offspring st
               ∧ seeds st1' = sd).
  { subst st1'. by destruct (converged Max (Fitness best Idx)). }
  destruct H1 as (Hp1 & Ho1 & Hs1).
  set (st2 := if report then _ else _).
  assert (H2 : parents st2 = parents st ∧ offspring st2 = offspring st
               ∧ seeds st2 = sd).
  { subst st2. destruct report; simpl; rewrite ?Hp1, ?Ho1, ?Hs1; done. }
  destruct H2 as (Hp2 & Ho2 & Hs2). clearbody st2. clear st1' Hp1 Ho1 Hs1.
  destruct (terminate st2); [by eexists|].
  destruct (lookup_lt_is_Some_2 (offspring st2) 0) as [o0 Ho0]; [rewrite Ho2; lia|].
  rewrite Ho0. simpl.
  destruct (for_each_total
    (λ s, length (seeds s) = n ∧ length (offspring s) = n
          ∧ length (parents s) = n)
    (λ _ _, True) (λ _ _, True) (iterate fuel) (seq 1 (n - 1))
    (set_shared (Prepare collab (shared st2) (parents st2))
       (set_offspring (<[0:=best]> (offspring st2)) st2)))
    as (st3 & Hfe & (_ & Hlo3 & Hlp3) & _).
  - intros t i s Hi (Hls & Hlos & Hlps) _. apply elem_of_seq in Hi.
    destruct (lookup_lt_is_Some_2 (seeds s) i) as [sdi Hsdi]; [lia|].
    destruct (lookup_lt_is_Some_2 (offspring s) i) as [oi Hoi]; [lia|].
    destruct (Hretry (shared s) (seeded sdi)) as [[[[o flag] cs] r] Hre].
    unfold GP.iterate. simpl. rewrite Hsdi. simpl. rewrite Hre. simpl.
    destruct o as [ind|].
    + rewrite Hoi. simpl. eexists. split; [done|]. simpl.
      rewrite length_insert. done.
    + eexists. split; [done|]. done.
  - apply NoDup_seq.
  - done.
  - simpl. rewrite length_insert. repeat split; congruence.
  - rewrite Hfe. simpl.
    destruct (backfill_spec st3) as (v & Hbf & _); [done..|].
    rewrite Hbf. simpl. by eexists.
Qed.

(** When the recombinator never reports termination and the best parent
    has not converged, the loop body reaches its end with the termination
    flag still clear. *)
Lemma gen_body_continues fuel (st : State) r :
  (∀ cs, Terminate collab cs = false) →
  terminate st = false →
  (∀ b, b ∈ parents st → converged Max (Fitness b Idx) = false) →
  gen_body fuel st = Some r →
  ∃ st1, r = inr st1 ∧ terminate st1 = false.
Proof.
  intros HT Ht Hconv. unfold GP.gen_body.
  destruct (generate (PopulationSize config) (random st)) as [sd r0].
  simpl. destruct (best_of (parents st)) as [best|] eqn:Hbest; [|done]. simpl.
  rewrite (Hconv best) by (by eapply best_of_In).
  set (st2 := if report then _ else _).
  assert (H2 : terminate st2 = false).
  { subst st2. destruct report; done. }
  clearbody st2. rewrite H2.
  destruct (offspring st2 !! 0) as [o0|]; [|done]. simpl.
  destruct (for_each _ _ _) as [st3|] eqn:Hfe; [|done]. simpl.
  destruct (backfill st3) as [st4|] eqn:Hbf; [|done]. simpl.
  intros [= <-]. eexists. split; [done|]. simpl.
  apply backfill_frame in Hbf as [v ->]. simpl.
  apply (for_each_preserves (λ s, terminate s = false)) in Hfe; [done| |done].
  intros t i s s' _ Hs. unfold GP.iterate. simpl.
  destruct (seeds s !! i) as [sdi|]; [|done]. simpl.
  destruct (retry fuel (shared s) (seeded sdi)) as [[[[o flag] cs] r1]|] eqn:Hre;
    [|done].
  apply (retry_never_terminated _ _ _ _ _ _ _ HT) in Hre as [-> _]. simpl.
  destruct o as [ind|].
  - destruct (offspring s !! i); [|done]. simpl. by intros [= <-].
  - by intros [= <-].
Qed.

(** ** Reporting and the generation count *)

Lemma evaluated_fitness (ind : Individual) :
  evaluated ind →
  ∃ ind0 cs r, fresh ind0
    ∧ Genotype ind = Genotype (evaluator collab cs r ind0).1.1.2
    ∧ Fitness ind Idx
        = if isfinite (evaluator collab cs r ind0).1.1.1
          then (evaluator collab cs r ind0).1.1.1 else worst.
Proof.
  intros (ind0 & cs & r & Hfr & ->). exists ind0, cs, r.
  simpl. by rewrite decide_True.
Qed.

(** With no termination condition other than the generation count, the
    loop runs all its [k] remaining iterations, reporting in each. *)
Lemma gen_loop_runs_all fuel k : ∀ st : State,
  let n := PopulationSize config in
  let Q := λ o : Individual, converged Max (Fitness o Idx) = false in
  (∀ cs, Terminate collab cs = false) → retries_within fuel → 1 ≤ n →
  (∀ cs r ind cs' r', recombine collab cs r = (Some ind, cs', r') → Q ind) →
  length (parents st) = n → length (offspring st) = n →
  terminate st = false →
  Forall Q (parents st) →
  ∃ stf new,
    gen_loop fuel k st = Some stf
    ∧ generation stf = generation st + k
    ∧ terminate stf = false
    ∧ reports stf = reports st ++ new
    ∧ new.*1 = if report then seq (generation st) k else [].
Proof.
  intros st n Q HT Hretry Hn Hrec. revert st.
  induction k as [|k IH]; intros st Hlp Hlo Ht HQ.
  - exists st, []. simpl. rewrite app_nil_r, Nat.add_0_r.
    repeat split; try done. by destruct report.
  - destruct (gen_body_total fuel st Hretry Hn Hlp Hlo) as [r Hr].
    destruct (gen_body_continues fuel st r HT Ht) as (st1 & -> & Ht1); [|done|].
    { intros b Hb. rewrite Forall_forall in HQ. by apply HQ. }
    pose proof (gen_body_reports fuel st _ Hr) as [Hrep Hgen]. simpl in Hrep.
    destruct (gen_body_refilled Q fuel st st1 HT Hr Hlp Hlo HQ Hrec)
      as (Hoff & Hlp1 & HQ1).
    fold n in Hlp1.
    destruct (IH (set_generation (S (generation st1)) st1))
      as (stf & new & Hrun & Hg & Htf & Hrf & Hnf); simpl; try done.
    + rewrite Hoff. done.
    + exists stf. eexists. simpl. rewrite Hr. simpl. split; [exact Hrun|].
      simpl in Hg. split; [lia|]. split; [done|].
      split; [rewrite Hrf; simpl; rewrite Hrep, <- app_assoc; done|].
      rewrite fmap_app, Hnf. simpl. destruct report; simpl; [|done].
      by rewrite Hgen.
Qed.

(** C6.  Every execution of the loop body calls the supplied callback
    once, before the termination flag is tested: the call is made on the
    path that returns as well as on the path that goes on, so the last
    generation is reported.  With [Generations = 10], a recombinator that
    never reports termination and no parent whose fitness comes within the
    convergence threshold, [Run] returns after exactly 10 generations, and
    the callback has fired exactly 10 times, once in each of the
    generations 0 to 9. *)
Theorem report_once_per_generation fuel random0 cs0 tls (this : Members) :
  report = true →
  Generations config = 10 → 1 ≤ PopulationSize config →
  (∀ cs, Terminate collab cs = false) → retries_within fuel →
  converged Max worst = false →
  (∀ cs r ind, isfinite (evaluator collab cs r ind).1.1.1 = true →
               converged Max (evaluator collab cs r ind).1.1.1 = false) →
  (∀ cs r ind cs' r', recombine collab cs r = (Some ind, cs', r') →
                      converged Max (Fitness ind Idx) = false) →
  (∀ fuel' st r, gen_body fuel' st = Some r →
     reports (after r) = reports st ++ [(generation st, parents st)])
  ∧ ∃ stf, Run fuel random0 cs0 tls this = Some stf
      ∧ generation stf = 10
      ∧ length (reports stf) = 10
      ∧ (reports stf).*1 = seq 0 10.
Proof.
  intros Hreport HG Hn HT Hretry Hw He Hrec. split.
  - intros fuel' st r Hr. pose proof (gen_body_reports fuel' st r Hr) as H.
    rewrite Hreport in H. destruct r; simpl in *; tauto.
  - unfold GP.Run.
    destruct (initialize_spec random0 cs0 tls this)
      as (st0 & Hinit & Hlp & Ho & Ht & Hrep & Hg & Hev).
    rewrite Hinit. simpl. rewrite HG.
    destruct (gen_loop_runs_all fuel 10 (set_generation 0 st0))
      as (stf & new & Hrun & Hgf & _ & Hrf & Hnew); simpl; try done.
    + by rewrite Ho, length_fmap, length_seq.
    + eapply Forall_impl; [exact Hev|]. simpl. intros ind Hind.
      apply evaluated_fitness in Hind as (ind0 & cs & r & _ & _ & ->).
      destruct (isfinite _) eqn:Hfin; [by apply He|done].
    + exists stf. split; [exact Hrun|]. simpl in *.
      rewrite Hrep in Hrf. simpl in Hrf. rewrite Hreport in Hnew.
      split; [lia|]. rewrite Hrf. split; [|done].
      rewrite <- (length_fmap fst), Hnew. done.
Qed.

(** ** Non-finite fitness *)

Local Abbreviation finite := (finite (Node := Node) Idx).

(** A property that the parents, the candidates of the recombinator and
    the offspring buffer (where the genotype is not empty) have is a
    property of every later parent population. *)
Lemma gen_loop_keeps (P : Individual → Prop) fuel k : ∀ st stf : State,
  let n := PopulationSize config in
  (∀ cs r ind cs' r', recombine collab cs r = (Some ind, cs', r') → P ind) →
  length (parents st) = n → length (offspring st) = n →
  Forall P (parents st) → Forall (λ o, Genotype o = [] ∨ P o) (offspring st) →
  Forall (λ r, Forall P r.2) (reports st) →
  gen_loop fuel k st = Some stf →
  Forall P (parents stf) ∧ Forall (λ r, Forall P r.2) (reports stf).
Proof.
  intros st stf n Hrec. revert st.
  induction k as [|k IH]; intros st Hlp Hlo HP Hoff Hrep; simpl.
  - by intros [= <-].
  - destruct (gen_body fuel st) as [r|] eqn:Hr; [|done]. simpl.
    pose proof (gen_body_reports fuel st r Hr) as Hreps. simpl in Hreps.
    assert (Hrep' : Forall (λ r, Forall P r.2)
              (reports st ++ if report then [(generation st, parents st)] else [])).
    { apply Forall_app. split; [done|]. destruct report; repeat constructor. done. }
    destruct r as [st1|st1].
    + intros [= <-]. destruct Hreps as (-> & _ & -> & _). done.
    + destruct Hreps as (Hreps & _).
      destruct (gen_body_next (λ o, Genotype o = [] ∨ P o) fuel st st1 Hr Hlp Hlo Hoff)
        as (best & offs & Hbest & Ho0 & Hlof & HPo & Hoff1 & Hlp1 & Hnew).
      { intros b Hb. right. rewrite Forall_forall in HP. by apply HP. }
      { intros cs r ind cs' r' Hre. right. by eapply Hrec. }
      fold n in Hlof, Hlp1.
      apply IH; simpl; [done|by rewrite Hoff1| |rewrite Hoff1|by rewrite Hreps].
      * apply Forall_lookup. intros i x Hx.
        assert (Hi : i < n) by (apply lookup_lt_Some in Hx; lia).
        destruct (lookup_lt_is_Some_2 offs i) as [o Hoi]; [lia|].
        destruct (lookup_lt_is_Some_2 (parents st) i) as [p Hpi]; [lia|].
        rewrite (Hnew i o p Hoi Hpi) in Hx. injection Hx as <-.
        pose proof (Forall_lookup_1 _ _ _ _ HPo Hoi) as Ho.
        pose proof (Forall_lookup_1 _ _ _ _ HP Hpi) as Hp. simpl in Ho, Hp.
        destruct (Genotype o) eqn:Eg; [done|]. by destruct Ho.
      * eapply Forall_impl; [exact HP|]. simpl. by right.
Qed.

(** C7, amended.  [worst] is the scalar minimum when maximising and the
    scalar maximum when minimising.  Whenever the evaluator returns a
    non-finite value for a parent, [evaluate] stores [worst] as the
    parent's primary fitness, and a finite value is stored as it is.  The
    creation and evaluation phases return under every schedule, and after
    them the primary fitness of every parent is finite, so the first
    ranking of the loop sees finite values only.  [evaluate] is applied to
    the initial parents and to nothing else: the populations ranked in the
    later generations, and the one [Run] ends with, hold finite values
    provided that every candidate of the recombinator has a finite primary
    fitness and so has whatever the offspring buffer held, with a genotype
    that is not empty, when [Run] was called. *)
Theorem non_finite_fitness_replaced random0 cs0 tls (this : Members) :
  isfinite (scalar_min (scalar := scalar)) = true →
  isfinite (scalar_max (scalar := scalar)) = true →
  worst = (if Max then scalar_min else scalar_max)
  ∧ (∀ t i (st st' : State) ind,
       evaluate t i st = Some st' → parents st !! i = Some ind →
       ∃ new, parents st' !! i = Some new
         ∧ let f := (evaluator collab (shared st) (rndlocal st t) ind).1.1.1 in
           (isfinite f = false → Fitness new Idx = worst)
           ∧ (isfinite f = true → Fitness new Idx = f))
  ∧ (∃ st, initialize random0 cs0 tls this = Some st
       ∧ length (parents st) = PopulationSize config
       ∧ (∀ ind, ind ∈ parents st → finite ind)
       ∧ ∀ b, best_of (parents st) = Some b → finite b)
  ∧ ∀ fuel stf,
      (∀ cs r ind cs' r', recombine collab cs r = (Some ind, cs', r') →
                          finite ind) →
      (∀ i, i < PopulationSize config →
            Genotype (offspring_ this i) = [] ∨ finite (offspring_ this i)) →
      Run fuel random0 cs0 tls this = Some stf →
      Forall finite (parents stf)
      ∧ Forall (λ r, Forall finite r.2) (reports stf).
Proof.
  intros Hmin Hmax.
  destruct (initialize_spec random0 cs0 tls this)
    as (st & Hinit & Hlp & Ho & _ & Hrep & _ & Hev).
  assert (Hall : ∀ ind, ind ∈ parents st → finite ind).
  { intros ind Hin. rewrite Forall_forall in Hev. unfold GP.finite.
    destruct (evaluated_fitness ind (Hev ind Hin)) as (ind0 & cs & r & _ & _ & ->).
    destruct (isfinite (evaluator collab cs r ind0).1.1.1) eqn:Hfin; [done|].
    unfold GP.worst. by destruct Max. }
  split; [done|]. split; [|split].
  - intros t i st1 st' ind Hev1 Hind. unfold GP.evaluate in Hev1.
    rewrite Hind in Hev1. simpl in Hev1.
    destruct (evaluator collab (shared st1) (rndlocal st1 t) ind)
      as [[[f ind'] cs] r].
    injection Hev1 as <-. simpl.
    eexists. split; [apply list_lookup_insert_eq; by eapply lookup_lt_Some|].
    simpl. rewrite decide_True by done. split; by intros ->.
  - exists st. split; [done|]. split; [done|]. split; [done|].
    intros b Hb. apply Hall. by eapply best_of_In.
  - intros fuel stf Hrec Hstale. unfold GP.Run. rewrite Hinit. simpl.
    apply (gen_loop_keeps finite); simpl; try done.
    + by rewrite Ho, length_fmap, length_seq.
    + by apply Forall_forall.
    + rewrite Ho. apply Forall_fmap, Forall_forall. intros i Hi.
      apply elem_of_seq in Hi. apply Hstale. lia.
    + by rewrite Hrep.
Qed.

(** ** Elitism *)

Local Abbreviation strict_weak_order := (strict_weak_order (scalar := scalar)).
Local Abbreviation not_worse := (not_worse (scalar := scalar) Max).
Local Abbreviation elitist := (elitist (Node := Node) Idx Max).
Local Abbreviation is_best := (is_best (Node := Node) Idx Max).

Section Ordered.
Variable ok : scalar → Prop.
Hypothesis Hswo : strict_weak_order ok.

Local Abbreviation okF := (admissible (Node := Node) Idx ok).
Local Abbreviation inv :=
  (elite_invariant (seed := seed) (rand_t := rand_t) (cstate := cstate)
     Idx config ok).

Lemma min_from_ok (x : Individual) l :
  okF x → Forall okF l → okF (min_from Idx x l).
Proof.
  intros Hx Hl. destruct (min_from_In x l) as [->|Hin]; [done|].
  rewrite Forall_forall in Hl. by apply Hl.
Qed.

Lemma max_from_ok (x : Individual) l :
  okF x → Forall okF l → okF (max_from Idx x l).
Proof.
  intros Hx Hl. destruct (max_from_In x l) as [->|Hin]; [done|].
  rewrite Forall_forall in Hl. by apply Hl.
Qed.

Lemma min_from_least (x : Individual) l y :
  okF x → Forall okF l → y = x ∨ y ∈ l →
  lt (Fitness y Idx) (Fitness (min_from Idx x l) Idx) = false.
Proof.
  destruct Hswo as (Hirr & Htr & Hnt). revert x y.
  induction l as [|z l IH]; intros x y Hx Hl Hy; simpl.
  - destruct Hy as [->|Hy]; [by apply Hirr|by apply elem_of_nil in Hy].
  - apply Forall_cons in Hl as [Hz Hl].
    rewrite elem_of_cons in Hy. unfold comp at 1.
    destruct (lt (Fitness z Idx) (Fitness x Idx)) eqn:Hzx.
    + destruct Hy as [->|[->|Hy]];
        [|apply IH; [done..|by left]|apply IH; [done..|by right]].
      destruct (lt (Fitness x Idx) (Fitness (min_from Idx z l) Idx)) eqn:E; [|done].
      rewrite <- (IH z z Hz Hl (or_introl eq_refl)). symmetry.
      eapply (Htr _ (Fitness x Idx)); try done. by apply min_from_ok.
    + destruct Hy as [->|[->|Hy]];
        [apply IH; [done..|by left]| |apply IH; [done..|by right]].
      eapply (Hnt _ (Fitness x Idx)); try done; [by apply min_from_ok|].
      apply IH; [done..|by left].
Qed.

Lemma max_from_greatest (x : Individual) l y :
  okF x → Forall okF l → y = x ∨ y ∈ l →
  lt (Fitness (max_from Idx x l) Idx) (Fitness y Idx) = false.
Proof.
  destruct Hswo as (Hirr & Htr & Hnt). revert x y.
  induction l as [|z l IH]; intros x y Hx Hl Hy; simpl.
  - destruct Hy as [->|Hy]; [by apply Hirr|by apply elem_of_nil in Hy].
  - apply Forall_cons in Hl as [Hz Hl].
    rewrite elem_of_cons in Hy. unfold comp at 1.
    destruct (lt (Fitness z Idx) (Fitness x Idx)) eqn:Hzx.
    + destruct Hy as [->|[->|Hy]];
        [apply IH; [done..|by left]| |apply IH; [done..|by right]].
      destruct (lt (Fitness (max_from Idx x l) Idx) (Fitness z Idx)) eqn:E; [|done].
      rewrite <- (IH x x Hx Hl (or_introl eq_refl)). symmetry.
      eapply (Htr _ (Fitness z Idx)); try done. by apply max_from_ok.
    + destruct Hy as [->|[->|Hy]];
        [|apply IH; [done..|by left]|apply IH; [done..|by right]].
      eapply (Hnt _ (Fitness z Idx)); try done; [by apply max_from_ok|].
      apply IH; [done..|by left].
Qed.

(** No member of the range is better than [best]. *)
Lemma best_of_not_worse l (b x : Individual) :
  Forall okF l → best_of l = Some b → x ∈ l →
  not_worse (Fitness b Idx) (Fitness x Idx).
Proof.
  intros Hl Hb Hx. unfold GP.best_of, minmax_element in Hb.
  destruct l as [|y l]; [done|]. simpl in Hb. injection Hb as <-.
  apply Forall_cons in Hl as [Hy Hl].
  apply elem_of_cons in Hx. unfold GP.not_worse. destruct Max.
  - by apply max_from_greatest.
  - by apply min_from_least.
Qed.

(** One generation: the best parent is carried into slot 0 of the next
    parents, and the invariant is kept. *)
Lemma gen_step_elite fuel (st st1 : State) :
  (∀ cs r ind cs' r', recombine collab cs r = (Some ind, cs', r') → okF ind) →
  inv st → gen_body fuel st = Some (inr st1) →
  inv st1
  ∧ ∃ best, best_of (parents st) = Some best ∧ parents st1 !! 0 = Some best.
Proof.
  intros Hrec (Hlp & Hlo & Hne & Hoff) Hr.
  destruct (gen_body_next (λ o, Genotype o = [] ∨ okF o) fuel st st1 Hr Hlp Hlo Hoff)
    as (best & offs & Hbest & Ho0 & Hlof & HPo & Hoff1 & Hlp1 & Hnew).
  { intros b Hb. right. rewrite Forall_forall in Hne. by apply Hne. }
  { intros cs r ind cs' r' Hre. right. by eapply Hrec. }
  split; [split; [done|]; split; [by rewrite Hoff1|]; split|].
  - apply Forall_lookup. intros i x Hx.
    assert (Hi : i < PopulationSize config) by (apply lookup_lt_Some in Hx; lia).
    destruct (lookup_lt_is_Some_2 offs i) as [o Hoi]; [lia|].
    destruct (lookup_lt_is_Some_2 (parents st) i) as [p Hpi]; [lia|].
    rewrite (Hnew i o p Hoi Hpi) in Hx. injection Hx as <-.
    pose proof (Forall_lookup_1 _ _ _ _ HPo Hoi) as Ho.
    pose proof (Forall_lookup_1 _ _ _ _ Hne Hpi) as Hp. simpl in Ho, Hp.
    destruct (Genotype o) eqn:Eg; [done|].
    rewrite Eg. split; [done|]. by destruct Ho.
  - rewrite Hoff1. eapply Forall_impl; [exact Hne|]. simpl. intros ? [_ ?]. by right.
  - exists best. split; [done|].
    pose proof (best_of_In _ _ Hbest) as Hin.
    destruct (lookup_lt_is_Some_2 (parents st) 0) as [p Hp0].
    { destruct (parents st); [by apply elem_of_nil in Hin|simpl; lia]. }
    rewrite (Hnew 0 best p Ho0 Hp0).
    rewrite Forall_forall in Hne. destruct (Hne best Hin) as [Hg _].
    by destruct (Genotype best).
Qed.

Lemma inv_ok_parents (st : State) : inv st → Forall okF (parents st).
Proof. intros (_ & _ & H & _). eapply Forall_impl; [exact H|]. by intros ? [_ ?]. Qed.

(** What [best] points to is a best individual of the range. *)
Lemma best_of_is_best l (b : Individual) :
  Forall okF l → best_of l = Some b → is_best l b.
Proof.
  intros Hl Hb. split; [by eapply best_of_In|].
  intros x Hx. by eapply best_of_not_worse.
Qed.

(** A best individual of a population that contains a best individual of
    another population is not worse than any best individual of that
    other population. *)
Lemma is_best_carried (p p' : list Individual) (e b b' : Individual) :
  Forall okF p → Forall okF p' →
  is_best p e → e ∈ p' → is_best p b → is_best p' b' →
  not_worse (Fitness b' Idx) (Fitness b Idx).
Proof.
  intros Hp Hp' [He Hbest] He' [Hb _] [Hb' Hbest'].
  destruct Hswo as (_ & _ & Hnt).
  rewrite Forall_forall in Hp. rewrite Forall_forall in Hp'.
  pose proof (Hbest' e He') as H1. pose proof (Hbest b Hb) as H2.
  unfold GP.not_worse in *. destruct Max.
  - eapply (Hnt _ (Fitness e Idx)); try done;
      [by apply Hp'|by apply Hp|by apply Hp].
  - eapply (Hnt _ (Fitness e Idx)); try done;
      [by apply Hp|by apply Hp|by apply Hp'].
Qed.

Lemma gen_loop_elitist fuel k : ∀ st : State,
  report = true → retries_within fuel → 1 ≤ PopulationSize config →
  (∀ cs r ind cs' r', recombine collab cs r = (Some ind, cs', r') → okF ind) →
  inv st →
  ∃ stf new,
    gen_loop fuel k st = Some stf
    ∧ reports stf = reports st ++ new
    ∧ elitist new.*2
    ∧ Forall (λ p, Forall okF p ∧ ∃ b, best_of p = Some b ∧ is_best p b) new.*2
    ∧ ∀ p, head new.*2 = Some p → p = parents st.
Proof.
  intros st Hreport Hretry Hn Hrec. revert st.
  induction k as [|k IH]; intros st Hinv.
  - exists st, []. simpl. by rewrite app_nil_r.
  - pose proof Hinv as (Hlp & Hlo & _).
    destruct (gen_body_total fuel st Hretry Hn Hlp Hlo) as [r Hr].
    pose proof (gen_body_reports fuel st r Hr) as Hrep.
    rewrite Hreport in Hrep. simpl in Hrep. simpl. rewrite Hr. simpl.
    pose proof (inv_ok_parents _ Hinv) as Hok.
    assert (Hhere : Forall okF (parents st)
                    ∧ ∃ b, best_of (parents st) = Some b
                           ∧ is_best (parents st) b).
    { split; [done|].
      destruct (best_of_is_Some (parents st)) as [b Hb].
      { intros E. rewrite E in Hlp. simpl in Hlp. lia. }
      exists b. split; [done|]. by apply best_of_is_best. }
    destruct r as [st1|st1].
    + destruct Hrep as (Hrep & _). exists st1, [(generation st, parents st)].
      split; [done|]. split; [done|]. split; [done|].
      split; [constructor; [done|constructor]|]. by intros p [= <-].
    + destruct Hrep as (Hrep & Hg).
      destruct (gen_step_elite fuel st st1 Hrec Hinv Hr)
        as (Hinv1 & best & Hbest & Hslot).
      destruct (IH (set_generation (S (generation st1)) st1) Hinv1)
        as (stf & new & Hrun & Hrf & Hel & Hbests & Hhd).
      exists stf, ((generation st, parents st) :: new).
      split; [done|]. simpl in Hrf.
      split; [by rewrite Hrf, Hrep, <- app_assoc|].
      rewrite fmap_cons. cbn [snd].
      split; [|split; [by constructor|by intros p [= <-]]].
      destruct (new.*2) as [|p' rest] eqn:Enew; [done|].
      cbn [GP.elitist]. split; [|done].
      specialize (Hhd p' eq_refl). simpl in Hhd. subst p'.
      intros b b' Hb Hb'.
      apply (is_best_carried (parents st) (parents st1) best b b');
        [done|by apply inv_ok_parents|by apply best_of_is_best| |done|done].
      by eapply list_elem_of_lookup_2.
Qed.


End Ordered.

End GPProofs.

(** ** Seeds and schedules *)

Lemma iterate_ignores_thread {scalar rand_t seed Node cstate : Type}
    {rops : GP.RandOps rand_t seed}
    (collab : @GP.Collaborators scalar rand_t Node cstate)
    fuel t t' i (f : nat → rand_t)
    (st : @GP.State scalar rand_t seed Node cstate) :
  (λ s, (GP.offspring s, GP.terminate s, GP.shared s))
     <$> GP.iterate collab fuel t i st
  = (λ s, (GP.offspring s, GP.terminate s, GP.shared s))
     <$> GP.iterate collab fuel t' i (GP.set_rndlocal f st).
Proof.
  unfold GP.iterate. simpl.
  destruct (GP.seeds st !! i) as [s|]; [|done]. simpl.
  destruct (GP.retry collab fuel (GP.shared st) (GP.seeded s))
    as [[[[o flag] cs] r]|]; [|done].
  simpl. destruct o as [ind|]; [|done].
  destruct (GP.offspring st !! i); done.
Qed.

(** C5, as the specification states it: two runs with the same top-level seed and
    the same configuration (each the first call on a freshly constructed
    object) do NOT always end with identical populations.
    First, [evaluate] draws from the thread-local generator as the last
    creation on that thread left it, so an evaluator that uses random
    numbers gives slot 0 the fitness 2200 when the creations ran in index
    order and 1200 when slot 1 was created first.  Second, the workers of
    the offspring phase share the recombinator's termination state: with
    a budget that allows one more candidate, the slot that runs first
    receives it and the other keeps its parent. *)
Lemma evaluation_depends_on_schedule :
  GP.final_fitness
    (GP.Run (sops := GP.fscalar_ops) (rops := GP.counter_rand) 0 false
       (GP.two_slots 0) GP.showing true GP.in_order 1 0 0
       (λ _, 0) GP.new_object)
  ≠ GP.final_fitness
    (GP.Run (sops := GP.fscalar_ops) (rops := GP.counter_rand) 0 false
       (GP.two_slots 0) GP.showing true GP.second_first 1 0 0
       (λ _, 0) GP.new_object)
  ∧ GP.final_genotypes
      (GP.Run (sops := GP.fscalar_ops) (rops := GP.counter_rand) 0 false
         (GP.three_slots 1) GP.budgeted true GP.in_order 1 0 0
       (λ _, 0) GP.new_object)
    ≠ GP.final_genotypes
      (GP.Run (sops := GP.fscalar_ops) (rops := GP.counter_rand) 0 false
         (GP.three_slots 1) GP.budgeted true GP.offspring_swapped 1 0 0
       (λ _, 0) GP.new_object).
Proof. split; vm_compute; discriminate. Qed.

(** C5, amended.  One seed per population slot is drawn from the top-level
    generator before any work is dispatched, and the creation of slot [k]
    starts from a generator seeded with [seeds[k]]: under any two
    schedules, and whatever the thread-local generators and the buffers
    held before, the
    creation phase returns with the same seed table and the same tree in
    every slot.  The offspring generation of slot [k] restarts from
    [seeds[k]] too: what it leaves does not depend on the thread that runs
    it nor on that thread's generator. *)
Theorem seeds_fix_creation {scalar rand_t seed Node cstate : Type}
    {sops : GP.ScalarOps scalar} {rops : GP.RandOps rand_t seed}
    (Idx : nat) (Max : bool) (config : GP.Config)
    (collab : @GP.Collaborators scalar rand_t Node cstate)
    (sched1 sched2 : nat → nat * nat) (tls1 tls2 : nat → rand_t)
    (this1 this2 : @GP.Members scalar Node)
    (random0 : rand_t) (cs0 : cstate) :
  (∃ st1 st2,
     GP.created Idx Max config collab sched1 random0 cs0 tls1 this1 = Some st1
     ∧ GP.created Idx Max config collab sched2 random0 cs0 tls2 this2 = Some st2
     ∧ GP.seeds st1 = (GP.generate (GP.PopulationSize config) random0).1
     ∧ GP.seeds st2 = GP.seeds st1
     ∧ GP.Genotype <$> GP.parents st1 = GP.Genotype <$> GP.parents st2
     ∧ ∀ k, k < GP.PopulationSize config →
         ∃ s ind, GP.seeds st1 !! k = Some s
                  ∧ GP.parents st1 !! k = Some ind
                  ∧ GP.Genotype ind = (GP.creator collab (GP.seeded s)).1)
  ∧ ∀ fuel t t' k (f : nat → rand_t)
      (st : @GP.State scalar rand_t seed Node cstate),
      (λ s, (GP.offspring s, GP.terminate s, GP.shared s))
         <$> GP.iterate collab fuel t k st
      = (λ s, (GP.offspring s, GP.terminate s, GP.shared s))
         <$> GP.iterate collab fuel t' k (GP.set_rndlocal f st).
Proof.
  split; [|intros; apply iterate_ignores_thread].
  destruct (created_spec Idx Max config collab sched1 random0 cs0 tls1 this1)
    as (st1 & Hrun1 & Hs1 & _ & Hl1 & _ & _ & _ & _ & Hall1).
  destruct (created_spec Idx Max config collab sched2 random0 cs0 tls2 this2)
    as (st2 & Hrun2 & Hs2 & _ & Hl2 & _ & _ & _ & _ & Hall2).
  exists st1, st2. split; [done|]. split; [done|]. split; [done|].
  split; [congruence|]. split.
  - apply (list_eq_same_length _ _ (GP.PopulationSize config));
      [by rewrite length_fmap..|].
    intros i g1 g2 Hi Hg1 Hg2.
    destruct (Hall1 i Hi) as (s1 & ind1 & Hsd1 & Hp1 & Hgen1 & _).
    destruct (Hall2 i Hi) as (s2 & ind2 & Hsd2 & Hp2 & Hgen2 & _).
    rewrite list_lookup_fmap, Hp1 in Hg1. rewrite list_lookup_fmap, Hp2 in Hg2.
    simpl in *. injection Hg1 as <-. injection Hg2 as <-.
    rewrite Hs2, <- Hs1, Hsd1 in Hsd2. injection Hsd2 as <-. congruence.
  - intros k Hk. destruct (Hall1 k Hk) as (s & ind & ? & ? & ? & _). eauto.
Qed.

(** ** The loop on a concrete instance *)

Lemma fscalar_strict_weak_order :
  GP.strict_weak_order (sops := GP.fscalar_ops) (λ a, a ≠ GP.NaN).
Proof.
  split; [|split].
  - intros [] _; simpl; [apply Z.ltb_irrefl|done..].
  - intros [x| | |] [y| | |] [z| | |] ? ? ?; simpl; try done;
      rewrite ?Z.ltb_lt; lia.
  - intros [x| | |] [y| | |] [z| | |] ? ? ?; simpl; try done;
      rewrite ?Z.ltb_ge; lia.
Qed.

Lemma showing_never_converges (r : nat) :
  GP.converged (sops := GP.fscalar_ops) false (GP.draw_fitness r) = false.
Proof.
  unfold GP.converged, GP.draw_fitness. simpl. apply Z.ltb_ge. lia.
Qed.

Lemma report_once_per_generation_witness :
  (λ st, (GP.generation st, length (GP.reports st)))
    <$> GP.Run (sops := GP.fscalar_ops) (rops := GP.counter_rand) 0 false
          (GP.two_slots 10) GP.showing true GP.in_order 1 0 0
          (λ _, 0) GP.new_object
  = Some (10, 10).
Proof.
  destruct (proj2 (report_once_per_generation (sops := GP.fscalar_ops)
                     (rops := GP.counter_rand) 0 false (GP.two_slots 10)
                     GP.showing true GP.in_order 1 0 0 (λ _, 0) GP.new_object
                     eq_refl eq_refl ltac:(simpl; lia)
                     (λ _, eq_refl)
                     (λ cs r, ex_intro _ _ eq_refl)
                     eq_refl
                     (λ cs r ind _, showing_never_converges r)
                     (λ cs r ind cs' r' H,
                        match H in _ = y
                        return match y.1.1 with
                               | Some i => GP.converged false (GP.Fitness i 0) = false
                               | None => True
                               end
                        with eq_refl => showing_never_converges r end)))
    as (stf & Hrun & Hg & Hl & _).
  rewrite Hrun. simpl. by rewrite Hg, Hl.
Defined.

(** C7, as the specification states it: a non-finite fitness does reach
    the ranking.  The fitness of an offspring is whatever the candidate of
    the recombinator carries; the loop stores the candidate and makes it a
    parent without looking at it.  With a recombinator whose candidates
    carry NaN, the population ranked in generation 1, and the one [Run]
    ends with, hold the elite and NaN. *)
Lemma offspring_fitness_not_checked :
  GP.ranked_fitness
    (GP.Run (sops := GP.fscalar_ops) (rops := GP.counter_rand) 0 false
       (GP.two_slots 2) GP.careless true GP.in_order 1 0 0
       (λ _, 0) GP.new_object)
  = Some [(0, [GP.Finite 2200; GP.Finite 2300]);
          (1, [GP.Finite 2200; GP.NaN])]
  ∧ GP.final_fitness
      (GP.Run (sops := GP.fscalar_ops) (rops := GP.counter_rand) 0 false
         (GP.two_slots 2) GP.careless true GP.in_order 1 0 0
         (λ _, 0) GP.new_object)
    = Some [GP.Finite 2200; GP.NaN].
Proof. split; vm_compute; reflexivity. Qed.

Lemma non_finite_fitness_replaced_witness :
  ∃ stf, GP.Run (sops := GP.fscalar_ops) (rops := GP.counter_rand) 0 false
           (GP.two_slots 2) GP.diverging true GP.in_order 1 0 0
           (λ _, 0) GP.new_object = Some stf
    ∧ Forall (GP.finite (sops := GP.fscalar_ops) 0) (GP.parents stf).
Proof.
  destruct (GP.Run (sops := GP.fscalar_ops) (rops := GP.counter_rand) 0 false
              (GP.two_slots 2) GP.diverging true GP.in_order 1 0 0
              (λ _, 0) GP.new_object) as [stf|] eqn:E.
  - exists stf. split; [reflexivity|].
    apply (proj2 (proj2 (proj2 (non_finite_fitness_replaced
                     (sops := GP.fscalar_ops) (rops := GP.counter_rand) 0 false
                     (GP.two_slots 2) GP.diverging true GP.in_order 0 0
                     (λ _, 0) GP.new_object eq_refl eq_refl))) 1 stf).
    + intros cs r ind cs' r' H. injection H as <- _ _. reflexivity.
    + intros i _. left. reflexivity.
    + exact E.
  - vm_compute in E. discriminate.
Defined.


(** * Further properties of the dominance-degree sorter *)

Section SorterLayers.
Import Sorter.

Lemma dominates_trans pop m a b c :
  dominates pop m a b = true → dominates pop m b c = true →
  dominates pop m a c = true.
Proof.
  unfold dominates. rewrite !lt_some_le_all, !andb_true_iff, !negb_true_iff.
  intros [Hab _] [Hbc Hcb]. split.
  - apply le_all_forall. intros k Hk.
    pose proof (proj1 (le_all_forall pop m a b) Hab k Hk).
    pose proof (proj1 (le_all_forall pop m b c) Hbc k Hk). lia.
  - destruct (le_all pop m c a) eqn:Hca; [|done].
    rewrite <- Hcb. symmetry. apply le_all_forall. intros k Hk.
    pose proof (proj1 (le_all_forall pop m a b) Hab k Hk).
    pose proof (proj1 (le_all_forall pop m c a) Hca k Hk). lia.
Qed.

Lemma dominates_irrefl pop m a : dominates pop m a a = false.
Proof.
  destruct (dominates pop m a a) eqn:E; [|done].
  apply dominates_total in E. lia.
Qed.

Lemma dominates_same_r pop m j x y :
  same_fitness pop m x y → dominates pop m j x = dominates pop m j y.
Proof.
  intros Hs. unfold dominates, le_all, lt_some.
  assert (H : ∀ k, In k (seq 0 m) → at_ pop x k = at_ pop y k).
  { intros k Hk. apply Hs. apply in_seq in Hk. lia. }
  f_equal; induction (seq 0 m) as [|k l IH]; simpl; try done;
    rewrite (H k) by (by left); f_equal; apply IH; intros k' Hk';
    apply H; by right.
Qed.

Lemma StronglySorted_seq a n : StronglySorted lt (seq a n).
Proof.
  revert a. induction n as [|n IH]; intros a; simpl; constructor; [done|].
  apply List.Forall_forall. intros x Hx. apply in_seq in Hx. lia.
Qed.

Lemma StronglySorted_filter {A} (R : A → A → Prop) (p : A → bool) l :
  StronglySorted R l → StronglySorted R (List.filter p l).
Proof.
  induction 1 as [|a l Hl IH Ha]; simpl; [constructor|].
  destruct (p a); [|done]. constructor; [done|].
  apply List.Forall_forall. intros x Hx. apply filter_In in Hx as [Hx _].
  rewrite List.Forall_forall in Ha. by apply Ha.
Qed.

(** What the test [std::all_of(..., d(j, i) < m)] decides. *)
Lemma undominated_front pop m d n tmp :
  (∀ x y, x < n → y < n →
     (mget d x y <? Z.of_nat m)%Z = negb (dominates pop m x y)) →
  (∀ x, In x tmp → x < n) →
  List.filter (undominated d (Z.of_nat m) tmp) tmp = pareto_front pop m tmp.
Proof.
  intros Hd Hlt. unfold pareto_front, undominated.
  assert (H : ∀ l, (∀ x, In x l → x < n) →
            List.filter (λ i, forallb (λ j, (mget d j i <? Z.of_nat m)%Z) tmp) l
            = List.filter (λ x, forallb (λ y, negb (dominates pop m y x)) tmp) l).
  { induction l as [|a l IH]; intros Hl; [done|]. simpl.
    assert (E : forallb (λ j, (mget d j a <? Z.of_nat m)%Z) tmp
              = forallb (λ y, negb (dominates pop m y a)) tmp).
    { assert (Ha : a < n) by (apply Hl; by left).
      clear -Hd Hlt Ha. induction tmp as [|j tmp IH]; [done|]. simpl.
      rewrite Hd by (try done; apply Hlt; by left). f_equal.
      apply IH. intros x Hx. apply Hlt. by right. }
    rewrite E, IH; [done|]. intros x Hx. apply Hl. by right. }
  by apply H.
Qed.

(** Whoever is dominated inside [tmp] is dominated by a member of the
    Pareto front of [tmp]. *)
Lemma dominated_by_front pop m tmp x :
  In x tmp → ¬ In x (pareto_front pop m tmp) →
  ∃ y, In y (pareto_front pop m tmp) ∧ dominates pop m y x = true.
Proof.
  intros Hx Hnot.
  set (doms := List.filter (λ j, dominates pop m j x) tmp).
  assert (Hne : doms ≠ []).
  { intros E. apply Hnot. apply filter_In. split; [done|].
    apply forallb_forall. intros j Hj.
    destruct (dominates pop m j x) eqn:Ej; [|done].
    assert (In j doms) as Hin by (apply filter_In; done).
    rewrite E in Hin. done. }
  destruct (min_total_exists pop m doms Hne) as (i & Hi & Hmin).
  apply filter_In in Hi as [Hi Hix].
  exists i. split; [|done].
  apply filter_In. split; [done|]. apply forallb_forall. intros z Hz.
  destruct (dominates pop m z i) eqn:Ez; [|done]. exfalso.
  assert (Hzx : dominates pop m z x = true) by (by eapply dominates_trans).
  assert (In z doms) as Hin by (apply filter_In; done).
  specialize (Hmin z Hin). apply dominates_total in Ez. lia.
Qed.

(** The front-peeling loop once more: the first front it appends is the
    Pareto front of [tmp], every front keeps the order of [tmp], every
    member of a later front is dominated by a member of the front just
    before, and individuals with the same fitness share their front. *)
Lemma peel_layers pop m d n :
  (∀ x y, x < n → y < n →
     (mget d x y <? Z.of_nat m)%Z = negb (dominates pop m x y)) →
  ∀ fuel tmp count fronts,
    (∀ x, In x tmp → x < n) →
    count = (Z.of_nat n - Z.of_nat (length tmp))%Z →
    length tmp ≤ fuel →
    ∃ fs, peel fuel d (Z.of_nat m) (Z.of_nat n) tmp count fronts
            = Fronts (fronts ++ fs)
      ∧ (tmp ≠ [] → fs !! 0 = Some (pareto_front pop m tmp))
      ∧ (tmp = [] → fs = [])
      ∧ (∀ k f x, fs !! k = Some f → In x f → In x tmp)
      ∧ (StronglySorted lt tmp → Forall (StronglySorted lt) fs)
      ∧ (∀ k f x, fs !! S k = Some f → In x f →
           ∃ f' y, fs !! k = Some f' ∧ In y f' ∧ dominates pop m y x = true)
      ∧ (∀ k f x y, fs !! k = Some f → In x f → In y tmp →
           same_fitness pop m x y → In y f).
Proof.
  intros Hd. induction fuel as [|fuel IH]; intros tmp count fronts Hlt Hc Hf.
  - destruct tmp; [|simpl in Hf; lia]. simpl in Hc.
    exists []. simpl. rewrite (proj2 (Z.ltb_ge _ _)) by lia.
    rewrite app_nil_r. repeat split; try done.
  - destruct (decide (tmp = [])) as [->|Hne].
    { simpl in Hc. exists []. simpl. rewrite (proj2 (Z.ltb_ge _ _)) by lia.
      rewrite app_nil_r. repeat split; try done. }
    assert (Hpos : 0 < length tmp) by (destruct tmp; [done|simpl; lia]).
    simpl. rewrite (proj2 (Z.ltb_lt _ _)) by lia.
    rewrite split_front_eq.
    rewrite (undominated_front pop m d n tmp Hd Hlt).
    set (p := undominated d (Z.of_nat m) tmp).
    set (front := pareto_front pop m tmp).
    set (remaining := List.filter (λ i, negb (p i)) tmp).
    assert (Hfr : front = List.filter p tmp).
    { symmetry. by apply (undominated_front pop m d n). }
    pose proof (filter_split_perm p tmp) as Hperm.
    fold remaining in Hperm. rewrite <- Hfr in Hperm.
    assert (Hlen : length front + length remaining = length tmp).
    { rewrite <- length_app. by apply Permutation_length. }
    assert (Hfront : front ≠ []).
    { destruct (min_total_exists pop m tmp Hne) as (i & Hi & Hmin).
      assert (Hin : In i front).
      { apply filter_In. split; [done|]. apply forallb_forall. intros j Hj.
        destruct (dominates pop m j i) eqn:E; [|done].
        apply dominates_total in E. specialize (Hmin j Hj). lia. }
      intros E. rewrite E in Hin. done. }
    assert (Hfpos : 0 < length front) by (destruct front; [done|simpl; lia]).
    assert (Hrem : ∀ x, In x remaining → In x tmp ∧ ¬ In x front).
    { intros x Hx. apply filter_In in Hx as [Hx Hpx]. split; [done|].
      rewrite Hfr. intros Hin. apply filter_In in Hin as [_ Hin].
      by rewrite Hin in Hpx. }
    destruct (IH remaining (count + Z.of_nat (length front))%Z (fronts ++ [front]))
      as (fs & Hrun & Hhd & Hnil & Hsub & Hsorted & Htight & Hsame).
    { intros x Hx. apply Hlt. by apply Hrem. }
    { lia. }
    { lia. }
    exists (front :: fs). split; [|split; [|split; [|split; [|split; [|split]]]]].
    + rewrite Hrun, <- app_assoc. done.
    + done.
    + done.
    + intros k f x Hk Hx. destruct k as [|k]; simpl in Hk.
      * injection Hk as <-. apply filter_In in Hx. tauto.
      * apply Hrem. by eapply Hsub.
    + intros Hs. constructor.
      * by apply StronglySorted_filter.
      * apply Hsorted. by apply StronglySorted_filter.
    + intros k f x Hk Hx. destruct k as [|k]; simpl in Hk.
      * destruct (Hrem x) as [Hxt Hxf]; [by eapply Hsub|].
        destruct (dominated_by_front pop m tmp x Hxt Hxf) as (y & Hy & Hyx).
        exists front, y. done.
      * destruct (Htight k f x Hk Hx) as (f' & y & ? & ? & ?).
        exists f', y. done.
    + intros k f x y Hk Hx Hy Hxy.
      assert (Hiff : In y front ↔ In x front).
      { unfold front, pareto_front. rewrite !filter_In.
        assert (Hxt : In x tmp).
        { destruct k as [|k]; simpl in Hk.
          - injection Hk as <-. apply filter_In in Hx. tauto.
          - apply Hrem. by eapply Hsub. }
        assert (E : forallb (λ z, negb (dominates pop m z x)) tmp
                  = forallb (λ z, negb (dominates pop m z y)) tmp).
        { clear -Hxy. induction tmp as [|z tmp IHt]; [done|]. simpl.
          by rewrite IHt, (dominates_same_r pop m z x y Hxy). }
        rewrite E. tauto. }
      destruct k as [|k]; simpl in Hk.
      * injection Hk as <-. by apply Hiff.
      * apply (Hsame k f x y Hk Hx); [|done].
        assert (Hxr : In x remaining) by (by eapply Hsub).
        apply filter_In. split; [done|]. apply negb_true_iff.
        destruct (p y) eqn:Hpy; [|done]. exfalso.
        apply (proj2 (Hrem x Hxr)). apply Hiff. rewrite Hfr.
        apply filter_In. done.
Qed.

Lemma SortFrom_layers fuel pop m idx :
  let n := length pop in
  pop ≠ [] → 1 ≤ m → uniform pop m → sorted_idx pop m idx → n ≤ fuel →
  ∃ fronts,
    SortFrom fuel pop idx = Fronts fronts
    ∧ fronts !! 0 = Some (pareto_front pop m (seq 0 n))
    ∧ Forall (StronglySorted lt) fronts
    ∧ (∀ k f x, fronts !! S k = Some f → In x f →
         ∃ f' y, fronts !! k = Some f' ∧ In y f' ∧ dominates pop m y x = true)
    ∧ (∀ k f x y, fronts !! k = Some f → In x f → y < n →
         same_fitness pop m x y → In y f).
Proof.
  intros n Hne Hm Hu Hidx Hfuel.
  destruct (peel_layers pop m (ComputeDegreeMatrix pop idx m) n) with
    (fuel := fuel) (tmp := seq 0 n) (count := 0%Z) (fronts := @nil (list nat))
    as (fs & Hrun & Hhd & _ & _ & Hsorted & Htight & Hsame).
  - intros x y Hx Hy. by apply degree_dominates.
  - intros x Hx. apply in_seq in Hx. lia.
  - rewrite length_seq. lia.
  - by rewrite length_seq.
  - exists fs. unfold SortFrom. rewrite (front_size_uniform pop m) by done.
    fold n. simpl in Hrun. split; [done|]. split; [|split; [|split]].
    + apply Hhd. subst n. destruct pop; [done|]. simpl. discriminate.
    + apply Hsorted, StronglySorted_seq.
    + done.
    + intros k f x y Hk Hx Hy Hxy. apply (Hsame k f x y); try done.
      apply in_seq. lia.
Qed.

(** The degree matrix [ComputeDegreeMatrix] returns, whatever order
    [std::sort] gave to equal values: every cell lies between 0 and the
    number of objectives [m], the diagonal is zero, a cell [(x, y)] holds
    [m] exactly when [x] dominates [y], and the cells [(x, y)] and
    [(y, x)] never both hold [m]. *)
Theorem degree_matrix_shape pop m idx :
  let n := length pop in
  let d := ComputeDegreeMatrix pop idx m in
  pop ≠ [] → 1 ≤ m → sorted_idx pop m idx →
  square n d
  ∧ ∀ x y, x < n → y < n →
      (0 ≤ mget d x y ≤ Z.of_nat m)%Z
      ∧ mget d x x = 0%Z
      ∧ (mget d x y = Z.of_nat m ↔ dominates pop m x y = true)
      ∧ (mget d x y = Z.of_nat m → (mget d y x < Z.of_nat m)%Z).
Proof.
  intros n d Hne Hm Hidx.
  destruct (ComputeDegreeMatrix_spec pop m idx Hne Hm Hidx) as [Hsq Hget].
  destruct (ComparisonMatrixSum_spec pop m idx Hne Hm Hidx) as [_ Hsum].
  fold n in Hget, Hsum. fold d in Hget, Hsq.
  split; [done|]. intros x y Hx Hy.
  assert (Hrange : ∀ a b, a < n → b < n → (0 ≤ mget d a b ≤ Z.of_nat m)%Z).
  { intros a b Ha Hb. rewrite Hget, !Hsum by done.
    pose proof (count_le_range pop m a b). case_decide; lia. }
  assert (Hiff : ∀ a b, a < n → b < n →
            mget d a b = Z.of_nat m ↔ dominates pop m a b = true).
  { intros a b Ha Hb.
    pose proof (degree_dominates pop m idx a b Hne Hm Hidx Ha Hb) as Hdd.
    fold d in Hdd. specialize (Hrange a b Ha Hb).
    destruct (dominates pop m a b); simpl in Hdd.
    - apply Z.ltb_ge in Hdd. split; [done|]. lia.
    - apply Z.ltb_lt in Hdd. split; [lia|done]. }
  split; [by apply Hrange|]. split; [|split; [by apply Hiff|]].
  - specialize (Hrange x x Hx Hx).
    pose proof (proj1 (Hiff x x Hx Hx)) as Hxx.
    rewrite Hget, !Hsum by done. case_decide as Hc; [done|].
    exfalso. apply Hc.
    assert (count_le pop m x x = Z.of_nat m); [|done].
    apply count_le_full, le_all_forall. intros. lia.
  - intros Hxy. apply Hiff in Hxy; [|done..].
    specialize (Hrange y x Hy Hx).
    destruct (decide (mget d y x = Z.of_nat m)) as [Hyx|]; [|lia].
    apply Hiff in Hyx; [|done..].
    apply dominates_total in Hxy, Hyx. lia.
Qed.

Lemma degree_matrix_shape_witness :
  mget (ComputeDegreeMatrix population_chain
          (sorted_indices population_chain 2) 2) 0 1 = 2%Z
  ↔ dominates population_chain 2 0 1 = true.
Proof.
  refine (proj1 (proj2 (proj2 (proj2 (degree_matrix_shape population_chain 2
            (sorted_indices population_chain 2) _ _ _) 0 1 _ _)))).
  - discriminate.
  - lia.
  - apply sorted_indices_sorted.
  - simpl. lia.
  - simpl. lia.
Defined.

(** The first front [Sort] returns lists exactly the individuals that no
    individual dominates, and the indices inside every front are in
    ascending order (the loop walks [tmp] from its first to its last
    element and [tmp] starts as [0, 1, ..., n-1]). *)
Theorem Sort_fronts_ascending fuel pop m idx :
  pop ≠ [] → 1 ≤ m → uniform pop m → sorted_idx pop m idx →
  length pop ≤ fuel →
  ∃ fronts,
    SortFrom fuel pop idx = Fronts fronts
    ∧ Sort fuel pop = Fronts fronts
    ∧ fronts !! 0 = Some (pareto_front pop m (seq 0 (length pop)))
    ∧ Forall (StronglySorted lt) fronts.
Proof.
  intros Hne Hm Hu Hidx Hfuel.
  destruct (SortFrom_layers fuel pop m idx Hne Hm Hu Hidx Hfuel)
    as (fronts & Hrun & Hhd & Hsorted & _).
  exists fronts.
  by rewrite <- (SortFrom_any_sort fuel pop m idx Hne Hm Hu Hidx).
Qed.

Lemma Sort_fronts_ascending_witness :
  ∃ fronts, Sort 4 population_ties = Fronts fronts
    ∧ Forall (StronglySorted lt) fronts.
Proof.
  destruct (Sort_fronts_ascending 4 population_ties 2
              (sorted_indices population_ties 2)
              ltac:(discriminate) ltac:(lia) ltac:(repeat constructor)
              (sorted_indices_sorted _ _) ltac:(simpl; lia))
    as (fronts & _ & Hrun & _ & Hs).
  exists fronts. split; assumption.
Defined.

(** The fronts are tight: every member of front [k + 1] is dominated by a
    member of front [k], so an individual sits in the earliest front that
    its dominators allow. *)
Theorem Sort_fronts_tight fuel pop m idx :
  pop ≠ [] → 1 ≤ m → uniform pop m → sorted_idx pop m idx →
  length pop ≤ fuel →
  ∃ fronts,
    SortFrom fuel pop idx = Fronts fronts
    ∧ ∀ k f x, fronts !! S k = Some f → In x f →
        ∃ f' y, fronts !! k = Some f' ∧ In y f'
                ∧ dominates pop m y x = true.
Proof.
  intros Hne Hm Hu Hidx Hfuel.
  destruct (SortFrom_layers fuel pop m idx Hne Hm Hu Hidx Hfuel)
    as (fronts & Hrun & _ & _ & Htight & _).
  by exists fronts.
Qed.

Lemma Sort_fronts_tight_witness :
  ∃ fronts,
    SortFrom 3 population_chain (sorted_indices population_chain 2)
      = Fronts fronts
    ∧ ∀ k f x, fronts !! S k = Some f → In x f →
        ∃ f' y, fronts !! k = Some f' ∧ In y f'
                ∧ dominates population_chain 2 y x = true.
Proof.
  apply (Sort_fronts_tight 3 population_chain 2
           (sorted_indices population_chain 2)
           ltac:(discriminate) ltac:(lia) ltac:(repeat constructor)
           (sorted_indices_sorted _ _) ltac:(simpl; lia)).
Defined.

(** Individuals with the same value on every objective are placed in the
    same front. *)
Theorem Sort_same_fitness_same_front fuel pop m idx :
  pop ≠ [] → 1 ≤ m → uniform pop m → sorted_idx pop m idx →
  length pop ≤ fuel →
  ∃ fronts,
    SortFrom fuel pop idx = Fronts fronts
    ∧ ∀ k f x y, fronts !! k = Some f → In x f → y < length pop →
        same_fitness pop m x y → In y f.
Proof.
  intros Hne Hm Hu Hidx Hfuel.
  destruct (SortFrom_layers fuel pop m idx Hne Hm Hu Hidx Hfuel)
    as (fronts & Hrun & _ & _ & _ & Hsame).
  by exists fronts.
Qed.

Lemma Sort_same_fitness_same_front_witness :
  ∃ fronts,
    SortFrom 4 population_ties (sorted_indices population_ties 2)
      = Fronts fronts
    ∧ ∀ k f, fronts !! k = Some f → In 0 f → In 2 f.
Proof.
  destruct (Sort_same_fitness_same_front 4 population_ties 2
              (sorted_indices population_ties 2)
              ltac:(discriminate) ltac:(lia) ltac:(repeat constructor)
              (sorted_indices_sorted _ _) ltac:(simpl; lia))
    as (fronts & Hrun & Hsame).
  exists fronts. split; [assumption|].
  intros k f Hk H0. apply (Hsame k f 0 2 Hk H0).
  - simpl. lia.
  - intros j Hj. destruct j as [|[|j]]; [reflexivity..|lia].
Defined.

(** [Sort] returns one single front exactly when no individual dominates
    another; the front then lists all indices in ascending order. *)
Theorem Sort_single_front fuel pop m idx :
  pop ≠ [] → 1 ≤ m → uniform pop m → sorted_idx pop m idx →
  length pop ≤ fuel →
  (∀ x y, x < length pop → y < length pop → dominates pop m x y = false)
  ↔ SortFrom fuel pop idx = Fronts [seq 0 (length pop)].
Proof.
  intros Hne Hm Hu Hidx Hfuel.
  destruct (SortFrom_layers fuel pop m idx Hne Hm Hu Hidx Hfuel)
    as (fronts & Hrun & Hhd & _).
  destruct (SortFrom_spec fuel pop m idx Hne Hm Hu Hidx Hfuel)
    as (fronts' & Hrun' & Hperm & Hnon & Hmut & _).
  rewrite Hrun in Hrun'. injection Hrun' as <-. rewrite Hrun.
  split.
  - intros Hno. f_equal.
    assert (Hall : pareto_front pop m (seq 0 (length pop)) = seq 0 (length pop)).
    { unfold pareto_front. apply forallb_filter_id. apply forallb_forall.
      intros x Hx. apply forallb_forall. intros y Hy.
      apply in_seq in Hx, Hy. rewrite Hno by lia. done. }
    rewrite Hall in Hhd.
    destruct fronts as [|f fs]; [done|]. simpl in Hhd. injection Hhd as ->.
    f_equal. simpl in Hperm. apply Permutation_length in Hperm.
    rewrite length_app in Hperm.
    destruct fs as [|g fs]; [done|].
    apply Forall_inv_tail, Forall_inv in Hnon.
    destruct g; [done|]. simpl in Hperm. rewrite length_app in Hperm.
    simpl in Hperm. lia.
  - intros [= ->] x y Hx Hy.
    apply (Hmut 0 (seq 0 (length pop))); [done|apply in_seq; lia..].
Qed.

Lemma Sort_single_front_witness :
  SortFrom 4 population_cross (sorted_indices population_cross 2)
    = Fronts [[0; 1; 2; 3]].
Proof.
  refine (proj1 (Sort_single_front 4 population_cross 2
            (sorted_indices population_cross 2) _ _ _ _ _) _).
  - discriminate.
  - lia.
  - repeat constructor.
  - apply sorted_indices_sorted.
  - simpl. lia.
  - intros x y Hx Hy. simpl in Hx, Hy.
    do 4 (destruct x as [|x];
          [do 4 (destruct y as [|y]; [vm_compute; reflexivity|]); lia|]).
    lia.
Defined.

End SorterLayers.

(** * Further properties of the evolutionary loop *)

Section GPLoop.
Import GP.
Context {scalar rand_t seed Node cstate : Type}.
Context {sops : ScalarOps scalar} {rops : RandOps rand_t seed}.
Context (Idx : nat) (Max : bool) (config : Config)
        (collab : @Collaborators scalar rand_t Node cstate)
        (report : bool) (sched : nat → nat * nat).

Local Abbreviation State := (@State scalar rand_t seed Node cstate).
Local Abbreviation Individual := (@Individual scalar Node).
Local Abbreviation Members := (@Members scalar Node).
Local Abbreviation for_each := (for_each (cstate := cstate) sched).
Local Abbreviation iterate := (iterate (seed := seed) collab).
Local Abbreviation retry := (retry (rand_t := rand_t) collab).
Local Abbreviation best_of := (best_of (Node := Node) Idx Max).
Local Abbreviation gen_body := (gen_body Idx Max config collab report sched).
Local Abbreviation gen_loop := (gen_loop Idx Max config collab report sched).
Local Abbreviation initialize := (initialize Idx Max config collab sched).
Local Abbreviation Run := (Run Idx Max config collab report sched).
Local Abbreviation backfill := (backfill (seed := seed) (rand_t := rand_t)
                                  (cstate := cstate) config).

Lemma generate_app a b (r : rand_t) :
  generate (a + b) r =
    ((generate a r).1 ++ (generate b (generate a r).2).1,
     (generate b (generate a r).2).2).
Proof.
  revert r. induction a as [|a IH]; intros r; simpl.
  - by destruct (generate b r).
  - destruct (next r) as [s r1]. rewrite IH.
    destruct (generate a r1) as [l r2]. simpl.
    by destruct (generate b r2).
Qed.

(** The loop body returns from [Run] exactly when the flag was already
    set or the best parent has converged; it then leaves everything but
    the seeds, the generator, the flag and the reports as it found it. *)
Lemma gen_body_inl fuel (st st1 : State) :
  gen_body fuel st = Some (inl st1) →
  ∃ best, best_of (parents st) = Some best
    ∧ (terminate st = true ∨ converged Max (Fitness best Idx) = true)
    ∧ st1 = set_terminate true (reported config report st).
Proof.
  unfold GP.gen_body, reported.
  destruct (generate (PopulationSize config) (random st)) as [sd r0].
  simpl. destruct (best_of (parents st)) as [best|]; [|done]. simpl.
  intros H. exists best. split; [done|].
  destruct (converged Max (Fitness best Idx)); simpl in H.
  - split; [by right|]. destruct report; simpl in H; injection H as <-.
    + done.
    + unfold set_terminate, set_reports. simpl. by rewrite app_nil_r.
  - destruct (terminate st) eqn:Ht.
    + split; [by left|].
      destruct report; simpl in H; rewrite Ht in H; injection H as <-;
        unfold set_terminate, set_reports, set_random, set_seeds; simpl;
        rewrite ?app_nil_r, ?Ht; done.
    + exfalso. destruct report; simpl in H; rewrite Ht in H;
        (destruct (_ !! 0); [|done]); simpl in H;
        (destruct (for_each _ _ _); [|done]); simpl in H;
        (destruct (GP.backfill _ _); [|done]); done.
Qed.

Lemma gen_body_inr fuel (st st1 : State) :
  gen_body fuel st = Some (inr st1) →
  ∃ best st3 st4,
    best_of (parents st) = Some best
    ∧ terminate st = false ∧ converged Max (Fitness best Idx) = false
    ∧ is_Some (offspring st !! 0)
    ∧ for_each (iterate fuel) (seq 1 (PopulationSize config - 1))
        (prepared config collab report best st) = Some st3
    ∧ backfill st3 = Some st4
    ∧ st1 = swap st4.
Proof.
  unfold GP.gen_body, prepared, reported.
  destruct (generate (PopulationSize config) (random st)) as [sd r0].
  simpl. destruct (best_of (parents st)) as [best|]; [|done]. simpl.
  intros H. exists best.
  destruct (converged Max (Fitness best Idx)); simpl in H.
  { destruct report; done. }
  destruct (terminate st) eqn:Ht.
  { destruct report; simpl in H; rewrite Ht in H; done. }
  assert (E : (if report
               then set_reports (reports st ++ [(generation st, parents st)])
                      (set_random r0 (set_seeds sd st))
               else set_random r0 (set_seeds sd st))
              = set_reports (reports st ++ if report then [(generation st, parents st)] else [])
                  (set_random r0 (set_seeds sd st))).
  { destruct report; [done|]. unfold set_reports. simpl. by rewrite app_nil_r. }
  rewrite E in H. clear E. simpl in H. rewrite Ht in H.
  destruct (offspring st !! 0) as [o0|] eqn:Ho0; [|done]. simpl in H.
  destruct (for_each _ _ _) as [st3|] eqn:Hfe; [|done]. simpl in H.
  destruct (GP.backfill _ st3) as [st4|] eqn:Hbf; [|done]. simpl in H.
  injection H as <-. exists st3, st4. repeat split; done.
Qed.

Lemma retry_gave_up fuel cs r flag cs' r' :
  retry fuel cs r = Some (None, flag, cs', r') →
  flag = true ∧ Terminate collab cs' = true.
Proof.
  revert cs r. induction fuel as [|fuel IH]; intros cs r; simpl; [done|].
  destruct (Terminate collab cs) eqn:HT.
  - intros [= <- <- <-]. done.
  - destruct (recombine collab cs r) as [[o cs1] r1].
    destruct o as [ind1|]; [done|apply IH].
Qed.

Lemma iterate_cases fuel t i (st st' : State) :
  iterate fuel t i st = Some st' →
  (terminate st' = true ∧ offspring st' = offspring st
   ∧ Terminate collab (shared st') = true)
  ∨ (terminate st' = false
     ∧ ∃ ind, is_Some (offspring st !! i)
         ∧ offspring st' = <[i := ind]> (offspring st)
         ∧ recombinant collab ind).
Proof.
  unfold GP.iterate. destruct (seeds st !! i) as [s|]; [|done]. simpl.
  destruct (retry fuel (shared st) (seeded s)) as [[[[o flag] cs] r]|] eqn:Hre;
    [|done].
  simpl. destruct o as [ind|].
  - destruct (offspring st !! i) as [oi|] eqn:Hoi; [|done]. simpl.
    intros [= <-]. simpl. right.
    apply retry_recombinant in Hre as (-> & cs1 & r1 & Hre).
    split; [done|]. exists ind. split; [by eexists|]. split; [done|].
    by exists cs1, r1, cs, r.
  - intros [= <-]. simpl. left.
    apply retry_gave_up in Hre as [-> Hre]. done.
Qed.

(** The offspring phase, whatever the schedule: it touches the offspring
    buffer, the flag, the thread-local generators and the collaborators'
    state only, and a slot of the buffer holds afterwards what it held
    before or a candidate of the recombinator. *)
Lemma iterate_phase fuel (st st' : State) :
  for_each (iterate fuel) (seq 1 (PopulationSize config - 1)) st = Some st' →
  parents st' = parents st ∧ seeds st' = seeds st
  ∧ generation st' = generation st ∧ reports st' = reports st
  ∧ random st' = random st
  ∧ length (offspring st') = length (offspring st)
  ∧ offspring st' !! 0 = offspring st !! 0
  ∧ ∀ i, offspring st' !! i = offspring st !! i
         ∨ ∃ x, offspring st' !! i = Some x ∧ recombinant collab x.
Proof.
  intros Hrun.
  apply (for_each_preserves Idx sched
    (λ s, parents s = parents st ∧ seeds s = seeds st
          ∧ generation s = generation st ∧ reports s = reports st
          ∧ random s = random st
          ∧ length (offspring s) = length (offspring st)
          ∧ offspring s !! 0 = offspring st !! 0
          ∧ ∀ i, offspring s !! i = offspring st !! i
                 ∨ ∃ x, offspring s !! i = Some x ∧ recombinant collab x)
    (iterate fuel) (seq 1 (PopulationSize config - 1)) st st');
    [|by repeat split; try done; left|done].
  clear Hrun st'.
  intros t i s s' Hi (H1 & H2 & H3 & H4 & H5 & H6 & H7 & H8) Hit.
  apply elem_of_seq in Hi.
  pose proof (iterate_frame _ _ _ _ _ _ Hit) as (F1 & F2 & F3 & F4 & F5 & F6 & F7).
  simpl in *.
  repeat split; try congruence.
  - rewrite F7 by lia. done.
  - intros j. destruct (decide (j = i)) as [->|Hne].
    + destruct (iterate_cases _ _ _ _ _ Hit) as [(_ & Ho & _)|(_ & ind & Hsome & Ho & Hrec)].
      * rewrite Ho. simpl. apply H8.
      * right. exists ind. split; [|done]. rewrite Ho. simpl.
        apply list_lookup_insert_eq. destruct Hsome as [x Hx].
        by apply lookup_lt_Some in Hx.
    + rewrite F7 by done. apply H8.
Qed.

(** The end of a loop body that did not return. *)
Lemma gen_body_inr_spec fuel (st st1 : State) :
  let n := PopulationSize config in
  gen_body fuel st = Some (inr st1) →
  length (parents st) = n → length (offspring st) = n →
  ∃ best,
    best_of (parents st) = Some best
    ∧ terminate st = false ∧ converged Max (Fitness best Idx) = false
    ∧ seeds st1 = (generate n (random st)).1
    ∧ random st1 = (generate n (random st)).2
    ∧ generation st1 = generation st
    ∧ reports st1
        = reports st ++ (if report then [(generation st, parents st)] else [])
    ∧ offspring st1 = parents st
    ∧ length (parents st1) = n
    ∧ ∀ i p o, parents st !! i = Some p → offspring st !! i = Some o →
        ∃ x, parents st1 !! i = Some x
          ∧ (i = 0 → x = match Genotype best with [] => p | _ :: _ => best end)
          ∧ (1 ≤ i →
               (recombinant collab x ∧ Genotype x ≠ [])
               ∨ (x = o ∧ Genotype o ≠ [])
               ∨ (x = p ∧ (Genotype o = []
                           ∨ ∃ y, recombinant collab y ∧ Genotype y = []))).
Proof.
  intros n Hr Hlp Hlo.
  destruct (gen_body_inr fuel st st1 Hr)
    as (best & st3 & st4 & Hbest & Ht & Hconv & Ho0 & Hfe & Hbf & ->).
  fold n in Hfe.
  apply iterate_phase in Hfe as (F1 & F2 & F3 & F4 & F5 & F6 & F7 & F8).
  unfold prepared, reported in F1, F2, F3, F4, F5, F6, F7, F8. simpl in *.
  rewrite length_insert in F6.
  destruct (backfill_spec config st3) as (v & Hbf' & Hlv & Hv);
    [by rewrite F6|by rewrite F1|].
  rewrite Hbf' in Hbf. injection Hbf as <-. simpl.
  exists best. repeat split; try done; try congruence.
  intros i p o Hp Ho.
  assert (Hi : i < n) by (apply lookup_lt_Some in Hp; lia).
  destruct (lookup_lt_is_Some_2 (offspring st3) i) as [o3 Ho3];
    [rewrite F6, Hlo; done|].
  rewrite (Hv i o3 p Ho3) by (by rewrite F1).
  eexists. split; [done|]. split.
  - intros ->. rewrite F7, list_lookup_insert_eq in Ho3
      by (rewrite Hlo; lia).
    by injection Ho3 as <-.
  - intros Hi1. destruct (F8 i) as [Hsame|(x & Hx & Hrec)].
    + rewrite list_lookup_insert_ne, Ho in Hsame by lia.
      rewrite Ho3 in Hsame. injection Hsame as ->.
      destruct (Genotype o) eqn:Hg; [right; right; split; [done|by left]|].
      right. left. done.
    + rewrite Ho3 in Hx. injection Hx as ->.
      destruct (Genotype x) eqn:Hg.
      * right. right. split; [done|]. right. by exists x.
      * left. split; [done|]. by rewrite Hg.
Qed.

Lemma gen_loop_invariant (I : State → Prop) fuel :
  (∀ st r, I st → gen_body fuel st = Some r →
     match r with
     | inl s => I s
     | inr s => I (set_generation (S (generation s)) s)
     end) →
  ∀ k st stf, I st → gen_loop fuel k st = Some stf → I stf.
Proof.
  intros Hstep. induction k as [|k IH]; intros st stf HI; simpl.
  - by intros [= <-].
  - destruct (gen_body fuel st) as [r|] eqn:Hr; [|done]. simpl.
    specialize (Hstep st r HI Hr).
    destruct r; [by intros [= <-]|by apply IH].
Qed.

Lemma gen_loop_generation fuel k : ∀ st stf : State,
  gen_loop fuel k st = Some stf →
  generation st ≤ generation stf ≤ generation st + k.
Proof.
  induction k as [|k IH]; intros st stf; simpl.
  - intros [= <-]. lia.
  - destruct (gen_body fuel st) as [r|] eqn:Hr; [|done]. simpl.
    pose proof (gen_body_reports Idx Max config collab report sched fuel st r Hr)
      as Hrep.
    destruct r as [s|s]; simpl in Hrep.
    + intros [= <-]. lia.
    + intros Hl. apply IH in Hl. simpl in Hl. lia.
Qed.

(** Both buffers and the seed table keep [PopulationSize] entries through
    the whole of [Run], every population that [report] can observe has
    [PopulationSize] individuals, and the generation counter never passes
    [Generations]. *)
Theorem Run_population_size fuel random0 cs0 tls (this : Members)
    (stf : State) :
  let n := PopulationSize config in
  Run fuel random0 cs0 tls this = Some stf →
  length (parents stf) = n ∧ length (offspring stf) = n
  ∧ length (seeds stf) = n
  ∧ Forall (λ r, length r.2 = n) (reports stf)
  ∧ generation stf ≤ Generations config.
Proof.
  intros n. unfold GP.Run.
  destruct (initialize_spec Idx Max config collab sched random0 cs0 tls this)
    as (st0 & Hinit & Hlp & Ho & _ & Hrep & _). fold n in Hlp, Ho.
  rewrite Hinit. simpl. intros Hloop.
  assert (Hseeds : length (seeds st0) = n).
  { revert Hinit. unfold GP.initialize.
    destruct (created_spec Idx Max config collab sched random0 cs0 tls this)
      as (stc & -> & Hs & _). simpl. intros Hfe.
    apply (for_each_preserves Idx sched (λ s, seeds s = seeds stc)) in Hfe.
    - rewrite Hfe, Hs. apply generate_length.
    - intros t i s s' _ Hsd. unfold GP.evaluate. simpl.
      destruct (parents s !! i); [|done]. simpl.
      destruct (evaluator _ _ _ _) as [[[? ?] ?] ?]. by intros [= <-].
    - done. }
  assert (Hgen : generation stf ≤ Generations config).
  { apply gen_loop_generation in Hloop. simpl in Hloop. lia. }
  apply (gen_loop_invariant
    (λ s, length (parents s) = n ∧ length (offspring s) = n
          ∧ length (seeds s) = n ∧ Forall (λ r, length r.2 = n) (reports s))
    fuel) in Hloop.
  - tauto.
  - clear. intros st r (Hlp & Hlo & Hls & Hrep) Hr.
    assert (Hrep' : Forall (λ r, length r.2 = n)
              (reports st ++ if report then [(generation st, parents st)] else [])).
    { apply Forall_app. split; [done|]. destruct report; repeat constructor. done. }
    destruct r as [s|s].
    + apply gen_body_inl in Hr as (best & _ & _ & ->). simpl.
      repeat split; try done. apply generate_length.
    + apply gen_body_inr_spec in Hr
        as (best & _ & _ & _ & Hsd & _ & _ & Hr' & Ho' & Hlp' & _); [|done..].
      simpl. rewrite Hsd, Hr', Ho'. repeat split; try done.
      apply generate_length.
  - simpl. rewrite Hrep, Ho, length_fmap, length_seq. repeat split; try done.
Qed.

(** The generator handed to [Run] is advanced by the seed tables only:
    [PopulationSize] draws before creation and [PopulationSize] draws in
    every generation entered, whatever the schedule and the collaborators
    do; the seed table of a generation is the corresponding block of
    draws. *)
Theorem Run_seed_stream fuel random0 cs0 tls (this : Members) (stf : State) :
  let n := PopulationSize config in
  report = true →
  Run fuel random0 cs0 tls this = Some stf →
  let g := length (reports stf) in
  random stf = (generate (n * (g + 1)) random0).2
  ∧ seeds stf = (generate n (generate (n * g) random0).2).1.
Proof.
  intros n Hreport. unfold GP.Run, GP.initialize.
  destruct (created_spec Idx Max config collab sched random0 cs0 tls this)
    as (stc & -> & Hs & Hr & _ & _ & _ & Hrep & _). simpl. fold n in Hs, Hr.
  destruct (for_each _ _ stc) as [st0|] eqn:Hfe; [|done]. simpl.
  apply (for_each_preserves Idx sched
           (λ s, seeds s = seeds stc ∧ random s = random stc
                 ∧ reports s = reports stc)) in Hfe; [| |done].
  2:{ intros t i s s' _ Hsd. unfold GP.evaluate. simpl.
      destruct (parents s !! i); [|done]. simpl.
      destruct (evaluator _ _ _ _) as [[[? ?] ?] ?]. by intros [= <-]. }
  destruct Hfe as (Hs0 & Hr0 & Hrep0).
  intros Hloop.
  apply (gen_loop_invariant
    (λ s, random s = (generate (n * (length (reports s) + 1)) random0).2
          ∧ seeds s = (generate n (generate (n * length (reports s)) random0).2).1)
    fuel) in Hloop; [done| |].
  - clear -Hreport. intros st r (Hrand & _) Hr.
    assert (Hnext : ∀ k,
              (generate n (generate (n * (k + 1)) random0).2)
              = ((generate n (generate (n * (k + 1)) random0).2).1,
                 (generate (n * (k + 1 + 1)) random0).2)).
    { intros k. replace (n * (k + 1 + 1)) with (n * (k + 1) + n) by lia.
      rewrite (generate_app (n * (k + 1)) n). simpl.
      by destruct (generate n _). }
    destruct r as [s|s].
    + apply gen_body_inl in Hr as (best & _ & _ & ->). simpl.
      rewrite Hreport, length_app. simpl. fold n. rewrite Hrand, Hnext. done.
    + apply gen_body_inr in Hr
        as (best & st3 & st4 & _ & _ & _ & _ & Hfe & Hbf & ->).
      apply iterate_phase in Hfe as (_ & F2 & _ & F4 & F5 & _).
      apply backfill_frame in Hbf as [v ->]. simpl.
      rewrite F2, F4, F5. unfold prepared, reported. simpl.
      rewrite Hreport, length_app. simpl. fold n. rewrite Hrand, Hnext. done.
  - simpl. rewrite Hrep0, Hrep, Hr0, Hs0, Hr, Hs. simpl.
    rewrite Nat.mul_0_r, Nat.mul_1_r. done.
Qed.

(** With [Generations = 0] the loop body never runs: [Run] returns after
    creation and evaluation with the generation counter at 0, without a
    report, for any population size, and the offspring buffer is as the
    call found it.  With an empty population and at least one generation,
    [Run] has no defined result: [best] is the end iterator of an empty
    range and is dereferenced. *)
Theorem Run_degenerate fuel random0 cs0 tls (this : Members) :
  (Generations config = 0 →
     ∃ st0 stf,
       initialize random0 cs0 tls this = Some st0
       ∧ Run fuel random0 cs0 tls this = Some stf
       ∧ stf = set_generation 0 st0
       ∧ reports stf = [] ∧ terminate stf = false
       ∧ offspring stf = offspring_ this <$> seq 0 (PopulationSize config))
  ∧ (PopulationSize config = 0 → 1 ≤ Generations config →
       Run fuel random0 cs0 tls this = None).
Proof.
  unfold GP.Run.
  destruct (initialize_spec Idx Max config collab sched random0 cs0 tls this)
    as (st0 & Hinit & Hlp & Ho & Ht & Hrep & Hg & _).
  rewrite Hinit. simpl. split.
  - intros ->. simpl. by exists st0, (set_generation 0 st0).
  - intros Hn Hgen. rewrite Hn in Hlp.
    destruct (Generations config) as [|k]; [lia|]. simpl.
    unfold GP.gen_body. simpl.
    destruct (generate _ _) as [sd r]. simpl.
    destruct (parents st0); [done|]. simpl in Hlp. lia.
Qed.

(** When the best of the evaluated initial parents already lies within the
    convergence threshold, [Run] returns in generation 0: it reports once
    (if a callback was supplied), never prepares nor calls the
    recombinator and leaves both buffers as the evaluation left them. *)
Theorem Run_stops_on_converged_start fuel random0 cs0 tls (this : Members)
    (st0 : State) best :
  1 ≤ Generations config →
  initialize random0 cs0 tls this = Some st0 →
  best_of (parents st0) = Some best →
  converged Max (Fitness best Idx) = true →
  ∃ stf, Run fuel random0 cs0 tls this = Some stf
    ∧ generation stf = 0 ∧ terminate stf = true
    ∧ parents stf = parents st0 ∧ offspring stf = offspring st0
    ∧ shared stf = shared st0
    ∧ reports stf = if report then [(0, parents st0)] else [].
Proof.
  intros Hgen Hinit Hbest Hconv. unfold GP.Run. rewrite Hinit. simpl.
  destruct (initialize_spec Idx Max config collab sched random0 cs0 tls this)
    as (st0' & Hinit' & _ & _ & _ & Hrep & _).
  rewrite Hinit in Hinit'. injection Hinit' as <-.
  destruct (Generations config) as [|k]; [lia|]. simpl.
  unfold GP.gen_body. simpl.
  destruct (generate _ _) as [sd r]. simpl.
  rewrite Hbest. simpl. rewrite Hconv.
  destruct report; simpl; eexists; (split; [done|]); simpl; rewrite ?Hrep; done.
Qed.

(** What one offspring worker leaves behind: it stores a candidate of the
    recombinator in its own slot and clears the flag, or it stores nothing
    and sets the flag, and then the recombinator did report termination.
    The flag after the worker is set exactly when it stored nothing. *)
Theorem worker_outcome fuel t i (st st' : State) :
  iterate fuel t i st = Some st' →
  parents st' = parents st
  ∧ (∀ j, j ≠ i → offspring st' !! j = offspring st !! j)
  ∧ ((terminate st' = true ∧ offspring st' = offspring st
      ∧ Terminate collab (shared st') = true)
     ∨ (terminate st' = false
        ∧ ∃ ind, is_Some (offspring st !! i)
            ∧ offspring st' = <[i := ind]> (offspring st)
            ∧ recombinant collab ind)).
Proof.
  intros Hit.
  pose proof (iterate_frame _ _ _ _ _ _ Hit) as (F1 & _ & _ & _ & _ & _ & F7).
  split; [done|]. split; [done|]. by eapply iterate_cases.
Qed.

(** Where the parents of the next generation come from.  Slot 0 receives
    the best parent.  Any other slot receives a candidate of the
    recombinator, or else what the offspring buffer held in that slot when
    the body started, provided its genotype is not empty; the parent of
    the same index is copied only into a slot whose genotype is empty.
    The buffer the body starts with is, after the swap, the parent
    population of the generation before. *)
Theorem next_parents_origin fuel (st st1 : State) :
  let n := PopulationSize config in
  gen_body fuel st = Some (inr st1) →
  length (parents st) = n → length (offspring st) = n →
  offspring st1 = parents st
  ∧ ∀ i p o, parents st !! i = Some p → offspring st !! i = Some o →
      ∃ x, parents st1 !! i = Some x
        ∧ (i = 0 → ∃ best, best_of (parents st) = Some best
                     ∧ x = match Genotype best with [] => p | _ :: _ => best end)
        ∧ (1 ≤ i →
             (recombinant collab x ∧ Genotype x ≠ [])
             ∨ (x = o ∧ Genotype o ≠ [])
             ∨ (x = p ∧ (Genotype o = []
                         ∨ ∃ y, recombinant collab y ∧ Genotype y = []))).
Proof.
  intros n Hr Hlp Hlo.
  destruct (gen_body_inr_spec fuel st st1 Hr Hlp Hlo)
    as (best & Hbest & _ & _ & _ & _ & _ & _ & Hoff & _ & Hslots).
  split; [done|]. intros i p o Hp Ho.
  destruct (Hslots i p o Hp Ho) as (x & Hx & H0 & H1).
  exists x. split; [done|]. split; [|done].
  intros Hi. exists best. split; [done|]. by apply H0.
Qed.

Lemma set_generation_same (st : State) :
  set_generation (generation st) st = st.
Proof. by destruct st. Qed.

(** The offspring phase when the recombinator reports termination from
    the start: no slot is written, and the flag is set as soon as one
    worker has run. *)
Lemma exhausted_phase fuel (st : State) :
  let n := PopulationSize config in
  (∀ cs, Terminate collab cs = true) → 1 ≤ fuel → length (seeds st) = n →
  ∃ st', for_each (iterate fuel) (seq 1 (n - 1)) st = Some st'
    ∧ offspring st' = offspring st ∧ (2 ≤ n → terminate st' = true).
Proof.
  intros n HT Hfuel Hls.
  destruct (for_each_total Idx sched
    (λ s, length (seeds s) = n ∧ offspring s = offspring st)
    (λ _ _, True) (λ _ s, terminate s = true)
    (iterate fuel) (seq 1 (n - 1)) st) as (st' & Hrun & [_ Ho] & Hdone).
  - intros t i s Hi [Hl Hos] _. apply elem_of_seq in Hi.
    destruct (lookup_lt_is_Some_2 (seeds s) i) as [sd Hsd]; [lia|].
    unfold GP.iterate. simpl. rewrite Hsd. simpl.
    destruct fuel as [|fuel]; [lia|]. simpl. rewrite HT. simpl.
    eexists. split; [done|]. simpl. done.
  - apply NoDup_seq.
  - done.
  - done.
  - exists st'. split; [done|]. split; [done|].
    intros Hn. apply (Hdone 1). apply elem_of_seq. lia.
Qed.

(** A recombinator whose budget is spent before the first offspring is
    asked for: in generation 0 the workers store nothing, every slot of
    the offspring buffer but slot 0 keeps what it held when [Run] was
    called, or is backfilled with its parent if that has no tree, the
    buffers are swapped, and generation 1 reports and returns.  On an
    offspring buffer without trees (that of a freshly constructed object)
    the final population is the initial one with the best individual
    copied into slot 0; on a buffer that an earlier run has filled, it is
    that buffer every other slot comes from. *)
Theorem Run_budget_exhausted fuel random0 cs0 tls (this : Members)
    (st0 : State) best p0 :
  let n := PopulationSize config in
  (∀ cs, Terminate collab cs = true) → 1 ≤ fuel →
  2 ≤ n → 2 ≤ Generations config →
  initialize random0 cs0 tls this = Some st0 →
  best_of (parents st0) = Some best →
  converged Max (Fitness best Idx) = false →
  parents st0 !! 0 = Some p0 →
  ∃ stf, Run fuel random0 cs0 tls this = Some stf
    ∧ generation stf = 1 ∧ terminate stf = true
    ∧ parents stf
        = <[0 := kept best p0]>
            (zip_with kept (offspring_ this <$> seq 0 n) (parents st0))
    ∧ ((∀ i, 1 ≤ i < n → Genotype (offspring_ this i) = []) →
         parents stf = <[0 := kept best p0]> (parents st0))
    ∧ ((∀ i, 1 ≤ i < n → Genotype (offspring_ this i) ≠ []) →
         parents stf
           = <[0 := kept best p0]> (offspring_ this <$> seq 0 n))
    ∧ offspring stf = parents st0
    ∧ reports stf
        = if report then [(0, parents st0); (1, parents stf)] else [].
Proof.
  intros n HT Hfuel Hn Hgen Hinit Hbest Hconv Hp0.
  destruct (initialize_spec Idx Max config collab sched random0 cs0 tls this)
    as (st0' & Hinit' & Hlp & Ho & Ht & Hrep & Hg & _).
  rewrite Hinit in Hinit'. injection Hinit' as <-. fold n in Hlp, Ho.
  unfold GP.Run. rewrite Hinit. simpl.
  set (s0 := set_generation 0 st0).
  assert (Hs0 : parents s0 = parents st0 ∧ offspring s0 = offspring st0
                ∧ terminate s0 = false ∧ reports s0 = []
                ∧ generation s0 = 0) by done.
  destruct Hs0 as (Hs0p & Hs0o & Hs0t & Hs0r & Hs0g). clearbody s0.
  destruct (Generations config) as [|[|k]]; [lia..|].
  assert (Hretry : GP.retries_within collab fuel).
  { intros cs r. destruct fuel as [|fuel]; [lia|]. simpl. rewrite HT. by eexists. }
  assert (Hlo : length (offspring st0) = n)
    by (by rewrite Ho, length_fmap, length_seq).
  (* generation 0 *)
  destruct (gen_body_total Idx Max config collab report sched fuel s0
              Hretry ltac:(fold n; lia)) as [r Hr];
    [by rewrite Hs0p|by rewrite Hs0o|].
  destruct r as [s|st1].
  { apply gen_body_inl in Hr as (b & Hb & [Hc|Hc] & _); [congruence|].
    rewrite Hs0p, Hbest in Hb. injection Hb as <-. congruence. }
  destruct (gen_body_inr fuel s0 st1 Hr)
    as (b & st3 & st4 & Hb & _ & _ & _ & Hfe & Hbf & ->).
  rewrite Hs0p, Hbest in Hb. injection Hb as <-. fold n in Hfe.
  destruct (exhausted_phase fuel (prepared config collab report best s0) HT Hfuel)
    as (st3' & Hfe' & Hoff3 & Hterm3).
  { unfold prepared, reported. simpl. apply generate_length. }
  fold n in Hfe', Hterm3. rewrite Hfe in Hfe'. injection Hfe' as <-.
  specialize (Hterm3 Hn).
  pose proof (iterate_phase fuel _ _ Hfe) as (F1 & F2 & F3 & F4 & F5 & F6 & _).
  unfold prepared, reported in Hoff3, F1, F2, F3, F4, F5, F6. simpl in *.
  rewrite Hs0p in F1. rewrite Hs0o in Hoff3.
  destruct (backfill_spec config st3) as (v & Hbf' & Hlv & Hv);
    [by rewrite Hoff3, length_insert|by rewrite F1|].
  rewrite Hbf' in Hbf. injection Hbf as <-. fold n in Hlv.
  set (offs := offspring_ this <$> seq 0 n) in *.
  assert (Hloffs : length offs = n) by (by rewrite <- Ho).
  assert (Hslot : ∀ i o p, offs !! i = Some o → parents st0 !! i = Some p →
            v !! i = Some (if decide (i = 0) then kept best p0 else kept o p)).
  { intros i o p Hoi Hpi.
    destruct (lookup_lt_is_Some_2 (offspring st3) i) as [o3 Ho3].
    { apply lookup_lt_Some in Hoi. rewrite Hoff3, length_insert, Ho. lia. }
    rewrite (Hv i o3 p Ho3) by (by rewrite F1).
    rewrite Hoff3 in Ho3. destruct (decide (i = 0)) as [->|Hne].
    - rewrite list_lookup_insert_eq in Ho3 by (rewrite Ho; lia).
      injection Ho3 as <-. rewrite Hp0 in Hpi. by injection Hpi as <-.
    - rewrite list_lookup_insert_ne, Ho, Hoi in Ho3 by done.
      by injection Ho3 as <-. }
  assert (Ev : v = <[0 := kept best p0]> (zip_with kept offs (parents st0))).
  { apply (list_eq_same_length _ _ n);
      [by rewrite length_insert, length_zip_with; lia|done|].
    intros i x y Hi Ha Hb.
    destruct (lookup_lt_is_Some_2 offs i) as [o Hoi]; [lia|].
    destruct (lookup_lt_is_Some_2 (parents st0) i) as [p Hp]; [lia|].
    rewrite (Hslot i o p Hoi Hp) in Ha. injection Ha as <-.
    destruct (decide (i = 0)) as [->|Hne].
    - rewrite list_lookup_insert_eq in Hb by (rewrite length_zip_with; lia).
      by injection Hb as <-.
    - rewrite list_lookup_insert_ne, lookup_zip_with, Hoi, Hp in Hb by done.
      simpl in Hb. by injection Hb as <-. }
  (* generation 1 *)
  cbn [GP.gen_loop]. rewrite Hr. simpl.
  set (st1 := set_generation _ _).
  assert (Hlp1 : length (parents st1) = n) by done.
  assert (Hlo1 : length (offspring st1) = n) by (simpl; by rewrite F1).
  destruct (gen_body_total Idx Max config collab report sched fuel st1
              Hretry ltac:(fold n; lia) Hlp1 Hlo1) as [r1 Hr1].
  rewrite Hr1. simpl. destruct r1 as [s|s].
  - apply gen_body_inl in Hr1 as (b & _ & _ & ->).
    eexists. split; [done|]. simpl.
    rewrite F1, F3, F4, Hs0g, Hs0r, Hs0p, <- Ev.
    split; [done|]. split; [done|]. split; [done|].
    split; [|split; [|split; [done|by destruct report]]].
    + intros Hempty. apply (list_eq_same_length _ _ n);
        [by rewrite length_insert|done|].
      intros i x y Hi Ha Hb.
      destruct (lookup_lt_is_Some_2 offs i) as [o Hoi]; [lia|].
      destruct (lookup_lt_is_Some_2 (parents st0) i) as [p Hp]; [lia|].
      rewrite (Hslot i o p Hoi Hp) in Ha. injection Ha as <-.
      destruct (decide (i = 0)) as [->|Hne].
      * rewrite list_lookup_insert_eq in Hb by lia. by injection Hb as <-.
      * rewrite list_lookup_insert_ne, Hp in Hb by done. injection Hb as <-.
        unfold offs in Hoi. rewrite list_lookup_fmap, lookup_seq_lt in Hoi by done.
        simpl in Hoi. injection Hoi as <-.
        unfold kept. by rewrite Hempty by lia.
    + intros Hfull. apply (list_eq_same_length _ _ n);
        [by rewrite length_insert|done|].
      intros i x y Hi Ha Hb.
      destruct (lookup_lt_is_Some_2 offs i) as [o Hoi]; [lia|].
      destruct (lookup_lt_is_Some_2 (parents st0) i) as [p Hp]; [lia|].
      rewrite (Hslot i o p Hoi Hp) in Ha. injection Ha as <-.
      destruct (decide (i = 0)) as [->|Hne].
      * rewrite list_lookup_insert_eq in Hb by lia. by injection Hb as <-.
      * rewrite list_lookup_insert_ne, Hoi in Hb by done. injection Hb as <-.
        unfold offs in Hoi. rewrite list_lookup_fmap, lookup_seq_lt in Hoi by done.
        simpl in Hoi. injection Hoi as <-.
        unfold kept. specialize (Hfull i ltac:(lia)).
        by destruct (Genotype (offspring_ this i)).
  - apply gen_body_inr in Hr1 as (b & ? & ? & _ & Hf & _). simpl in Hf.
    congruence.
Qed.

(** A population of one slot never changes: the offspring phase has no
    work item, so the recombinator is never called (its termination
    state is never asked for) and the single parent is copied back in
    every generation, whatever the attempt bound. *)
Theorem Run_single_slot fuel random0 cs0 tls (this : Members) :
  PopulationSize config = 1 →
  ∃ st0 stf p,
    initialize random0 cs0 tls this = Some st0
    ∧ Run fuel random0 cs0 tls this = Some stf
    ∧ parents st0 = [p] ∧ parents stf = [p]
    ∧ Forall (λ r, r.2 = [p]) (reports stf).
Proof.
  intros Hn.
  destruct (initialize_spec Idx Max config collab sched random0 cs0 tls this)
    as (st0 & Hinit & Hlp & Ho & Ht & Hrep & Hg & _).
  rewrite Hn in Hlp, Ho.
  destruct (parents st0) as [|p [|? ?]] eqn:Hp; [done| |done].
  exists st0. unfold GP.Run. rewrite Hinit. simpl.
  assert (Hloop : ∀ k (st : State),
            parents st = [p] → length (offspring st) = 1 →
            Forall (λ r, r.2 = [p]) (reports st) →
            ∃ stf, gen_loop fuel k st = Some stf ∧ parents stf = [p]
                   ∧ Forall (λ r, r.2 = [p]) (reports stf)).
  { induction k as [|k IH]; intros st Hps Hlo Hreps; simpl; [by exists st|].
    assert (Hrep' : Forall (λ r, r.2 = [p])
              (reports st ++ if report then [(generation st, parents st)] else [])).
    { apply Forall_app. split; [done|]. destruct report; repeat constructor. done. }
    assert (Hsome : is_Some (gen_body fuel st)).
    { unfold GP.gen_body. destruct (generate _ _) as [sd r]. simpl.
      rewrite Hps. simpl.
      set (b := if Max then p else p).
      destruct (offspring st) as [|o [|? ?]] eqn:Hos; [done| |done].
      destruct (converged Max (Fitness b Idx)); destruct report; simpl;
        try (by eexists);
        (destruct (terminate st); [by eexists|]); simpl;
        rewrite Hn; unfold GP.for_each, GP.backfill; simpl;
        rewrite Hn; simpl; unfold GP.backfill_at; simpl; rewrite Hps, Hos; simpl;
        by eexists. }
    destruct Hsome as [r Hr]. rewrite Hr. simpl. destruct r as [s|s].
    - apply gen_body_inl in Hr as (b & _ & _ & ->). by eexists.
    - apply gen_body_inr_spec in Hr
        as (b & Hb & _ & _ & _ & _ & _ & Hr' & Ho' & Hlp' & Hslot);
        [|by rewrite ?Hps, ?Hn..].
      destruct (offspring st) as [|o [|? ?]] eqn:Hos; [done| |done].
      destruct (Hslot 0 p o) as (x & Hx & H0 & _); [by rewrite Hps|done|].
      specialize (H0 eq_refl).
      assert (Hbp : b = p).
      { apply best_of_In in Hb. rewrite Hps in Hb.
        by apply list_elem_of_singleton in Hb. }
      assert (Hxp : x = p) by (subst; by destruct (Genotype p)).
      subst x. rewrite Hn in Hlp'.
      assert (Hp1 : parents s = [p]).
      { destruct (parents s) as [|q [|? ?]]; [done| |done].
        simpl in Hx. rewrite Hxp in Hx. by injection Hx as ->. }
      apply IH; simpl; [done|by rewrite Ho', Hps|by rewrite Hr']. }
  destruct (Hloop (Generations config) (set_generation 0 st0))
    as (stf & Hrun & Hpf & Hrf); simpl;
    [done|by rewrite Ho|by rewrite Hrep|].
  exists stf, p. done.
Qed.

End GPLoop.

Lemma Run_population_size_witness :
  ∃ stf, GP.Run (sops := GP.fscalar_ops) (rops := GP.counter_rand) 0 false
           (GP.two_slots 3) GP.showing true GP.in_order 1 0 0
           GP.used_tls GP.used_object = Some stf
    ∧ length (GP.parents stf) = 2.
Proof.
  destruct (GP.Run (sops := GP.fscalar_ops) (rops := GP.counter_rand) 0 false
              (GP.two_slots 3) GP.showing true GP.in_order 1 0 0
              GP.used_tls GP.used_object)
    as [stf|] eqn:E.
  - exists stf. split; [reflexivity|].
    exact (proj1 (Run_population_size (sops := GP.fscalar_ops)
                    (rops := GP.counter_rand) 0 false (GP.two_slots 3)
                    GP.showing true GP.in_order 1 0 0
                    GP.used_tls GP.used_object stf E)).
  - vm_compute in E. discriminate.
Defined.

Lemma Run_seed_stream_witness :
  ∃ stf, GP.Run (sops := GP.fscalar_ops) (rops := GP.counter_rand) 0 false
           (GP.two_slots 3) GP.showing true GP.in_order 1 0 0
           GP.used_tls GP.used_object = Some stf
    ∧ GP.random stf
        = (GP.generate (rops := GP.counter_rand)
             (2 * (length (GP.reports stf) + 1)) 0).2.
Proof.
  destruct (GP.Run (sops := GP.fscalar_ops) (rops := GP.counter_rand) 0 false
              (GP.two_slots 3) GP.showing true GP.in_order 1 0 0
              GP.used_tls GP.used_object)
    as [stf|] eqn:E.
  - exists stf. split; [reflexivity|].
    exact (proj1 (Run_seed_stream (sops := GP.fscalar_ops)
                    (rops := GP.counter_rand) 0 false (GP.two_slots 3)
                    GP.showing true GP.in_order 1 0 0
                    GP.used_tls GP.used_object stf eq_refl E)).
  - vm_compute in E. discriminate.
Defined.

Lemma Run_degenerate_witness :
  (∃ st0 stf,
     GP.initialize (sops := GP.fscalar_ops) (rops := GP.counter_rand) 0 false
       (GP.two_slots 0) GP.showing GP.in_order 0 0
       GP.used_tls GP.used_object = Some st0
     ∧ GP.Run (sops := GP.fscalar_ops) (rops := GP.counter_rand) 0 false
         (GP.two_slots 0) GP.showing true GP.in_order 1 0 0
         GP.used_tls GP.used_object = Some stf
     ∧ stf = GP.set_generation 0 st0
     ∧ GP.reports stf = [] ∧ GP.terminate stf = false
     ∧ GP.offspring stf = GP.offspring_ GP.used_object <$> seq 0 2)
  ∧ GP.Run (sops := GP.fscalar_ops) (rops := GP.counter_rand) 0 false
      (GP.no_slots 1) GP.showing true GP.in_order 1 0 0
      GP.used_tls GP.used_object = None.
Proof.
  split.
  - apply (proj1 (Run_degenerate (sops := GP.fscalar_ops)
                    (rops := GP.counter_rand) 0 false (GP.two_slots 0)
                    GP.showing true GP.in_order 1 0 0
                    GP.used_tls GP.used_object)).
    reflexivity.
  - apply (proj2 (Run_degenerate (sops := GP.fscalar_ops)
                    (rops := GP.counter_rand) 0 false (GP.no_slots 1)
                    GP.showing true GP.in_order 1 0 0
                    GP.used_tls GP.used_object)).
    + reflexivity.
    + simpl. lia.
Defined.

Lemma Run_stops_on_converged_start_witness :
  ∃ stf, GP.Run (sops := GP.fscalar_ops) (rops := GP.counter_rand) 0 false
           (GP.two_slots 3) GP.converging true GP.in_order 1 0 0
           GP.used_tls GP.used_object = Some stf
    ∧ GP.generation stf = 0 ∧ GP.terminate stf = true.
Proof.
  destruct (Run_stops_on_converged_start (sops := GP.fscalar_ops)
              (rops := GP.counter_rand) 0 false (GP.two_slots 3)
              GP.converging true GP.in_order 1 0 0
              GP.used_tls GP.used_object
              (GP.resumed GP.converging (GP.two_slots 3))
              (GP.resumed_best GP.converging (GP.two_slots 3)))
    as (stf & Hrun & Hg & Ht & _).
  - simpl. lia.
  - vm_compute. reflexivity.
  - vm_compute. reflexivity.
  - vm_compute. reflexivity.
  - exists stf. split; [assumption|]. split; assumption.
Defined.

Lemma worker_outcome_witness :
  GP.parents (default GP.empty_state
                (GP.iterate (rops := GP.counter_rand) GP.showing 1 0 1
                   (GP.initial GP.showing (GP.two_slots 3))))
  = GP.parents (GP.initial GP.showing (GP.two_slots 3)).
Proof.
  apply (proj1 (worker_outcome (rops := GP.counter_rand) GP.showing 1 0 1
                  (GP.initial GP.showing (GP.two_slots 3)) _ ltac:(vm_compute; reflexivity))).
Defined.

Lemma next_parents_origin_witness :
  GP.offspring
    (match GP.gen_body (sops := GP.fscalar_ops) (rops := GP.counter_rand)
             0 false (GP.two_slots 3) GP.showing true GP.in_order 1
             (GP.initial GP.showing (GP.two_slots 3))
     with
     | Some (inr st1) => st1
     | _ => GP.empty_state
     end)
  = GP.parents (GP.initial GP.showing (GP.two_slots 3)).
Proof.
  apply (proj1 (next_parents_origin (sops := GP.fscalar_ops)
                  (rops := GP.counter_rand) 0 false (GP.two_slots 3)
                  GP.showing true GP.in_order 1
                  (GP.initial GP.showing (GP.two_slots 3)) _
                  ltac:(vm_compute; reflexivity) eq_refl eq_refl)).
Defined.

Lemma Run_budget_exhausted_witness :
  ∃ stf, GP.Run (sops := GP.fscalar_ops) (rops := GP.counter_rand) 0 false
           (GP.two_slots 5) GP.exhausted true GP.in_order 1 0 0
           GP.used_tls GP.used_object = Some stf
    ∧ GP.generation stf = 1 ∧ GP.terminate stf = true
    ∧ GP.parents stf
        = <[0 := GP.kept (GP.resumed_best GP.exhausted (GP.two_slots 5))
                   (GP.resumed_best GP.exhausted (GP.two_slots 5))]>
            (GP.offspring_ GP.used_object <$> seq 0 2).
Proof.
  destruct (Run_budget_exhausted (sops := GP.fscalar_ops)
              (rops := GP.counter_rand) 0 false (GP.two_slots 5)
              GP.exhausted true GP.in_order 1 0 0
              GP.used_tls GP.used_object
              (GP.resumed GP.exhausted (GP.two_slots 5))
              (GP.resumed_best GP.exhausted (GP.two_slots 5))
              (GP.resumed_best GP.exhausted (GP.two_slots 5)))
    as (stf & Hrun & Hg & Ht & _ & _ & Hfull & _).
  - reflexivity.
  - lia.
  - simpl. lia.
  - simpl. lia.
  - vm_compute. reflexivity.
  - vm_compute. reflexivity.
  - vm_compute. reflexivity.
  - vm_compute. reflexivity.
  - exists stf. split; [assumption|]. split; [assumption|].
    split; [assumption|]. apply Hfull.
    intros i Hi. assert (i = 1) as -> by (simpl in Hi; lia).
    vm_compute. discriminate.
Defined.

Lemma Run_single_slot_witness :
  ∃ st0 stf p,
    GP.initialize (sops := GP.fscalar_ops) (rops := GP.counter_rand) 0 false
      (GP.one_slot 3) GP.showing GP.in_order 0 0
      GP.used_tls GP.used_object = Some st0
    ∧ GP.Run (sops := GP.fscalar_ops) (rops := GP.counter_rand) 0 false
        (GP.one_slot 3) GP.showing true GP.in_order 0 0 0
        GP.used_tls GP.used_object = Some stf
    ∧ GP.parents st0 = [p] ∧ GP.parents stf = [p]
    ∧ Forall (λ r, r.2 = [p]) (GP.reports stf).
Proof.
  apply (Run_single_slot (sops := GP.fscalar_ops) (rops := GP.counter_rand)
           0 false (GP.one_slot 3) GP.showing true GP.in_order 0 0 0
           GP.used_tls GP.used_object eq_refl).
Defined.

(** * Further properties of the derivative rules *)

Section AutodiffRules.
Import Autodiff.
Context {Arr : Type} {ops : ArrayOps Arr} {funs : ArrayFuns Arr}.
Implicit Types (rnodes : list (@RNode Arr)) (values : list Arr).

Local Open Scope Z_scope.

Lemma bind_Ok {A B} (x : result A) (f : A → result B) b :
  x ≫= f = Ok b → ∃ a, x = Ok a ∧ f a = Ok b.
Proof. destruct x as [a| |]; [|done..]. intros H. by exists a. Qed.

Lemma bind_Throw {A B} (x : result A) (f : A → result B) msg :
  x ≫= f = Throw msg → x = Throw msg ∨ ∃ a, x = Ok a ∧ f a = Throw msg.
Proof.
  destruct x as [a|m|]; simpl; [|intros [= ->]; by left|done].
  intros H. right. by exists a.
Qed.

Lemma writes_only_refl i rnodes : writes_only i rnodes rnodes.
Proof. repeat split; try done. intros r Hr. by exists r. Qed.

Lemma writes_only_trans i rnodes1 rnodes2 rnodes3 :
  writes_only i rnodes1 rnodes2 → writes_only i rnodes2 rnodes3 →
  writes_only i rnodes1 rnodes3.
Proof.
  intros (L1 & P1 & D1 & S1) (L2 & P2 & D2 & S2).
  split; [congruence|]. split; [intros j; by rewrite P2|].
  split; [intros j x Hj; by rewrite D2, D1|].
  intros r Hr. destruct (S1 r Hr) as (r' & Hr' & Hl).
  destruct (S2 r' Hr') as (r'' & Hr'' & Hl'). exists r''. split; [done|lia].
Qed.

Lemma writes_only_setD rnodes i x v rnodes' :
  setD rnodes i x v = Ok rnodes' → writes_only i rnodes rnodes'.
Proof.
  intros Hs. split; [|split; [|split]].
  - apply setD_inv in Hs as (r & _ & _ & ->). by rewrite length_insert.
  - intros j. by eapply getP_setD.
  - intros j x' Hj. rewrite (getD_setD _ _ _ _ _ _ _ Hs).
    rewrite decide_False; [done|]. intros [-> _]. done.
  - intros r Hr. by eapply setD_length.
Qed.

Lemma each_child_writes_only f i ch : ∀ rnodes rnodes',
  each_child f i ch rnodes = Ok rnodes' → writes_only i rnodes rnodes'.
Proof.
  induction ch as [|[k j] ch IH]; intros rnodes rnodes'; simpl.
  - intros [= <-]. apply writes_only_refl.
  - intros H. apply bind_Ok in H as (pj & _ & H).
    apply bind_Ok in H as (r1 & Hs & H).
    eapply writes_only_trans; [by eapply writes_only_setD|by apply IH].
Qed.

Lemma mul_each_writes_only {nav : SubtreeNav} nodes values i ch :
  ∀ rnodes rnodes',
    mul_each nodes values i ch rnodes = Ok rnodes' →
    writes_only i rnodes rnodes'.
Proof.
  induction ch as [|[k j] ch IH]; intros rnodes rnodes'; simpl.
  - intros [= <-]. apply writes_only_refl.
  - intros H. apply bind_Ok in H as (pj & _ & H).
    apply bind_Ok in H as (d & _ & H).
    apply bind_Ok in H as (r1 & Hs & H).
    eapply writes_only_trans; [by eapply writes_only_setD|by apply IH].
Qed.

(** Peel the reads off the front of a rule that returned. *)
Ltac reads H :=
  repeat match type of H with
         | (_ ≫= _) = Ok _ => apply bind_Ok in H as (? & ? & H); cbv zeta in H
         end.

(** Every rule writes into [rnodes[i].D] only: when it returns, the trace
    has the length it had, no adjoint [P] has changed, the derivative
    slots of every other node hold what they held, and [rnodes[i].D] has
    kept its size. *)
Theorem rules_write_only {nav : SubtreeNav} (r : Rule) nodes values
    rnodes i rnodes' :
  Derivative r nodes values rnodes i = Ok rnodes' →
  writes_only i rnodes rnodes'.
Proof.
  destruct r as [| | | | | |u]; simpl.
  - apply each_child_writes_only.
  - apply each_child_writes_only.
  - unfold Derivative_Mul. intros H.
    apply bind_Ok in H as (n & _ & H).
    destruct (Arity n =? 2)%nat; [|by eapply mul_each_writes_only].
    cbv zeta in H. apply bind_Ok in H as (nj & _ & H).
    apply bind_Ok in H as (pj & _ & H). apply bind_Ok in H as (vk & _ & H).
    apply bind_Ok in H as (r1 & Hs1 & H).
    apply bind_Ok in H as (pk & _ & H). apply bind_Ok in H as (vj & _ & H).
    eapply writes_only_trans; by eapply writes_only_setD.
  - unfold Derivative_Div. intros H.
    apply bind_Ok in H as (n & _ & H).
    destruct (2 <? Arity n)%nat; [done|].
    apply bind_Ok in H as (ri & _ & H).
    destruct (Arity n =? 1)%nat.
    { cbv zeta in H. apply bind_Ok in H as (pj & _ & H).
      apply bind_Ok in H as (vj & _ & H). by eapply writes_only_setD. }
    destruct (Arity n =? 2)%nat.
    { cbv zeta in H. apply bind_Ok in H as (nj & _ & H).
      apply bind_Ok in H as (pj & _ & H). apply bind_Ok in H as (vk & _ & H).
      apply bind_Ok in H as (r1 & Hs1 & H).
      apply bind_Ok in H as (pk & _ & H). apply bind_Ok in H as (vj & _ & H).
      apply bind_Ok in H as (vk' & _ & H).
      eapply writes_only_trans; by eapply writes_only_setD. }
    injection H as <-. apply writes_only_refl.
  - unfold Derivative_Aq. intros H. cbv zeta in H.
    apply bind_Ok in H as (nj & _ & H).
    apply bind_Ok in H as (pj & _ & H). apply bind_Ok in H as (vi & _ & H).
    apply bind_Ok in H as (vj & _ & H). apply bind_Ok in H as (r1 & Hs1 & H).
    apply bind_Ok in H as (pk & _ & H). apply bind_Ok in H as (vk & _ & H).
    eapply writes_only_trans; by eapply writes_only_setD.
  - unfold Derivative_Pow. intros H. cbv zeta in H.
    apply bind_Ok in H as (nj & _ & H).
    apply bind_Ok in H as (pj & _ & H). apply bind_Ok in H as (vj & _ & H).
    apply bind_Ok in H as (vk & _ & H). apply bind_Ok in H as (r1 & Hs1 & H).
    apply bind_Ok in H as (pk & _ & H). apply bind_Ok in H as (vi & _ & H).
    eapply writes_only_trans; by eapply writes_only_setD.
  - unfold Derivative_Unary. intros H.
    apply bind_Ok in H as (p & _ & H).
    destruct u; reads H; by eapply writes_only_setD.
Qed.

Lemma each_child_not_Throw f i ch msg : ∀ rnodes,
  each_child f i ch rnodes ≠ Throw msg.
Proof.
  induction ch as [|[k j] ch IH]; intros rnodes; simpl; [done|].
  intros H. apply bind_Throw in H as [H|(pj & _ & H)];
    [by apply getP_not_Throw in H|].
  apply bind_Throw in H as [H|(r1 & _ & H)]; [by apply setD_not_Throw in H|].
  by apply IH in H.
Qed.

Lemma mul_others_not_Throw values j ks msg : ∀ d,
  mul_others values j ks d ≠ Throw msg.
Proof.
  induction ks as [|k ks IH]; intros d; simpl; [done|].
  destruct (j =? k); [apply IH|].
  intros H. apply bind_Throw in H as [H|(vk & _ & H)];
    [by apply getZ_not_Throw in H|by apply IH in H].
Qed.

Lemma mul_each_not_Throw {nav : SubtreeNav} nodes values i ch msg :
  ∀ rnodes, mul_each nodes values i ch rnodes ≠ Throw msg.
Proof.
  induction ch as [|[k j] ch IH]; intros rnodes; simpl; [done|].
  intros H. apply bind_Throw in H as [H|(pj & _ & H)];
    [by apply getP_not_Throw in H|].
  apply bind_Throw in H as [H|(d & _ & H)];
    [by apply mul_others_not_Throw in H|].
  apply bind_Throw in H as [H|(r1 & _ & H)]; [by apply setD_not_Throw in H|].
  by apply IH in H.
Qed.

(** Discharge a rule that is a chain of reads and writes. *)
Ltac never_throws H :=
  cbv zeta in H;
  repeat match type of H with
         | (_ ≫= _) = Throw _ =>
             apply bind_Throw in H as [H|(? & _ & H)];
             [first [ by apply getZ_not_Throw in H
                    | by apply getP_not_Throw in H
                    | by apply setD_not_Throw in H ]|];
             cbv zeta in H
         end;
  first [ by apply setD_not_Throw in H | done ].

(** The only exception a rule ever throws is the one of the division rule
    at a node with more than two children; no other rule throws, whatever
    the indices. *)
Theorem only_division_throws {nav : SubtreeNav} (r : Rule) nodes values
    rnodes i msg :
  Derivative r nodes values rnodes i = Throw msg →
  r = Div ∧ msg = div_unsupported
  ∧ ∃ n, getZ nodes i = Ok n ∧ (2 < Arity n)%nat.
Proof.
  destruct r as [| | | | | |u]; simpl; intros H.
  - by apply each_child_not_Throw in H.
  - by apply each_child_not_Throw in H.
  - exfalso. unfold Derivative_Mul in H.
    apply bind_Throw in H as [H|(n & _ & H)]; [by apply getZ_not_Throw in H|].
    destruct (Arity n =? 2)%nat; [|by apply mul_each_not_Throw in H].
    never_throws H.
  - unfold Derivative_Div in H.
    apply bind_Throw in H as [H|(n & Hn & H)]; [by apply getZ_not_Throw in H|].
    destruct (Nat.ltb_spec 2 (Arity n)) as [Ha|Ha].
    { injection H as <-. split; [done|]. split; [done|]. by exists n. }
    exfalso.
    apply bind_Throw in H as [H|(ri & _ & H)]; [by apply getZ_not_Throw in H|].
    destruct (Arity n =? 1)%nat; [never_throws H|].
    destruct (Arity n =? 2)%nat; [never_throws H|done].
  - exfalso. unfold Derivative_Aq in H. never_throws H.
  - exfalso. unfold Derivative_Pow in H. never_throws H.
  - exfalso. unfold Derivative_Unary in H.
    apply bind_Throw in H as [H|(p & _ & H)]; [by apply getP_not_Throw in H|].
    destruct u; never_throws H.
Qed.

(** The loop of the primary template and of the subtraction rule: one
    write per enumerated child, into distinct slots. *)
Lemma each_child_spec f i ch : ∀ rnodes ri,
  getZ rnodes i = Ok ri →
  NoDup ch.*1 →
  (∀ x j, (x, j) ∈ ch →
     (x < length (D ri))%nat ∧ ∃ pj, getP rnodes j = Ok pj) →
  ∃ rnodes',
    each_child f i ch rnodes = Ok rnodes'
    ∧ (∀ x, x ∉ ch.*1 → getD rnodes' i x = getD rnodes i x)
    ∧ ∀ x j, (x, j) ∈ ch →
        ∃ pj, getP rnodes j = Ok pj ∧ getD rnodes' i x = Some (f x pj).
Proof.
  induction ch as [|[x j] ch IH]; intros rnodes ri Hri Hnd Hch.
  - exists rnodes. simpl. repeat split; try done.
    intros x j Hin. by apply elem_of_nil in Hin.
  - simpl in Hnd. apply NoDup_cons in Hnd as [Hx Hnd].
    destruct (Hch x j) as (Hlen & pj & Hpj); [by left|].
    simpl. rewrite Hpj. simpl.
    pose proof (setD_Ok rnodes i x (f x pj) ri Hri Hlen) as Hs.
    rewrite Hs. simpl.
    destruct (setD_length _ _ _ _ _ _ Hs Hri) as (r1 & Hr1 & Hlen1).
    destruct (IH _ r1 Hr1 Hnd) as (rnodes' & Hrun & Hkeep & Hres).
    { intros x' j' Hin. destruct (Hch x' j') as (? & pj' & ?); [by right|].
      split; [lia|]. exists pj'. by rewrite (getP_setD _ _ _ _ _ _ Hs). }
    exists rnodes'. split; [done|]. split.
    + intros x' Hx'. rewrite Hkeep.
      * rewrite (getD_setD _ _ _ _ _ _ _ Hs). rewrite decide_False; [done|].
        intros [_ <-]. apply Hx'. simpl. by left.
      * intros Hin. apply Hx'. simpl. by right.
    + intros x' j' Hin. apply elem_of_cons in Hin as [[= -> ->]|Hin].
      * exists pj. split; [done|].
        rewrite Hkeep by done. rewrite (getD_setD _ _ _ _ _ _ _ Hs).
        by rewrite decide_True.
      * destruct (Hres x' j' Hin) as (pj' & Hpj' & Heq).
        exists pj'. by rewrite (getP_setD _ _ _ _ _ _ Hs) in Hpj'.
Qed.

(** The primary template (addition) hands every child the adjoint stored
    in the child's own trace entry, [D[k] = rnodes[j].P]; the subtraction
    rule hands it on unchanged in sign to the first child and multiplied
    by [-1] to every other child, however many there are. *)
Theorem Derivative_Add_Sub_adjoints {nav : SubtreeNav} nodes values
    rnodes i ri :
  let ch := Enumerate nodes i in
  getZ rnodes i = Ok ri →
  NoDup ch.*1 →
  (∀ x j, (x, j) ∈ ch →
     (x < length (D ri))%nat ∧ ∃ pj, getP rnodes j = Ok pj) →
  (∃ rnodes',
     Derivative Default nodes values rnodes i = Ok rnodes'
     ∧ ∀ x j, (x, j) ∈ ch →
         ∃ pj, getP rnodes j = Ok pj ∧ getD rnodes' i x = Some pj)
  ∧ (∃ rnodes',
       Derivative Sub nodes values rnodes i = Ok rnodes'
       ∧ ∀ x j, (x, j) ∈ ch →
           ∃ pj, getP rnodes j = Ok pj
             ∧ getD rnodes' i x
                 = Some (amul pj (aconst (if decide (x = 0%nat) then 1 else -1)))).
Proof.
  intros ch Hri Hnd Hch. split.
  - destruct (each_child_spec (λ _ pj, pj) i ch rnodes ri Hri Hnd Hch)
      as (rnodes' & Hrun & _ & Hres).
    by exists rnodes'.
  - destruct (each_child_spec (λ k pj, amul pj (aconst (sign_of k))) i ch
                rnodes ri Hri Hnd Hch) as (rnodes' & Hrun & _ & Hres).
    exists rnodes'. split; [done|]. intros x j Hin.
    destruct (Hres x j Hin) as (pj & Hpj & Hd). exists pj. split; [done|].
    rewrite Hd. unfold sign_of. by destruct x.
Qed.

(** With the children located by the sibling arithmetic of the binary
    rules, the two-child special case of the product rule is the general
    loop unrolled: on every input both return the same trace or both have
    no defined result. *)
Theorem Mul_binary_is_the_loop nodes values rnodes i n nj :
  getZ nodes i = Ok n → Arity n = 2%nat → getZ nodes (i - 1) = Ok nj →
  Derivative_Mul (nav := child_nav) nodes values rnodes i
  = mul_each (nav := child_nav) nodes values i
      (Enumerate (SubtreeNav := child_nav) nodes i) rnodes.
Proof.
  intros Hn Ha Hnj.
  assert (Hch : children nodes i = [i - 1; i - 1 - (Z.of_nat (Length nj) + 1)]).
  { unfold children. rewrite Hn, Ha. simpl. rewrite Hnj. simpl.
    by destruct (getZ nodes (i - 1 - _)). }
  unfold Derivative_Mul. rewrite Hn. simpl. rewrite Ha. simpl.
  rewrite Hnj. simpl. rewrite !Hch. simpl. rewrite Hch. simpl.
  set (j := i - 1). set (k := j - (Z.of_nat (Length nj) + 1)).
  rewrite !Z.eqb_refl.
  rewrite (proj2 (Z.eqb_neq j k)) by lia.
  rewrite (proj2 (Z.eqb_neq k j)) by lia.
  destruct (getP rnodes j) as [pj| |]; simpl; [|done..].
  destruct (getZ values k) as [vk| |]; simpl; [|done..].
  destruct (setD rnodes i 0 (amul pj vk)) as [r1| |]; simpl; [|done..].
  destruct (getP r1 k) as [pk| |]; simpl; [|done..].
  destruct (getZ values j) as [vj| |]; simpl; [|done..].
  by destruct (setD r1 i 1 (amul pk vj)).
Qed.

End AutodiffRules.

Lemma rules_write_only_witness :
  Autodiff.writes_only 2 Autodiff.trace_binary
    (default [] (match Autodiff.Derivative (ops := Autodiff.Z_ops)
                         (funs := Autodiff.Z_funs) (nav := Autodiff.child_nav)
                         Autodiff.Pow Autodiff.nodes_binary [2; 3; 8]%Z
                         Autodiff.trace_binary 2
                 with Autodiff.Ok r => Some r | _ => None end)).
Proof.
  apply (rules_write_only (ops := Autodiff.Z_ops) (funs := Autodiff.Z_funs)
           (nav := Autodiff.child_nav) Autodiff.Pow Autodiff.nodes_binary
           [2; 3; 8]%Z Autodiff.trace_binary 2).
  vm_compute. reflexivity.
Defined.

Lemma only_division_throws_witness :
  ∃ n, Autodiff.getZ Autodiff.nodes_ternary 3 = Autodiff.Ok n
       ∧ 2 < Autodiff.Arity n.
Proof.
  apply (only_division_throws (ops := Autodiff.Z_ops) (funs := Autodiff.Z_funs)
           (nav := Autodiff.child_nav) Autodiff.Div Autodiff.nodes_ternary
           [2; 3; 5; 30]%Z Autodiff.trace_ternary 3 Autodiff.div_unsupported).
  vm_compute. reflexivity.
Defined.

Lemma Derivative_Add_Sub_adjoints_witness :
  ∃ rnodes',
    Autodiff.Derivative (ops := Autodiff.Z_ops) (funs := Autodiff.Z_funs)
        (nav := Autodiff.child_nav) Autodiff.Sub Autodiff.nodes_ternary
        [2; 3; 5; 30]%Z Autodiff.trace_ternary 3
      = Autodiff.Ok rnodes'
    ∧ Autodiff.getD rnodes' 3 2 = Some (-1)%Z.
Proof.
  assert (Hnd : NoDup (Autodiff.Enumerate (SubtreeNav := Autodiff.child_nav)
                         Autodiff.nodes_ternary 3).*1).
  { apply (bool_decide_unpack _). vm_compute. exact I. }
  assert (Hch : ∀ x j,
            (x, j) ∈ Autodiff.Enumerate (SubtreeNav := Autodiff.child_nav)
                       Autodiff.nodes_ternary 3 →
            x < length (Autodiff.D (Autodiff.trace 1 3))
            ∧ ∃ pj, Autodiff.getP Autodiff.trace_ternary j = Autodiff.Ok pj).
  { vm_compute. intros x j Hin.
    repeat (apply elem_of_cons in Hin as [[= -> ->]|Hin];
            [split; [lia|by eexists]|]).
    by apply elem_of_nil in Hin. }
  destruct (proj2 (Derivative_Add_Sub_adjoints (ops := Autodiff.Z_ops)
                     (funs := Autodiff.Z_funs) (nav := Autodiff.child_nav)
                     Autodiff.nodes_ternary [2; 3; 5; 30]%Z
                     Autodiff.trace_ternary 3 (Autodiff.trace 1 3) eq_refl
                     Hnd Hch))
    as (rnodes' & Hrun & Hres).
  exists rnodes'. split; [exact Hrun|].
  destruct (Hres 2 0%Z) as (pj & Hpj & Hd).
  - apply (bool_decide_unpack _). vm_compute. exact I.
  - vm_compute in Hpj. injection Hpj as <-. exact Hd.
Defined.

Lemma Mul_binary_is_the_loop_witness :
  Autodiff.Derivative_Mul (ops := Autodiff.Z_ops) (nav := Autodiff.child_nav)
      Autodiff.nodes_binary [2; 12; 24]%Z Autodiff.trace_binary 2
  = Autodiff.mul_each (ops := Autodiff.Z_ops) (nav := Autodiff.child_nav)
      Autodiff.nodes_binary [2; 12; 24]%Z 2
      (Autodiff.Enumerate (SubtreeNav := Autodiff.child_nav)
         Autodiff.nodes_binary 2) Autodiff.trace_binary.
Proof.
  apply (Mul_binary_is_the_loop (ops := Autodiff.Z_ops) Autodiff.nodes_binary
           [2; 12; 24]%Z Autodiff.trace_binary 2
           {| Autodiff.Arity := 2; Autodiff.Length := 2 |} Autodiff.leaf
           eq_refl eq_refl eq_refl).
Defined.

(** * Further properties of the tree creator *)

Section CreatorSampling.
Import Creator.

Local Open Scope Q_scope.

(** [find_if] on the partial sums: the first entry whose sum exceeds [r]
    belongs to a symbol of positive frequency. *)
Lemma find_scan (r : Q) rest : ∀ acc back,
  acc <= r →
  Forall (λ p : NodeType * Q, 0 <= p.2) rest →
  last (scan_from acc rest) = Some back → r < back.2 →
  ∃ t w s, List.find (λ p : NodeType * Q, negb (Qle_bool p.2 r))
             (scan_from acc rest) = Some (t, s)
           ∧ (t, w) ∈ rest ∧ 0 < w.
Proof.
  induction rest as [|[t w] rest IH]; intros acc back Hacc Hw Hlast Hr;
    [done|].
  apply Forall_cons in Hw as [Hw0 Hw]. simpl in Hw0. simpl.
  destruct (Qle_bool (acc + w) r) eqn:E; simpl.
  - apply Qle_bool_iff in E.
    destruct rest as [|p rest'].
    { simpl in Hlast. injection Hlast as <-. simpl in Hr. lra. }
    destruct (IH (acc + w) back E Hw) as (t' & w' & s & Hf & Hin & Hpos);
      [by destruct p|done|].
    exists t', w', s. split; [done|]. split; [by right|done].
  - exists t, w, (acc + w). split; [done|]. split; [by left|].
    assert (¬ acc + w <= r) as Hn.
    { intros H. apply Qle_bool_iff in H. congruence. }
    lra.
Qed.

Lemma SampleProportional_spec random allowed :
  unit_draws random → samplable allowed →
  ∃ t w,
    SampleProportional random (inclusive_scan allowed)
      = Some (mkNode t, advance 1 random)
    ∧ (t, w) ∈ allowed ∧ 0 < w.
Proof.
  intros Hu [Hw (back & Hlast & Heps)].
  unfold SampleProportional. rewrite Hlast. simpl.
  unfold uniform_real, next_unit.
  destruct (Hu (position random)) as [Hu0 Hu1].
  set (u := draws random (position random)) in *.
  set (r := 0 + u * (back.2 - epsilon - 0)).
  assert (Hr0 : 0 <= r) by (unfold r; nra).
  assert (Hr1 : r < back.2).
  { unfold r. assert (0 < epsilon) by done. nra. }
  assert (Hadv : {| draws := draws random; position := S (position random) |}
                 = advance 1 random).
  { unfold advance. f_equal. lia. }
  rewrite Hadv.
  destruct allowed as [|[t w] rest]; [done|].
  apply Forall_cons in Hw as [Hw0 Hw]. simpl in Hw0.
  cbn [inclusive_scan List.find fst snd].
  destruct (Qle_bool w r) eqn:E; simpl.
  - apply Qle_bool_iff in E.
    destruct rest as [|p rest'].
    { simpl in Hlast. injection Hlast as <-. simpl in Hr1. lra. }
    destruct (find_scan r (p :: rest') w back E Hw) as (t' & w' & s & Hf & Hin & Hpos);
      [by destruct p|done|].
    rewrite Hf. simpl. exists t', w'. split; [done|]. split; [by right|done].
  - exists t, w. split; [done|]. split; [by left|].
    assert (¬ w <= r) as Hn.
    { intros H. apply Qle_bool_iff in H. congruence. }
    lra.
Qed.

(** With frequencies that are not negative and add up to at least the
    machine epsilon, and a draw in [0, 1), [SampleProportional] on the
    partial sums of the grammar never runs [find_if] to the end: it
    returns, after exactly one draw, a node of an allowed symbol whose
    frequency is positive.  A symbol listed with frequency zero only is
    never sampled. *)
Theorem SampleProportional_positive_weight random allowed :
  unit_draws random → samplable allowed →
  ∃ t w,
    SampleProportional random (inclusive_scan allowed)
      = Some (mkNode t, advance 1 random)
    ∧ (t, w) ∈ allowed ∧ 0 < w
    ∧ ∀ t0, (∀ w0, (t0, w0) ∈ allowed → w0 == 0) → t ≠ t0.
Proof.
  intros Hu Hs.
  destruct (SampleProportional_spec random allowed Hu Hs)
    as (t & w & Hrun & Hin & Hpos).
  exists t, w. repeat split; try done.
  intros t0 Hzero ->. specialize (Hzero w Hin). lra.
Qed.

(** What [SampleProportional] does whenever it returns: one draw, and a
    node of a kind listed in [partials]. *)
Lemma SampleProportional_inv random partials node random' :
  SampleProportional random partials = Some (node, random') →
  ∃ t, node = mkNode t ∧ t ∈ partials.*1 ∧ random' = advance 1 random.
Proof.
  unfold SampleProportional. destruct (last partials) as [back|]; [|done].
  simpl. unfold uniform_real, next_unit.
  destruct (List.find _ partials) as [it|] eqn:Hf; [|done]. simpl.
  intros [= <- <-]. exists it.1. split; [done|]. split.
  - apply find_some in Hf as [Hin _]. apply list_elem_of_fmap.
    exists it. split; [done|]. by apply list_elem_of_In.
  - unfold advance. f_equal. lia.
Qed.

End CreatorSampling.

Section CreatorTrees.
Import Creator.
Context {dist : UniformInt}.

Lemma advance_advance a b random :
  advance b (advance a random) = advance (a + b) random.
Proof. unfold advance. simpl. f_equal. lia. Qed.

Lemma advance_0 random : advance 0 random = random.
Proof. destruct random. unfold advance. simpl. f_equal. lia. Qed.

Lemma arity_of_le t : arity_of t ≤ 2.
Proof. destruct t; simpl; lia. Qed.

(** The [for] loop around [Grow]: [k] subtrees, appended one after the
    other. *)
Lemma repeat_grow_spec
    (body : RandomDevice * list Node → option (RandomDevice * list Node))
    (Q : tree → Prop) :
  (∀ random nodes random' nodes',
     body (random, nodes) = Some (random', nodes') →
     ∃ t, nodes' = nodes ++ prefix_nodes t ∧ Q t
          ∧ random' = advance (length (prefix_nodes t)) random) →
  ∀ k random nodes random' nodes',
    repeat_grow k body (random, nodes) = Some (random', nodes') →
    ∃ ts, length ts = k
      ∧ nodes' = nodes ++ concat (List.map prefix_nodes ts)
      ∧ Forall Q ts
      ∧ random' = advance (length (concat (List.map prefix_nodes ts))) random.
Proof.
  intros Hbody. unfold repeat_grow.
  induction k as [|k IH]; intros random nodes random' nodes'; simpl.
  - intros [= <- <-]. exists []. simpl. rewrite app_nil_r, advance_0. done.
  - destruct (Nat.iter k _ _) as [[random1 nodes1]|] eqn:Hk; [|done]. simpl.
    intros Hb.
    destruct (IH _ _ _ _ Hk) as (ts & Hlen & -> & HQ & ->).
    destruct (Hbody _ _ _ _ Hb) as (t & -> & Ht & ->).
    exists (ts ++ [t]). rewrite length_app, List.map_app, concat_app. simpl.
    rewrite app_nil_r, <- app_assoc, advance_advance, length_app.
    split; [lia|]. split; [done|]. split; [|done].
    apply Forall_app. split; [done|]. by constructor.
Qed.

Lemma height_bound d ts :
  Forall (λ t, height t ≤ d) ts →
  fold_right (λ c h, Nat.max (S (height c)) h) 0 ts ≤ S d.
Proof. induction 1; simpl; lia. Qed.

Lemma well_formed_all (Q : tree → Prop) ts :
  Forall (λ t, well_formed t ∧ Q t) ts →
  fold_right (λ c P, well_formed c ∧ P) True ts.
Proof. induction 1; simpl; tauto. Qed.

Lemma size_bound b ts :
  Forall (λ t, length (prefix_nodes t) ≤ b) ts →
  length (concat (List.map prefix_nodes ts)) ≤ length ts * b.
Proof.
  induction 1 as [|t ts Ht _ IH]; simpl; [lia|].
  rewrite length_app. lia.
Qed.

Lemma Grow_spec grammar partials maxLength d :
  ∀ random nodes random' nodes',
    Grow grammar partials maxLength d (random, nodes) = Some (random', nodes') →
    ∃ t, nodes' = nodes ++ prefix_nodes t ∧ grown d t
         ∧ random' = advance (length (prefix_nodes t)) random.
Proof.
  induction d as [|d IH]; intros random nodes random' nodes'.
  - simpl. unfold uniform_real, next_unit. intros [= <- <-].
    set (r := (0 + _ * _)%Q).
    assert (Hadv : {| draws := draws random; position := S (position random) |}
                   = advance 1 random).
    { unfold advance. f_equal. lia. }
    destruct (negb _).
    + exists (T Constant []). simpl. repeat split; try done; lia.
    + exists (T NodeVariable []). simpl. repeat split; try done; lia.
  - cbn [Grow].
    destruct (SampleProportional random partials) as [[node random1]|] eqn:Hs;
      [|done].
    simpl. intros Hrep.
    apply SampleProportional_inv in Hs as (t & -> & _ & ->).
    destruct (repeat_grow_spec _ (grown d) IH _ _ _ _ _ Hrep)
      as (ts & Hlen & -> & Hts & ->).
    exists (T t ts). simpl in Hlen. simpl.
    rewrite <- app_assoc, advance_advance. simpl.
    split; [done|]. split; [|done]. split; [|split].
    + split; [done|]. apply (well_formed_all (λ t, height t ≤ d)).
      eapply Forall_impl; [exact Hts|]. intros ? (? & ? & ?). done.
    + apply height_bound. eapply Forall_impl; [exact Hts|].
      intros ? (? & ? & ?). done.
    + pose proof (size_bound (2 ^ S d - 1) ts) as Hb.
      pose proof (arity_of_le t).
      assert (1 ≤ 2 ^ S d) by (apply Nat.pow_lower_bound; lia).
      cbn [length]. rewrite (Nat.pow_succ_r' 2 (S d)).
      assert (length (concat (List.map prefix_nodes ts))
              ≤ length ts * (2 ^ S d - 1)).
      { apply Hb. eapply Forall_impl; [exact Hts|]. intros ? (? & ? & ?). done. }
      assert (length ts * (2 ^ S d - 1) ≤ 2 * (2 ^ S d - 1))
        by (apply Nat.mul_le_mono_r; lia).
      change (prefix_nodes (T t ts))
        with (mkNode t :: concat (List.map prefix_nodes ts)).
      cbn [length]. lia.
Qed.

Lemma tree_induction (P : tree → Prop) :
  (∀ t cs, Forall P cs → P (T t cs)) → ∀ tr, P tr.
Proof.
  intros H. fix IH 1. intros [t cs]. apply H.
  induction cs as [|c cs IHcs]; constructor; [apply IH|apply IHcs].
Qed.

Lemma prefix_nodes_fresh tr :
  Forall (λ n, n = mkNode (Type_ n)) (prefix_nodes tr).
Proof.
  induction tr as [t cs IH] using tree_induction. simpl.
  constructor; [done|].
  induction IH as [|c cs Hc _ IHcs]; simpl; [constructor|].
  apply Forall_app. done.
Qed.

Lemma prefix_nodes_nonempty tr : 1 ≤ length (prefix_nodes tr).
Proof. destruct tr. simpl. lia. Qed.

Lemma scan_from_fst acc rest : (scan_from acc rest).*1 = rest.*1.
Proof.
  revert acc. induction rest as [|[t w] rest IH]; intros acc; simpl; [done|].
  by rewrite IH.
Qed.

Lemma inclusive_scan_fst allowed : (inclusive_scan allowed).*1 = allowed.*1.
Proof. destruct allowed as [|[t w] rest]; simpl; [done|]. by rewrite scan_from_fst. Qed.

(** The loop over the variable nodes: kinds and arities stay, every
    variable node receives the hash of a listed variable and costs one
    call of the distribution, every other node is left alone. *)
Lemma assign_variables_spec variables nodes : ∀ random nodes' random',
  assign_variables variables nodes random = Some (nodes', random') →
  Forall2 (λ n n', Type_ n' = Type_ n ∧ Arity n' = Arity n
                   ∧ if IsVariable n
                     then ∃ v, v ∈ variables ∧ HashValue n' = Hash v
                               ∧ CalculatedHashValue n' = Hash v
                     else n' = n) nodes nodes'
  ∧ hash_draws variables (length (List.filter IsVariable nodes)) random
      = Some random'.
Proof.
  induction nodes as [|n nodes IH]; intros random nodes' random'; simpl.
  - intros [= <- <-]. split; [constructor|done].
  - destruct (IsVariable n) eqn:Hv.
    + destruct (uniform_int (last_index variables) random) as [[v r0]|] eqn:Hu;
        [|done].
      simpl.
      destruct (variables !! N.to_nat v) as [var|] eqn:Hvar; [|done]. simpl.
      destruct (assign_variables variables nodes r0) as [[rest r1]|] eqn:Hrest;
        [|done].
      simpl. intros [= <- <-].
      destruct (IH _ _ _ Hrest) as [Hall Hd]. split.
      * constructor; [|done]. simpl. rewrite Hv. repeat split.
        exists var. split; [by eapply list_elem_of_lookup_2|done].
      * rewrite Hu. simpl. exact Hd.
    + destruct (assign_variables variables nodes random) as [[rest r1]|] eqn:Hrest;
        [|done].
      simpl. intros [= <- <-].
      destruct (IH _ _ _ Hrest) as [Hall Hd]. split; [|done].
      constructor; [|done]. by rewrite Hv.
Qed.

Lemma assign_variables_count variables nodes random nodes' random' :
  assign_variables variables nodes random = Some (nodes', random') →
  length nodes' = length nodes
  ∧ Type_ <$> nodes' = Type_ <$> nodes
  ∧ Arity <$> nodes' = Arity <$> nodes
  ∧ length (List.filter IsVariable nodes')
      = length (List.filter IsVariable nodes).
Proof.
  intros [Hall _]%assign_variables_spec.
  induction Hall as [|n n' nodes nodes' (Ht & Ha & _) _ (IH1 & IH2 & IH3 & IH4)];
    [done|].
  split; [simpl; lia|]. split; [by rewrite !fmap_cons, IH2, Ht|].
  split; [by rewrite !fmap_cons, IH3, Ha|].
  assert (E : IsVariable n' = IsVariable n)
    by (unfold IsVariable; by rewrite Ht).
  simpl. rewrite E. destruct (IsVariable n); simpl; by rewrite IH4.
Qed.

Lemma filter_reverse_length {A} (p : A → bool) l :
  length (List.filter p (reverse l)) = length (List.filter p l).
Proof.
  induction l as [|a l IH]; [done|].
  rewrite reverse_cons, List.filter_app, length_app, IH. simpl.
  destruct (p a); simpl; lia.
Qed.

Lemma size_sub_pred (maxDepth : N) :
  (1 ≤ maxDepth < 2 ^ 64)%N →
  S (N.to_nat (size_sub maxDepth 1)) = N.to_nat maxDepth.
Proof.
  intros H. unfold size_sub.
  replace (maxDepth + 2 ^ 64 - 1)%N with (maxDepth - 1 + 1 * 2 ^ 64)%N by lia.
  rewrite N.Div0.mod_add, N.mod_small by lia. lia.
Qed.

(** What [GrowTreeCreator] goes through before it returns. *)
Lemma GrowTreeCreator_inv maxDepth maxLength random grammar variables
    nodes random' :
  GrowTreeCreator maxDepth maxLength random grammar variables
    = Some (nodes, random') →
  ∃ t ts assigned,
    t ∈ (AllowedSymbols grammar).*1
    ∧ length ts = arity_of t
    ∧ Forall (grown (N.to_nat (size_sub maxDepth 1))) ts
    ∧ assign_variables variables (prefix_nodes (T t ts))
        (advance (length (prefix_nodes (T t ts))) random)
      = Some (assigned, random')
    ∧ nodes = reverse assigned.
Proof.
  unfold GrowTreeCreator.
  destruct (SampleProportional random _) as [[root random1]|] eqn:Hs; [|done].
  simpl.
  destruct (repeat_grow _ _ _) as [[random2 nodes2]|] eqn:Hrep; [|done].
  simpl.
  destruct (assign_variables variables nodes2 random2) as [[assigned r3]|] eqn:Ha;
    [|done].
  simpl. intros [= <- <-].
  apply SampleProportional_inv in Hs as (t & -> & Hin & ->).
  rewrite inclusive_scan_fst in Hin.
  destruct (repeat_grow_spec _ (grown (N.to_nat (size_sub maxDepth 1)))
              (Grow_spec grammar _ maxLength _) _ _ _ _ _ Hrep)
    as (ts & Hlen & -> & Hts & ->).
  exists t, ts, assigned. simpl in Hlen. rewrite advance_advance in Ha.
  done.
Qed.

(** The tree [GrowTreeCreator] returns is the reversed prefix listing of
    a well-formed expression tree whose root, an allowed symbol, comes
    last; with a depth limit between 1 and the largest [size_t] its
    height is at most the limit, which is the only bound on its size:
    at most [2^(maxDepth+1) - 1] nodes.  The root is sampled without
    regard to the depth limit, so the tree has at least one node per
    argument of the root besides the root itself, also with
    [maxDepth = 0]. *)
Theorem GrowTreeCreator_tree_shape maxDepth maxLength random grammar
    variables nodes random' :
  GrowTreeCreator maxDepth maxLength random grammar variables
    = Some (nodes, random') →
  ∃ tr,
    Type_ <$> nodes = reverse (Type_ <$> prefix_nodes tr)
    ∧ Arity <$> nodes = reverse (Arity <$> prefix_nodes tr)
    ∧ well_formed tr
    ∧ root_type tr ∈ (AllowedSymbols grammar).*1
    ∧ last (Type_ <$> nodes) = Some (root_type tr)
    ∧ 1 + arity_of (root_type tr) ≤ length nodes
    ∧ ((1 ≤ maxDepth < 2 ^ 64)%N →
         height tr ≤ N.to_nat maxDepth
         ∧ length nodes ≤ 2 ^ S (N.to_nat maxDepth) - 1).
Proof.
  intros (t & ts & assigned & Hin & Hlen & Hts & Ha & ->)%GrowTreeCreator_inv.
  apply assign_variables_count in Ha as (Hl & Hty & Har & _).
  exists (T t ts).
  rewrite !fmap_reverse, Hty, Har, length_reverse, Hl.
  split; [done|]. split; [done|]. split; [|split; [done|split; [|split]]].
  - split; [done|]. apply (well_formed_all (λ _, True)).
    eapply Forall_impl; [exact Hts|]. intros ? (? & ? & ?). done.
  - simpl. by rewrite reverse_cons, last_snoc.
  - simpl. rewrite <- Hlen. clear.
    induction ts as [|c ts IH]; simpl; [lia|].
    rewrite length_app. pose proof (prefix_nodes_nonempty c). lia.
  - intros Hd. pose proof (size_sub_pred maxDepth Hd) as Hp.
    set (d := N.to_nat (size_sub maxDepth 1)) in *. rewrite <- Hp. split.
    + simpl. apply height_bound. eapply Forall_impl; [exact Hts|].
      intros ? (? & ? & ?). done.
    + pose proof (size_bound (2 ^ S d - 1) ts) as Hb.
      pose proof (arity_of_le t).
      assert (1 ≤ 2 ^ S d) by (apply Nat.pow_lower_bound; lia).
      rewrite (Nat.pow_succ_r' 2 (S d)).
      assert (length (concat (List.map prefix_nodes ts))
              ≤ length ts * (2 ^ S d - 1)).
      { apply Hb. eapply Forall_impl; [exact Hts|]. intros ? (? & ? & ?). done. }
      assert (length ts * (2 ^ S d - 1) ≤ 2 * (2 ^ S d - 1))
        by (apply Nat.mul_le_mono_r; lia).
      change (prefix_nodes (T t ts))
        with (mkNode t :: concat (List.map prefix_nodes ts)).
      cbn [length]. lia.
Qed.

(** [GrowTreeCreator] takes one draw from the generator for every node
    it creates, and only when all nodes are there does it call the
    distribution of the hash loop, once for every variable node and for
    nothing else: the generator it leaves is the one it received,
    advanced by the number of nodes and then passed through that many
    calls of the distribution.  A tree without variable nodes costs
    exactly one draw per node. *)
Theorem GrowTreeCreator_draws maxDepth maxLength random grammar variables
    nodes random' :
  GrowTreeCreator maxDepth maxLength random grammar variables
    = Some (nodes, random') →
  hash_draws variables (length (List.filter IsVariable nodes))
    (advance (length nodes) random) = Some random'
  ∧ (List.filter IsVariable nodes = [] →
       random' = advance (length nodes) random).
Proof.
  intros (t & ts & assigned & _ & _ & _ & Ha & ->)%GrowTreeCreator_inv.
  pose proof (assign_variables_count _ _ _ _ _ Ha) as (Hl & _ & _ & Hc).
  apply assign_variables_spec in Ha as [_ Hd].
  rewrite length_reverse, filter_reverse_length, Hl, Hc.
  split; [done|]. intros E. apply (f_equal length) in E.
  rewrite filter_reverse_length, Hc in E. rewrite E in Hd.
  simpl in *. by injection Hd as <-.
Qed.


End CreatorTrees.

Lemma random_alternating_unit : Creator.unit_draws Creator.random_alternating.
Proof.
  intros k. unfold Creator.random_alternating. simpl.
  destruct (Nat.even k); split; unfold Qle, Qlt; simpl; lia.
Qed.

Lemma grammar_mixed_samplable :
  Creator.samplable (Creator.AllowedSymbols Creator.grammar_mixed).
Proof.
  split.
  - repeat constructor; unfold Qle; simpl; lia.
  - eexists. split; [vm_compute; reflexivity|]. unfold Qle. simpl. lia.
Qed.

Lemma SampleProportional_positive_weight_witness :
  ∃ t w,
    Creator.SampleProportional Creator.random_alternating
      (Creator.inclusive_scan (Creator.AllowedSymbols Creator.grammar_mixed))
      = Some (Creator.mkNode t, Creator.advance 1 Creator.random_alternating)
    ∧ (t, w) ∈ Creator.AllowedSymbols Creator.grammar_mixed ∧ (0 < w)%Q.
Proof.
  destruct (SampleProportional_positive_weight Creator.random_alternating
              (Creator.AllowedSymbols Creator.grammar_mixed)
              random_alternating_unit grammar_mixed_samplable)
    as (t & w & Hrun & Hin & Hpos & _).
  exists t, w. split; [exact Hrun|]. split; assumption.
Defined.

Lemma GrowTreeCreator_tree_shape_witness :
  ∃ tr,
    Creator.Type_ <$> Creator.created_mixed.1
      = reverse (Creator.Type_ <$> Creator.prefix_nodes tr)
    ∧ Creator.well_formed tr ∧ Creator.height tr ≤ 2.
Proof.
  destruct (GrowTreeCreator_tree_shape (dist := Creator.floor_int) 2 5
              Creator.random_alternating
              Creator.grammar_mixed Creator.two_variables
              Creator.created_mixed.1 Creator.created_mixed.2)
    as (tr & Hty & _ & Hwf & _ & _ & _ & Hbound).
  - vm_compute. reflexivity.
  - exists tr. split; [exact Hty|]. split; [exact Hwf|].
    apply Hbound. split; [lia|reflexivity].
Defined.

Lemma GrowTreeCreator_draws_witness :
  Creator.hash_draws (dist := Creator.floor_int) Creator.two_variables
    (length (List.filter Creator.IsVariable Creator.created_mixed.1))
    (Creator.advance (length Creator.created_mixed.1)
       Creator.random_alternating)
  = Some Creator.created_mixed.2.
Proof.
  apply (proj1 (GrowTreeCreator_draws (dist := Creator.floor_int) 2 5
                  Creator.random_alternating Creator.grammar_mixed
                  Creator.two_variables
                  Creator.created_mixed.1 Creator.created_mixed.2
                  ltac:(vm_compute; reflexivity))).
Defined.


(** * Properties of the row ranges of the command-line driver *)

Section CliRanges.
Import Core Cli.

Local Open Scope N_scope.

(** The driver goes on exactly when the training range starts inside the
    data, ends inside or at the end of the data and is not reversed; the
    training range may be empty.  A test range given on the command line
    is passed on as it is, without any check against the number of
    rows. *)
Theorem training_range_checked rows train test :
  let tr := match train with Some r => r | None => default_training rows end in
  (Start tr < rows ∧ Start tr <= End tr <= rows
   ↔ ∃ te, resolve rows train test = Accepted tr te)
  ∧ (∀ tr' te', resolve rows train test = Accepted tr' te' →
       tr' = tr ∧ ∀ r, test = Some r → te' = r).
Proof.
  intros tr. unfold resolve. fold tr. split.
  - destruct (N.leb_spec rows (Start tr)); simpl.
    { split; [lia|by intros [? [=]]]. }
    destruct (N.ltb_spec rows (End tr)); simpl.
    { split; [lia|by intros [? [=]]]. }
    destruct (N.ltb_spec (End tr) (Start tr)).
    { split; [lia|by intros [? [=]]]. }
    split; [by eexists|]. intros _. lia.
  - intros tr' te'.
    destruct (_ || _); [done|].
    destruct (_ <? _); [done|].
    intros [= <- <-]. split; [done|]. by intros r ->.
Qed.

(** Without [--test], an accepted run gets a test range that is not empty
    and lies inside the data.  It is disjoint from the training range,
    except when the training range covers all rows: then the test range
    is row 0, which is a training row as well. *)
Theorem inferred_test_range rows train tr te :
  rows < 2 ^ 64 →
  resolve rows train None = Accepted tr te →
  Start te < End te ∧ End te <= rows
  ∧ ((Start tr = 0 ∧ End tr = rows) →
       te = {| Start := 0; End := 1 |} ∧ covers tr 0 ∧ covers te 0)
  ∧ (¬ (Start tr = 0 ∧ End tr = rows) →
       ∀ i, covers tr i → covers te i → False).
Proof.
  intros Hrows. unfold resolve.
  set (tr0 := match train with Some r => r | None => default_training rows end).
  destruct (N.leb_spec rows (Start tr0)); [done|].
  destruct (N.ltb_spec rows (End tr0)); [done|]. simpl.
  destruct (N.ltb_spec (End tr0) (Start tr0)); [done|].
  intros [= <- <-]. unfold infer_test, covers.
  destruct (N.ltb_spec 0 (Start tr0)); simpl;
    [|destruct (N.ltb_spec (End tr0) rows); simpl];
    repeat split; intros; simpl in *; try done; lia.
Qed.

(** Without [--train] and [--test], on a data set of fewer than [2^63]
    rows: an empty data set is rejected; otherwise the first
    [floor(2 rows / 3)] rows are the training range and the remaining
    rows the test range, so the two partition the data.  On a data set of
    one single row the accepted training range is empty. *)
Theorem default_split rows :
  rows < 2 ^ 63 →
  (rows = 0 → resolve rows None None = Exceeds)
  ∧ (1 <= rows →
       resolve rows None None
         = Accepted {| Start := 0; End := 2 * rows / 3 |}
                    {| Start := 2 * rows / 3; End := rows |}
       ∧ 2 * rows / 3 < rows
       ∧ Size {| Start := 0; End := 2 * rows / 3 |}
         + Size {| Start := 2 * rows / 3; End := rows |} = rows)
  ∧ (rows = 1 → ∃ tr te, resolve rows None None = Accepted tr te ∧ Size tr = 0).
Proof.
  intros Hrows.
  assert (Hmod : (2 * rows) mod 2 ^ 64 = 2 * rows) by (apply N.mod_small; lia).
  assert (Hdiv : 1 <= rows → 2 * rows / 3 < rows).
  { intros H1. apply N.Div0.div_lt_upper_bound. lia. }
  split; [by intros ->|]. split.
  - intros H1. specialize (Hdiv H1).
    unfold resolve, default_training, infer_test. rewrite Hmod.
    cbn [Start End]. unfold Size. cbn [Start End].
    generalize dependent (2 * rows / 3). intros q Hq.
    destruct (N.leb_spec rows 0); [exfalso; lia|].
    destruct (N.ltb_spec rows q); [exfalso; lia|]. cbn [orb].
    destruct (N.ltb_spec q 0); [exfalso; lia|].
    destruct (N.ltb_spec 0 0); [exfalso; lia|].
    destruct (N.ltb_spec q rows); [|exfalso; lia].
    split; [done|]. split; [done|].
    replace (q + 2 ^ 64 - 0) with (q + 1 * 2 ^ 64) by lia.
    replace (rows + 2 ^ 64 - q) with (rows - q + 1 * 2 ^ 64) by lia.
    rewrite !N.Div0.mod_add, !N.mod_small by lia. lia.
  - intros ->. by eexists _, _.
Qed.

End CliRanges.

Lemma training_range_checked_witness :
  ∃ te, Cli.resolve 10 (Some {| Core.Start := 2; Core.End := 8 |})
          (Some {| Core.Start := 0; Core.End := 1000 |})
        = Cli.Accepted {| Core.Start := 2; Core.End := 8 |} te.
Proof.
  apply (proj1 (proj1 (training_range_checked 10
                         (Some {| Core.Start := 2; Core.End := 8 |})
                         (Some {| Core.Start := 0; Core.End := 1000 |})))).
  simpl. lia.
Defined.

Lemma inferred_test_range_witness :
  Core.covers {| Core.Start := 0; Core.End := 10 |} 0%N
  ∧ Core.covers {| Core.Start := 0; Core.End := 1 |} 0%N.
Proof.
  apply (proj2 (proj1 (proj2 (proj2 (inferred_test_range 10
            (Some {| Core.Start := 0; Core.End := 10 |})
            {| Core.Start := 0; Core.End := 10 |}
            {| Core.Start := 0; Core.End := 1 |}
            ltac:(lia) eq_refl))) (conj eq_refl eq_refl))).
Defined.

Lemma default_split_witness :
  Cli.resolve 150 None None
  = Cli.Accepted {| Core.Start := 0; Core.End := 2 * 150 / 3 |}
                 {| Core.Start := 2 * 150 / 3; Core.End := 150 |}.
Proof.
  apply (proj1 (proj2 (default_split 150 ltac:(lia))) ltac:(lia)).
Defined.

(** * Properties of the mini-batch selection *)

Section LikelihoodBatch.
Import Core Likelihood.
Context {rng : Type} {dist : UniformInt rng}.

Local Open Scope N_scope.

Lemma Size_ordered (r : Range) :
  Start r <= End r → End r < 2 ^ 64 → Size r = End r - Start r.
Proof.
  intros H1 H2. unfold Size.
  replace (End r + 2 ^ 64 - Start r) with (End r - Start r + 1 * 2 ^ 64) by lia.
  rewrite N.Div0.mod_add, N.mod_small by lia. done.
Qed.

(** The batch [SelectRandomRange] returns lies inside the range the
    likelihood was constructed with and has [min(bs_, range.Size())]
    rows.  With [batchSize = 0], or a batch size that is not smaller than
    the range, it is the whole range and no random number is drawn.  The
    batch has exactly [bs_] rows (the row count [jac_] is allocated with)
    if and only if [bs_] does not exceed the size of the range. *)
Theorem SelectRandomRange_batch (range : Range) (batchSize : N) (r : rng) :
  bounded → Start range <= End range → End range < 2 ^ 64 →
  batchSize < 2 ^ 64 →
  let l := make range batchSize in
  let b := (SelectRandomRange l r).1 in
  Start range <= Start b ∧ Start b <= End b ∧ End b <= End range
  ∧ Size b = N.min (bs_ l) (Size range)
  ∧ ((batchSize = 0 ∨ Size range <= batchSize) →
       SelectRandomRange l r = (range, r))
  ∧ (Size b = bs_ l ↔ bs_ l <= Size range).
Proof.
  intros Hb H1 H2 H3 l b.
  pose proof (Size_ordered range H1 H2) as Hs.
  assert (Hbs : bs_ l = if batchSize =? 0 then Size range else batchSize) by done.
  unfold b, SelectRandomRange. change (range_ l) with range.
  destruct (N.leb_spec (Size range) (bs_ l)) as [Hle|Hgt].
  - simpl. repeat split; lia.
  - rewrite Hbs in Hgt |- *.
    destruct (N.eqb_spec batchSize 0) as [->|Hne]; [lia|].
    assert (Hm : (Size range + 2 ^ 64 - batchSize) mod 2 ^ 64
                 = Size range - batchSize).
    { replace (Size range + 2 ^ 64 - batchSize)
        with (Size range - batchSize + 1 * 2 ^ 64) by lia.
      rewrite N.Div0.mod_add, N.mod_small by lia. done. }
    rewrite Hm. specialize (Hb (Size range - batchSize) r).
    destruct (uniform_int (Size range - batchSize) r) as [s r'].
    simpl in Hb |- *.
    rewrite !N.mod_small by lia.
    assert (Hsb : Size {| Start := Start range + s;
                          End := Start range + s + batchSize |} = batchSize).
    { rewrite Size_ordered; simpl; lia. }
    rewrite Hsb. repeat split; lia.
Qed.

End LikelihoodBatch.

Lemma stepping_bounded : Likelihood.bounded (dist := Likelihood.stepping).
Proof.
  intros hi r. simpl.
  assert (r mod (hi + 1) < hi + 1)%N by (apply N.mod_lt; lia). lia.
Qed.

Lemma SelectRandomRange_batch_witness :
  Core.Size (Likelihood.SelectRandomRange (dist := Likelihood.stepping)
               (Likelihood.make {| Core.Start := 10; Core.End := 110 |} 32)
               5%N).1
  = N.min 32 100.
Proof.
  apply (proj1 (proj2 (proj2 (proj2 (SelectRandomRange_batch
            (dist := Likelihood.stepping)
            {| Core.Start := 10; Core.End := 110 |} 32 5%N
            stepping_bounded ltac:(simpl; lia) ltac:(simpl; lia)
            ltac:(lia)))))).
Defined.

(** * Properties of the evaluation of many trees *)

Section EvaluateSlices.
Import Interpreter.
Context {Scalar Tree : Type} (evaluate : Tree → list Scalar → list Scalar).

Local Abbreviation task := (task evaluate).
Local Abbreviation Evaluate := (Evaluate evaluate).

Lemma chunks_length s n (l : list Scalar) : length (chunks s n l) = n.
Proof. revert l. induction n as [|n IH]; intros l; simpl; [done|]. by rewrite IH. Qed.

Lemma chunks_sized s n (l : list Scalar) :
  n * s ≤ length l → Forall (λ c, length c = s) (chunks s n l).
Proof.
  revert l. induction n as [|n IH]; intros l Hl; simpl; constructor.
  - rewrite length_take. lia.
  - apply IH. rewrite length_drop. lia.
Qed.

Lemma concat_chunks s n (l : list Scalar) :
  concat (chunks s n l) ++ drop (n * s) l = l.
Proof.
  revert l. induction n as [|n IH]; intros l; simpl; [done|].
  rewrite <- app_assoc.
  rewrite <- (drop_drop l (n * s) s), IH. apply take_drop.
Qed.

(** Writing the span of index [i] replaces the [i]-th piece. *)
Lemma on_subspan_chunk s (f : list Scalar → list Scalar) tail :
  ∀ (cs : list (list Scalar)) i c,
    Forall (λ c, length c = s) cs → cs !! i = Some c → length (f c) = s →
    on_subspan (concat cs ++ tail) (i * s) s f
      = Some (concat (<[i := f c]> cs) ++ tail).
Proof.
  intros cs i c Hs Hi Hf. unfold on_subspan.
  assert (Hlen : ∀ cs : list (list Scalar),
            Forall (λ c, length c = s) cs → length (concat cs) = length cs * s).
  { clear. induction 1 as [|c cs Hc _ IH]; simpl; [done|].
    rewrite length_app. lia. }
  assert (Hil : i < length cs) by (by eapply lookup_lt_Some).
  rewrite decide_True.
  2:{ rewrite length_app, Hlen by done. nia. }
  f_equal. revert i c Hi Hf Hil.
  induction Hs as [|c0 cs Hc0 Hs IH]; intros i c Hi Hf Hil; [done|].
  destruct i as [|i]; simpl in *.
  - injection Hi as <-. rewrite <- !app_assoc, drop_0.
    rewrite take_app_length' by done.
    rewrite drop_app_length' by done. done.
  - rewrite <- !app_assoc.
    rewrite (take_app_add' c0 _ s (i * s)) by done.
    rewrite (drop_app_add' c0 _ s (i * s)) by done.
    replace (s + i * s + s) with (s + (i * s + s)) by lia.
    rewrite (drop_app_add' c0 _ s (i * s + s)) by done.
    rewrite <- app_assoc. f_equal. apply (IH i c); [done..|lia].
Qed.

Lemma Evaluate_chunks trees s tail order :
  keeps_span evaluate →
  ∀ cs : list (list Scalar),
    Forall (λ c, length c = s) cs → length cs = length trees →
    NoDup order → (∀ i, i ∈ order → i < length trees) →
    ∃ cs',
      Evaluate order trees s (concat cs ++ tail) = Some (concat cs' ++ tail)
      ∧ length cs' = length trees
      ∧ ∀ i, cs' !! i = if decide (i ∈ order)
                        then zip_with evaluate trees cs !! i
                        else cs !! i.
Proof.
  intros Hk. unfold Interpreter.Evaluate.
  induction order as [|j order IH]; intros cs Hs Hl Hnd Hlt; simpl.
  - exists cs. split; [done|]. split; [done|]. by intros i.
  - apply NoDup_cons in Hnd as [Hj Hnd].
    destruct (lookup_lt_is_Some_2 trees j) as [t Ht]; [apply Hlt; by left|].
    destruct (lookup_lt_is_Some_2 cs j) as [c Hc];
      [rewrite Hl; apply Hlt; by left|].
    unfold Interpreter.task at 2. rewrite Ht. simpl.
    pose proof (Forall_lookup_1 _ _ _ _ Hs Hc) as Hcl. simpl in Hcl.
    rewrite (on_subspan_chunk s _ tail cs j c Hs Hc) by (by rewrite Hk).
    destruct (IH (<[j := evaluate t c]> cs)) as (cs' & Hrun & Hl' & Hcs').
    { apply Forall_insert; [done|]. by rewrite Hk. }
    { by rewrite length_insert. }
    { done. }
    { intros i Hi. apply Hlt. by right. }
    exists cs'. split; [done|]. split; [done|]. intros i. rewrite Hcs'.
    destruct (decide (i = j)) as [->|Hne].
    + rewrite decide_False by done. rewrite decide_True by (by left).
      rewrite list_lookup_insert_eq by (by eapply lookup_lt_Some).
      by rewrite lookup_zip_with, Ht, Hc.
    + destruct (decide (i ∈ order)) as [Hin|Hnin].
      * rewrite decide_True by (by right).
        rewrite !lookup_zip_with, list_lookup_insert_ne by done. done.
      * rewrite decide_False; [by rewrite list_lookup_insert_ne|].
        intros [?|?]%elem_of_cons; done.
Qed.

(** [Evaluate] fills the result buffer tree by tree: whatever the order in
    which the executor runs the tasks, the piece of [s] entries at offset
    [i * s] holds what the interpreter made of tree [i] and of that piece,
    and the entries from [n * s] on are untouched.  A buffer with fewer
    than [n * s] entries gives no defined result: some [subspan] does not
    fit. *)
Theorem Evaluate_fills_slices order trees s (result : list Scalar) :
  keeps_span evaluate →
  Permutation order (seq 0 (length trees)) →
  (length trees * s ≤ length result →
     Evaluate order trees s result
       = Some (concat (zip_with evaluate trees
                         (chunks s (length trees) result))
               ++ drop (length trees * s) result))
  ∧ (length result < length trees * s →
       Evaluate order trees s result = None).
Proof.
  intros Hk Hperm. set (n := length trees).
  assert (Hnd : NoDup order) by (rewrite Hperm; apply NoDup_seq).
  assert (Hlt : ∀ i, i ∈ order ↔ i < n).
  { intros i. rewrite Hperm, elem_of_seq. lia. }
  split.
  - intros Hlen.
    destruct (Evaluate_chunks trees s (drop (n * s) result) order Hk
                (chunks s n result)) as (cs' & Hrun & Hl' & Hcs');
      [by apply chunks_sized|apply chunks_length|done|by intros i ?%Hlt|].
    rewrite concat_chunks in Hrun. rewrite Hrun. do 3 f_equal.
    apply list_eq. intros i. rewrite Hcs'.
    destruct (decide (i ∈ order)) as [|Hnin]; [done|].
    rewrite lookup_zip_with.
    assert (Hge : n ≤ i).
    { apply Nat.nlt_ge. intros Hi. apply Hnin. by apply Hlt. }
    rewrite (lookup_ge_None_2 trees i) by done.
    simpl. apply lookup_ge_None_2. by rewrite chunks_length.
  - intros Hshort.
    assert (Hin : n - 1 ∈ order) by (apply Hlt; destruct n; simpl in *; lia).
    clear Hperm Hnd Hlt. unfold Interpreter.Evaluate.
    assert (Hnone : ∀ l : list nat,
              foldl (λ acc i, r ← acc; task trees s i r) None l = None).
    { induction l; simpl; done. }
    assert (Hgen : ∀ r : list Scalar, length r = length result →
              foldl (λ acc i, r ← acc; task trees s i r) (Some r) order = None).
    { induction order as [|j order IH]; intros r Hr;
        [by apply elem_of_nil in Hin|]. simpl.
      destruct (task trees s j r) as [r'|] eqn:Ht; [|apply Hnone].
      simpl. unfold Interpreter.task, on_subspan in Ht.
      destruct (trees !! j) as [t|] eqn:Htj; [|done]. simpl in Ht.
      case_decide as Hfit; [|done]. injection Ht as <-.
      apply elem_of_cons in Hin as [<-|Hin].
      - exfalso. rewrite Hr in Hfit. subst n.
        destruct (length trees); simpl in *; [lia|nia].
      - apply IH; [done|].
        rewrite !length_app, length_take, Hk, length_take, !length_drop.
        lia. }
    by apply Hgen.
Qed.

End EvaluateSlices.

Lemma Evaluate_fills_slices_witness :
  Interpreter.Evaluate (λ (t : nat) l, (λ x, x + t) <$> l) [2; 0; 1]
    [10; 20; 30] 2 [1; 1; 1; 1; 1; 1; 7]
  = Some [11; 11; 21; 21; 31; 31; 7].
Proof.
  apply (proj1 (Evaluate_fills_slices (λ (t : nat) l, (λ x, x + t) <$> l)
                  [2; 0; 1] [10; 20; 30] 2 [1; 1; 1; 1; 1; 1; 7]
                  ltac:(intros t l; apply length_fmap)
                  ltac:(apply (bool_decide_unpack _); vm_compute; exact I))).
  simpl. lia.
Defined.

(** * Properties of the data set built from columns *)

Section DataColumns.
Import Data.
Context {Scalar : Type}.
Implicit Types (m : @MatrixType Scalar) (col : list Scalar)
               (vals : list (list Scalar)).

Lemma cell_index_lt r c i j : i < c → j < r → i * r + j < r * c.
Proof. intros. nia. Qed.

Lemma cell_index_inj r i j i' j' :
  j < r → j' < r → i * r + j = i' * r + j' → i = i' ∧ j = j'.
Proof.
  intros Hj Hj' E. destruct (lt_eq_lt_dec i i') as [[Hlt| ->]|Hlt]; [|lia|].
  - pose proof (Nat.mul_le_mono_r (S i) i' r Hlt). simpl in *. lia.
  - pose proof (Nat.mul_le_mono_r (S i') i r Hlt). simpl in *. lia.
Qed.

Lemma fill_column_spec i col : ∀ j0 m w,
  holds m w → i < cols m → j0 + length col ≤ rows m →
  ∃ m', fill_column i j0 col m = Some m'
    ∧ rows m' = rows m ∧ cols m' = cols m
    ∧ holds m' (λ i' j', if decide (i' = i ∧ j0 ≤ j' < j0 + length col)
                         then col !! (j' - j0) else w i' j').
Proof.
  induction col as [|v col IH]; intros j0 m w [Hlen Hw] Hi Hj; simpl in *.
  - exists m. repeat split; try done. intros i' j' Hi' Hj'.
    rewrite decide_False by lia. by apply Hw.
  - unfold assign. rewrite decide_True by lia. simpl.
    set (m1 := {| rows := rows m; cols := cols m;
                  cells := <[i * rows m + j0 := Some v]> (cells m) |}).
    destruct (IH (S j0) m1
                (λ i' j', if decide (i' = i ∧ j' = j0) then Some v else w i' j'))
      as (m' & Hrun & Hr & Hc & Hlen' & Hw'); [|done|simpl; lia|].
    { split; simpl; [by rewrite length_insert|]. intros i' j' Hi' Hj'.
      destruct (decide (i' = i ∧ j' = j0)) as [[-> ->]|Hne].
      - apply list_lookup_insert_eq. rewrite Hlen. by apply cell_index_lt.
      - rewrite list_lookup_insert_ne; [by apply Hw|].
        intros E. apply cell_index_inj in E; [|lia..]. lia. }
    exists m'. split; [done|]. split; [done|]. split; [done|].
    split; [by rewrite Hlen', Hr, Hc|].
    intros i' j' Hi' Hj'. rewrite Hr in *. rewrite Hc in *.
    rewrite Hw' by done. f_equal.
    destruct (decide (i' = i ∧ S j0 ≤ j' < S j0 + length col)) as [[-> H1]|H1].
    + rewrite decide_True by lia.
      replace (j' - j0) with (S (j' - S j0)) by lia. done.
    + destruct (decide (i' = i ∧ j' = j0)) as [[-> ->]|H2].
      * rewrite decide_True by lia. by rewrite Nat.sub_diag.
      * rewrite decide_False by lia. done.
Qed.

Lemma fill_column_None i col : ∀ j0 m,
  j0 ≤ rows m → rows m < j0 + length col → fill_column i j0 col m = None.
Proof.
  induction col as [|v col IH]; intros j0 m Hj Hlen; simpl in *; [lia|].
  unfold assign. case_decide as Hd; [|done]. simpl.
  apply IH; simpl; lia.
Qed.

Lemma fill_columns_spec vals : ∀ i0 m w,
  holds m w → i0 + length vals ≤ cols m →
  Forall (λ col, length col ≤ rows m) vals →
  ∃ m', fill_columns i0 vals m = Some m'
    ∧ rows m' = rows m ∧ cols m' = cols m
    ∧ holds m' (λ i j,
        match (if decide (i0 ≤ i) then vals !! (i - i0) else None) with
        | Some col => if decide (j < length col) then col !! j else w i j
        | None => w i j
        end).
Proof.
  induction vals as [|col vals IH]; intros i0 m w Hm Hc Hall; simpl in *.
  - exists m. repeat split; try apply Hm. intros i j Hi Hj.
    destruct (decide (i0 ≤ i)); by apply Hm.
  - apply Forall_cons in Hall as [Hcol Hall].
    destruct (fill_column_spec i0 col 0 m w Hm) as (m1 & -> & Hr1 & Hc1 & Hm1);
      [lia|simpl; lia|].
    simpl.
    destruct (IH (S i0) m1 _ Hm1) as (m' & Hrun & Hr & Hc' & Hlen' & Hw');
      [lia|by rewrite Hr1|].
    exists m'. split; [done|]. split; [congruence|]. split; [congruence|].
    split; [by rewrite Hlen', Hr, Hc', Hr1, Hc1|].
    intros i j Hi Hj. rewrite Hr, Hr1, Hc', Hc1 in *.
    rewrite Hw' by done. f_equal.
    destruct (decide (S i0 ≤ i)) as [H1|H1].
    + rewrite (decide_True (P := i0 ≤ i)) by lia.
      replace (i - i0) with (S (i - S i0)) by lia. simpl.
      destruct (vals !! (i - S i0)) as [c|];
        repeat case_decide; first [done | lia].
    + destruct (decide (i0 ≤ i)) as [H2|H2].
      * replace (i - i0) with 0 by lia. simpl.
        assert (i = i0) as -> by lia.
        repeat case_decide; rewrite ?Nat.sub_0_r; first [done | lia].
      * repeat case_decide; first [done | lia].
Qed.

Lemma fill_columns_rows vals : ∀ i0 m m',
  fill_columns i0 vals m = Some m' →
  Forall (λ col, length col ≤ rows m) vals.
Proof.
  induction vals as [|col vals IH]; intros i0 m m'; simpl; [constructor|].
  destruct (fill_column i0 0 col m) as [m1|] eqn:Hcol; [|done]. simpl.
  intros Hrest.
  assert (Hle : length col ≤ rows m).
  { apply Nat.nlt_ge. intros Hlt.
    rewrite fill_column_None in Hcol by lia. done. }
  assert (Hr1 : rows m1 = rows m).
  { clear -Hcol. revert Hcol. generalize 0. revert m.
    induction col as [|v col IHc]; intros m j0; simpl; [by intros [= <-]|].
    unfold assign. case_decide; [|done]. simpl. intros Hrun.
    by apply IHc in Hrun. }
  constructor; [done|]. rewrite <- Hr1. by eapply IH.
Qed.

Lemma concat_lookup_uniform r vals : ∀ i j,
  Forall (λ col, length col = r) vals → j < r →
  concat vals !! (i * r + j) = vals !! i ≫= (.!! j).
Proof.
  induction vals as [|col vals IH]; intros i j Hall Hj; [done|].
  apply Forall_cons in Hall as [Hcol Hall]. simpl.
  destruct i as [|i]; simpl.
  - by rewrite lookup_app_l by lia.
  - rewrite lookup_app_r by lia.
    replace (r + i * r + j - length col) with (i * r + j) by lia.
    by apply IH.
Qed.

(** The constructor [Dataset(vars, vals)] stores the columns it is given:
    the matrix has as many rows as the first column has entries and one
    column per list, and the entry [(j, i)] is [vals[i][j]].  The entries
    of a column shorter than the first one are left without a value from
    its end on; a column longer than the first one, or an empty [vals],
    gives no defined result.  When all columns have the same length the
    column-major storage is the concatenation of the columns. *)
Theorem Dataset_stores_columns vals :
  (vals = [] → Dataset vals = None)
  ∧ ∀ front rest, vals = front :: rest →
      let r := length front in
      (Forall (λ col, length col ≤ r) vals →
         ∃ m, Dataset vals = Some m
           ∧ Rows m = r ∧ Cols m = length vals
           ∧ ∀ i col j, vals !! i = Some col → j < r →
               at_ m j i = col !! j)
      ∧ (¬ Forall (λ col, length col ≤ r) vals → Dataset vals = None)
      ∧ (Forall (λ col, length col = r) vals →
           ∃ m, Dataset vals = Some m ∧ cells m = Some <$> concat vals).
Proof.
  split; [by intros ->|]. intros front rest Hv r.
  assert (Hhead : head vals = Some front) by (by rewrite Hv).
  assert (Hm0 : holds (allocate r (length vals)) (λ _ _, @None Scalar)).
  { split; simpl; [by rewrite length_replicate|]. intros i j Hi Hj.
    apply lookup_replicate. split; [done|]. by apply cell_index_lt. }
  assert (Hsome : Forall (λ col, length col ≤ r) vals →
            ∃ m, Dataset vals = Some m ∧ rows m = r ∧ cols m = length vals
              ∧ holds m (λ i j, match vals !! i with
                                | Some col => col !! j
                                | None => None
                                end)).
  { intros Hall.
    destruct (fill_columns_spec vals 0 (allocate r (length vals)) _ Hm0)
      as (m & Hrun & Hr & Hc & Hlen & Hw); [simpl; lia|done|].
    simpl in Hr, Hc. exists m. unfold Dataset. rewrite Hhead. simpl.
    split; [done|]. split; [done|]. split; [done|]. split; [done|].
    intros i j Hi Hj. rewrite Hw by done. f_equal.
    rewrite decide_True by lia. rewrite Nat.sub_0_r.
    destruct (vals !! i) as [col|]; [|done].
    case_decide as Hd; [done|]. symmetry. apply lookup_ge_None_2. lia. }
  split; [|split].
  - intros Hall. destruct (Hsome Hall) as (m & Hrun & Hr & Hc & _ & Hw).
    exists m. split; [done|]. split; [done|]. split; [done|].
    intros i col j Hi Hj.
    assert (Hic : i < cols m) by (rewrite Hc; by eapply lookup_lt_Some).
    unfold at_. rewrite decide_True by lia.
    rewrite Hw by lia. simpl. by rewrite Hi.
  - intros Hnot. unfold Dataset. rewrite Hhead. simpl.
    destruct (fill_columns 0 vals _) as [m|] eqn:Hrun; [|done].
    exfalso. apply Hnot. by apply fill_columns_rows in Hrun.
  - intros Hall.
    destruct Hsome as (m & Hrun & Hr & Hc & Hlen & Hw).
    { eapply Forall_impl; [exact Hall|]. simpl. lia. }
    exists m. split; [done|].
    assert (Hcl : length (concat vals) = r * length vals).
    { clear -Hall. induction Hall as [|c l Hcl _ IH]; simpl; [lia|].
      rewrite length_app. lia. }
    apply (list_eq_same_length _ _ (r * length vals));
      [by rewrite length_fmap|by rewrite Hlen, Hr, Hc|].
    intros p x y Hp Hx Hy.
    assert (Hrpos : 0 < r) by (destruct r; lia).
    pose proof (Nat.div_mod_eq p r) as Hdm.
    pose proof (Nat.mod_upper_bound p r ltac:(lia)) as Hmod.
    assert (Hdiv : p / r < length vals).
    { apply Nat.Div0.div_lt_upper_bound. lia. }
    pose proof (Hw (p / r) (p mod r) ltac:(lia) ltac:(lia)) as Hcell.
    rewrite Hr in Hcell.
    replace p with (p / r * r + p mod r) in Hx, Hy by lia.
    rewrite Hcell in Hx.
    rewrite list_lookup_fmap, (concat_lookup_uniform r) in Hy by done.
    injection Hx as <-.
    destruct (vals !! (p / r)) as [col|]; simpl in *; [|done].
    destruct (col !! (p mod r)); simpl in *; congruence.
Qed.

End DataColumns.

Lemma Dataset_stores_columns_witness :
  ∃ m, Data.Dataset [[1; 2; 3]; [4; 5; 6]] = Some m
       ∧ Data.cells m = Some <$> concat [[1; 2; 3]; [4; 5; 6]].
Proof.
  apply (proj2 (proj2 (proj2 (Dataset_stores_columns [[1; 2; 3]; [4; 5; 6]])
                         [1; 2; 3] [[4; 5; 6]] eq_refl))).
  repeat constructor.
Defined.
